(** * claude-limitline: usage acquisition, caching and temporal progress

    A shallow embedding of the usage engine of claude-limitline
    (src/utils/oauth.ts, src/utils/history.ts, src/segments/weekly.ts),
    with the parts of the renderer and of the themes that compute
    (src/renderer.ts, src/themes/index.ts), and the properties its
    specification states about it.

    Numeric model.  JavaScript numbers are IEEE-754 doubles.  A finite
    double is modelled as the rational it denotes ([Q]); every [+], [-],
    [*] and [/] of the source on such numbers is followed by the rounding
    to the nearest double, ties to even (module [Double]).  Time values
    (milliseconds since the epoch, [Date.now()], [Date.prototype.getTime])
    and calendar fields are integers far below 2^53, where the arithmetic
    of doubles is exact: they are modelled as [Z].  [Math.round] is
    "nearest integer, ties towards +infinity", i.e. [floor (x + 1/2)];
    [Math.floor], [Math.max], [Math.min] and the comparisons are exact.
    The time remaining in the short window, whose source is missing, is
    the quotient of the specification, unrounded.  A [Date] is a time
    value or Invalid Date.  NaN, the infinities, the sign of zero and
    overflow beyond the largest double are outside the model. *)

From Stdlib Require Import ZArith QArith Qround Qminmax Qpower Qreduction Bool List String Lia Lqa Sorted.
Import ListNotations.

Local Open Scope Z_scope.

(** ** JavaScript arithmetic helpers *)

Module JS.

Definition Math_floor (x : Q) : Z := Qfloor x.

Definition Math_round (x : Q) : Z := Qfloor (x + (1 # 2)).

Definition Math_max (x y : Q) : Q := Qmax x y.

Definition Math_min (x y : Q) : Q := Qmin x y.

(** [x < y] on numbers, as a boolean. *)
Definition ltb (x y : Q) : bool := negb (Qle_bool y x).

(** [x >= y] on numbers, as a boolean. *)
Definition geb (x y : Q) : bool := Qle_bool y x.

(** A property that may be [undefined], [null] or hold a value. *)
Inductive field (A : Type) : Type :=
| undefined : field A
| null : field A
| value : A -> field A.

Arguments undefined {A}.
Arguments null {A}.
Arguments value {A} _.

(** [x ?? d] : the nullish coalescing operator. *)
Definition nullish {A : Type} (x : field A) (d : A) : A :=
  match x with
  | value a => a
  | _ => d
  end.

(** [x ?? undefined]. *)
Definition nullish_undefined {A : Type} (x : field A) : field A :=
  match x with
  | value a => value a
  | _ => undefined
  end.

(** Truthiness of a [string | null] variable. *)
Definition truthy_token (x : option string) : bool :=
  match x with
  | Some s => negb (String.eqb s EmptyString)
  | None => false
  end.

(** A [Date] object: its time value, or Invalid Date (time value NaN), which
    [new Date(s)] gives for a string that is not a date. *)
Inductive Date : Type :=
| ValidDate (time : Z) : Date
| InvalidDate : Date.

End JS.

(** ** Arithmetic of doubles *)

Module Double.

(** [2^k], for any integer [k]. *)
Definition pow2 (k : Z) : Q := Qpower 2 k.

(** For [x > 0], the [k] with [2^k <= x < 2^(k+1)]: the difference of the
    bit lengths of numerator and denominator, or one less. *)
Definition ilog2 (x : Q) : Z :=
  let k := Z.log2 (Qnum x) - Z.log2 (Zpos (Qden x)) in
  if Qle_bool (pow2 k) x then k else k - 1.

(** The nearest integer, ties to the even one. *)
Definition rne (s : Q) : Z :=
  let f := Qfloor s in
  match Qcompare (s - inject_Z f) (1 # 2) with
  | Lt => f
  | Gt => f + 1
  | Eq => if Z.even f then f else f + 1
  end.

(** The exponent of the unit in the last place of the doubles around
    [x > 0]: 53 significant bits, and never below that of the subnormal
    numbers. *)
Definition exponent (x : Q) : Z := Z.max (ilog2 x - 52) (-1074).

Definition roundPos (x : Q) : Q :=
  let e := exponent x in
  (inject_Z (rne (x / pow2 e)) * pow2 e)%Q.

(** The double nearest to a rational, ties to the even significand. *)
Definition round (x : Q) : Q :=
  let y := Qred x in
  match Qnum y with
  | Z0 => 0%Q
  | Zpos _ => roundPos y
  | Zneg _ => (- roundPos (- y))%Q
  end.

(** The four operations of JavaScript on numbers; the divisors of the
    source are constants other than zero or differences of time values. *)
Definition add (x y : Q) : Q := round (x + y).

Definition sub (x y : Q) : Q := round (x - y).

Definition mul (x y : Q) : Q := round (x * y).

Definition div (x y : Q) : Q := round (x / y).

(** The value of a decimal literal of the source or of a JSON number. *)
Definition literal (x : Q) : Q := round x.

End Double.

(** ** Week progress (src/segments/weekly.ts) *)

Module Weekly.
Import JS.

(** The reading of [new Date()] in local time. *)
Record WallClock : Type := {
  getDay : Z;      (* 0 = Sunday, 1 = Monday, ..., 6 = Saturday *)
  getHours : Z;
  getMinutes : Z
}.

(** Days since the last reset, including the correction for "on the reset
    day but before the reset time".  The [%] of JavaScript truncates
    towards zero, as [Z.rem] does. *)
Definition daysSinceReset (now : WallClock) (targetDay targetHour targetMinute : Z) : Z :=
  let dayOfWeek := getDay now in
  let hours := getHours now in
  let minutes := getMinutes now in
  let daysSinceReset := Z.rem (dayOfWeek - targetDay + 7) 7 in
  if daysSinceReset =? 0 then
    let currentMinutes := hours * 60 + minutes in
    let resetMinutes := targetHour * 60 + targetMinute in
    if currentMinutes <? resetMinutes then 7 else daysSinceReset
  else daysSinceReset.

(** [daysSinceReset * 24 + hours - targetHour + (minutes - targetMinute) / 60]:
    the sum of the integers is exact, the quotient and the last sum are
    rounded. *)
Definition hoursIntoWeek (now : WallClock) (targetDay targetHour targetMinute : Z) : Q :=
  let hours := getHours now in
  let minutes := getMinutes now in
  Double.add
    (inject_Z (daysSinceReset now targetDay targetHour targetMinute * 24 + hours - targetHour))
    (Double.div (inject_Z (minutes - targetMinute)) 60).

Definition totalHoursInWeek : Q := inject_Z (7 * 24).

(** Default to Monday 00:00 if no reset time is specified
    ([resetDay ?? 1], [resetHour ?? 0], [resetMinute ?? 0]). *)
Definition targetDay (resetDay : option Z) : Z :=
  match resetDay with Some d => d | None => 1 end.

Definition targetHour (resetHour : option Z) : Z :=
  match resetHour with Some h => h | None => 0 end.

Definition targetMinute (resetMinute : option Z) : Z :=
  match resetMinute with Some m => m | None => 0 end.

Definition calculateWeekProgress
    (now : WallClock) (resetDay resetHour resetMinute : option Z) : Z :=
  let targetDay := targetDay resetDay in
  let targetHour := targetHour resetHour in
  let targetMinute := targetMinute resetMinute in
  let hoursIntoWeek := hoursIntoWeek now targetDay targetHour targetMinute in
  let progress :=
    Math_max 0
      (Math_min 100 (Double.mul (Double.div hoursIntoWeek totalHoursInWeek) 100)) in
  Math_round progress.







(** The host calendar: [cal k t] is the time value of a [Date] with time
    value [t] after [d.setDate(d.getDate() + k)].  The shift is done on
    local calendar days, so its length in milliseconds depends on the time
    zone of the host. *)
Definition Calendar : Type := Z -> Z -> Z.

Definition msPerDay : Z := 24 * 60 * 60 * 1000.

(** A host whose local time has no daylight-saving transitions. *)
Definition fixedOffsetCalendar : Calendar := fun k t => t + k * msPerDay.

Definition calculateWeekProgressFromResetTime
    (setDate : Calendar) (now : Z) (resetAt : Z) : Z :=
  let resetTime := resetAt in
  let periodStart := setDate (-7) resetTime in
  if now >? resetTime then
    let newPeriodStart := resetTime in
    let newResetTime := setDate 7 resetTime in
    let totalMs := newResetTime - newPeriodStart in
    let elapsedMs := now - newPeriodStart in
    Math_round (Double.mul (Double.div (inject_Z elapsedMs) (inject_Z totalMs)) 100)
  else
    let totalMs := resetTime - periodStart in
    let elapsedMs := now - periodStart in
    let progress :=
      Math_max 0
        (Math_min 100
           (Double.mul (Double.div (inject_Z elapsedMs) (inject_Z totalMs)) 100)) in
    Math_round progress.

End Weekly.

(** ** Time remaining in the short window (src/segments/block.ts) *)

Module Block.
Import JS.

(** Modelled from the spec: the time-remaining computation of
    [BlockProvider.getBlockInfo].  src/segments/block.ts is missing from the
    sources (only its test is present); the specification gives the figure
    as [max(0, round((resetAt - now) in minutes))]. *)
Definition timeRemaining (now : Z) (resetAt : Z) : Z :=
  Z.max 0 (Math_round (inject_Z (resetAt - now) / inject_Z (60 * 1000))%Q).

End Block.

(** ** Usage history sparkline (src/utils/history.ts) *)

Module History.
Import JS.

(** A JavaScript string, as its sequence of UTF-16 code units. *)
Definition jsstring : Type := list N.

(** The eight glyphs U+2581 .. U+2588, lowest to highest. *)
Definition SPARKLINE_CHARS : jsstring :=
  [0x2581; 0x2582; 0x2583; 0x2584; 0x2585; 0x2586; 0x2587; 0x2588]%N.

(** [s[i]], as the string that [join] makes of it: a missing element
    ([undefined]) contributes nothing. *)
Definition charAt (s : jsstring) (i : Z) : jsstring :=
  if i <? 0 then []
  else match nth_error s (Z.to_nat i) with
       | Some c => [c]
       | None => []
       end.

(** [samples.filter(s => s !== null)] *)
Fixpoint filterNonNull (samples : list (option Q)) : list Q :=
  match samples with
  | [] => []
  | Some v :: rest => v :: filterNonNull rest
  | None :: rest => filterNonNull rest
  end.

(** [a.slice(start)]: a negative [start] counts from the end, and the first
    index kept is clamped to [0 .. a.length]. *)
Definition slice {A : Type} (start : Z) (a : list A) : list A :=
  let len := Z.of_nat (List.length a) in
  let k := if start <? 0 then Z.max (len + start) 0 else Z.min start len in
  skipn (Z.to_nat k) a.

Definition sparkIndex (value : Q) : Z :=
  let clamped := Math_max 0 (Math_min 100 value) in
  Math_floor (Double.mul (Double.div clamped 100) 7).

Definition getSparkline (samples : list (option Q)) (width : Z) : jsstring :=
  let validSamples := filterNonNull samples in
  if (List.length validSamples =? 0)%nat then []
  else
    let recentSamples := slice (- width) validSamples in
    List.concat (map (fun value => charAt SPARKLINE_CHARS (sparkIndex value)) recentSamples).

(** Vocabulary for the properties: the last [n] elements of a list, and the
    glyph that stands for a value. *)
Definition lastn {A : Type} (n : nat) (l : list A) : list A :=
  skipn (List.length l - n) l.

Definition glyph (value : Q) : N :=
  nth (Z.to_nat (sparkIndex value)) SPARKLINE_CHARS 0%N.

(** The least double whose glyph has index [k], for [k] from 1 to 7, as
    significand and exponent: 14.285714285714285, 28.57142857142857,
    42.857142857142854, 57.14285714285714, 71.42857142857143,
    85.71428571428571 and 100. *)
Definition bucketSignificand (k : Z) : Z :=
  match k with
  | 1 => 8042142191733028
  | 2 => 8042142191733028
  | 3 => 6031606643799771
  | 4 => 8042142191733028
  | 5 => 5026338869833143
  | 6 => 6031606643799771
  | _ => 7036874417766400
  end.

Definition bucketExponent (k : Z) : Z :=
  match k with
  | 1 => -49
  | 2 => -48
  | 3 => -47
  | 4 => -47
  | 5 => -46
  | 6 => -46
  | _ => -46
  end.

Definition bucketStart (k : Z) : Q :=
  (inject_Z (bucketSignificand k) * Double.pow2 (bucketExponent k))%Q.

End History.

(** ** Quota client and usage cache (src/utils/oauth.ts) *)

Module OAuth.
Import JS.

Record UsageData : Type := {
  resetAt : Date;
  percentUsed : Q;
  isOverLimit : bool
}.

Record ApiUsageBlock : Type := {
  resets_at : field string;
  utilization : field Q
}.

Record ApiResponse : Type := {
  five_hour : field ApiUsageBlock;
  seven_day : field ApiUsageBlock;
  seven_day_opus : field ApiUsageBlock;
  seven_day_sonnet : field ApiUsageBlock
}.

Record OAuthUsageResponse : Type := {
  fiveHour : option UsageData;
  sevenDay : option UsageData;
  sevenDayOpus : option UsageData;
  sevenDaySonnet : option UsageData;
  raw : ApiResponse
}.

(** The four usage dimensions. *)
Inductive Window : Type := FiveHour | SevenDay | SevenDayOpus | SevenDaySonnet.

Definition apiBlock (w : Window) (data : ApiResponse) : field ApiUsageBlock :=
  match w with
  | FiveHour => five_hour data
  | SevenDay => seven_day data
  | SevenDayOpus => seven_day_opus data
  | SevenDaySonnet => seven_day_sonnet data
  end.

Definition usageWindow (w : Window) (u : OAuthUsageResponse) : option UsageData :=
  match w with
  | FiveHour => fiveHour u
  | SevenDay => sevenDay u
  | SevenDayOpus => sevenDayOpus u
  | SevenDaySonnet => sevenDaySonnet u
  end.

(** What one HTTP exchange with the usage endpoint comes to: [fetch] rejects,
    or there is a response with its [ok] flag and its body, where
    [json = None] stands for a body that [response.json()] rejects or that
    is not an object. *)
Inductive HttpResult : Type :=
| Threw : HttpResult
| Response (ok : bool) (json : option ApiResponse) : HttpResult.

(** The surroundings of one call: the clock, the credential stores and the
    network. *)
Record Env : Type := {
  Date_now : Z;                       (* [Date.now()] at the start of the call *)
  Date_parse : string -> Date;        (* [new Date(s)] *)
  clock : Window -> Z;                (* [new Date()] while that key is parsed *)
  getOAuthToken : option string;      (* what [getOAuthToken()] resolves to *)
  http : string -> HttpResult         (* the exchange made with a given token *)
}.

Definition parseUsageBlock (env : Env) (w : Window) (block : field ApiUsageBlock)
  : option UsageData :=
  match block with
  | value block =>
      Some {| resetAt :=
                match resets_at block with
                | value s =>
                    if String.eqb s EmptyString then ValidDate (clock env w)
                    else Date_parse env s
                | _ => ValidDate (clock env w)
                end;
              percentUsed := nullish (utilization block) 0%Q;
              isOverLimit := geb (nullish (utilization block) 0%Q) 100 |}
  | _ => None
  end.

Definition fetchUsageFromAPI (env : Env) (token : string) : option OAuthUsageResponse :=
  match http env token with
  | Threw => None
  | Response ok json =>
      if negb ok then None
      else
        match json with
        | None => None
        | Some data =>
            Some {| fiveHour := parseUsageBlock env FiveHour (five_hour data);
                    sevenDay := parseUsageBlock env SevenDay (seven_day data);
                    sevenDayOpus :=
                      parseUsageBlock env SevenDayOpus (nullish_undefined (seven_day_opus data));
                    sevenDaySonnet :=
                      parseUsageBlock env SevenDaySonnet
                        (nullish_undefined (seven_day_sonnet data));
                    raw := data |}
        end
  end.

(** The module-level cache variables. *)
Record Cache : Type := {
  cachedUsage : option OAuthUsageResponse;
  previousUsage : option OAuthUsageResponse;
  cacheTimestamp : Z;
  cachedToken : option string
}.

Definition initialCache : Cache :=
  {| cachedUsage := None; previousUsage := None; cacheTimestamp := 0; cachedToken := None |}.

Definition setCachedToken (token : option string) (st : Cache) : Cache :=
  {| cachedUsage := cachedUsage st;
     previousUsage := previousUsage st;
     cacheTimestamp := cacheTimestamp st;
     cachedToken := token |}.

Inductive Direction : Type := up | down | same.

(** [TrendDirection]: a direction or [null]. *)
Definition TrendDirection : Type := option Direction.

Record TrendInfo : Type := {
  fiveHourTrend : TrendDirection;
  sevenDayTrend : TrendDirection;
  sevenDayOpusTrend : TrendDirection;
  sevenDaySonnetTrend : TrendDirection
}.

Definition trendOf (w : Window) (t : TrendInfo) : TrendDirection :=
  match w with
  | FiveHour => fiveHourTrend t
  | SevenDay => sevenDayTrend t
  | SevenDayOpus => sevenDayOpusTrend t
  | SevenDaySonnet => sevenDaySonnetTrend t
  end.

Definition compareTrend (current previous : option UsageData) : TrendDirection :=
  match current, previous with
  | Some current, Some previous =>
      let diff := Double.sub (percentUsed current) (percentUsed previous) in
      if ltb (1 # 2) diff then Some up
      else if ltb diff (- (1 # 2)) then Some down
      else Some same
  | _, _ => None
  end.

Definition getUsageTrend (st : Cache) : TrendInfo :=
  match cachedUsage st, previousUsage st with
  | Some cachedUsage, Some previousUsage =>
      {| fiveHourTrend := compareTrend (fiveHour cachedUsage) (fiveHour previousUsage);
         sevenDayTrend := compareTrend (sevenDay cachedUsage) (sevenDay previousUsage);
         sevenDayOpusTrend :=
           compareTrend (sevenDayOpus cachedUsage) (sevenDayOpus previousUsage);
         sevenDaySonnetTrend :=
           compareTrend (sevenDaySonnet cachedUsage) (sevenDaySonnet previousUsage) |}
  | _, _ =>
      {| fiveHourTrend := None; sevenDayTrend := None;
         sevenDayOpusTrend := None; sevenDaySonnetTrend := None |}
  end.

(** The external work a call does, in order. *)
Inductive Event : Type :=
| ResolveToken : Event                    (* a call of [getOAuthToken] *)
| FetchUsage (token : string) : Event.    (* a call of [fetchUsageFromAPI] *)

Definition isFetch (e : Event) : bool :=
  match e with
  | FetchUsage _ => true
  | ResolveToken => false
  end.

(** The poll interval in milliseconds, [pollIntervalMinutes * 60 * 1000]
    with both products rounded; the parameter defaults to 15 minutes. *)
Definition pollIntervalMs (pollIntervalMinutes : option Q) : Q :=
  let pollIntervalMinutes := match pollIntervalMinutes with Some p => p | None => 15%Q end in
  Double.mul (Double.mul pollIntervalMinutes 60) 1000.

Definition cacheAgeMs (env : Env) (st : Cache) : Z :=
  let now := Date_now env in
  now - cacheTimestamp st.

(** "Return cached data if still fresh": the test of the first [if]. *)
Definition cacheFresh (pollIntervalMinutes : option Q) (env : Env) (st : Cache) : bool :=
  match cachedUsage st with
  | Some _ => ltb (inject_Z (cacheAgeMs env st)) (pollIntervalMs pollIntervalMinutes)
  | None => false
  end.

(** [getRealtimeUsage]: the value returned, the cache afterwards and the
    external work done. *)
Definition getRealtimeUsage (pollIntervalMinutes : option Q) (env : Env) (st : Cache)
  : option OAuthUsageResponse * Cache * list Event :=
  let now := Date_now env in
  if cacheFresh pollIntervalMinutes env st then (cachedUsage st, st, [])
  else
    let '(st1, resolved) :=
      if truthy_token (cachedToken st) then (st, [])
      else (setCachedToken (getOAuthToken env) st, [ResolveToken]) in
    match cachedToken st1 with
    | None => (None, st1, resolved)
    | Some token =>
        if String.eqb token EmptyString then (None, st1, resolved)
        else
          let usage := fetchUsageFromAPI env token in
          match usage with
          | Some _ =>
              (usage,
               {| cachedUsage := usage;
                  previousUsage := cachedUsage st1;
                  cacheTimestamp := now;
                  cachedToken := cachedToken st1 |},
               resolved ++ [FetchUsage token])
          | None =>
              (usage, setCachedToken None st1, resolved ++ [FetchUsage token])
          end
    end.

(** The three components of what a call comes to. *)
Definition returned (o : option OAuthUsageResponse * Cache * list Event)
  : option OAuthUsageResponse := fst (fst o).

Definition cacheAfter (o : option OAuthUsageResponse * Cache * list Event) : Cache :=
  snd (fst o).

Definition work (o : option OAuthUsageResponse * Cache * list Event) : list Event :=
  snd o.

Definition clearUsageCache (st : Cache) : Cache :=
  {| cachedUsage := None; previousUsage := None; cacheTimestamp := 0; cachedToken := None |}.

(** *** Runs of the cache *)

(** The operations the module exports on its cache. *)
Inductive Op : Type :=
| CallGetRealtimeUsage (pollIntervalMinutes : option Q) (env : Env)
| CallGetUsageTrend
| CallClearUsageCache.

Definition step (op : Op) (st : Cache) : Cache :=
  match op with
  | CallGetRealtimeUsage p env => cacheAfter (getRealtimeUsage p env st)
  | CallGetUsageTrend => st
  | CallClearUsageCache => clearUsageCache st
  end.

Definition exec (ops : list Op) (st : Cache) : Cache :=
  fold_left (fun st op => step op st) ops st.

(** The snapshot a successful fetch of this operation delivered, if the
    operation made one. *)
Definition fetched (op : Op) (st : Cache) : option OAuthUsageResponse :=
  match op with
  | CallGetRealtimeUsage p env =>
      let '(usage, _, events) := getRealtimeUsage p env st in
      if existsb isFetch events then usage else None
  | _ => None
  end.

(** The snapshot that was current immediately before the latest successful
    fetch of a run, followed along the run as history.  With [sinceClear]
    the history starts afresh at every [clearUsageCache]. *)
Fixpoint currentBeforeLatestFetch (sinceClear : bool) (ops : list Op) (st : Cache)
    (sofar : option OAuthUsageResponse) : option OAuthUsageResponse :=
  match ops with
  | [] => sofar
  | op :: rest =>
      let sofar' :=
        match fetched op st, op with
        | Some _, _ => cachedUsage st
        | None, CallClearUsageCache => if sinceClear then None else sofar
        | None, _ => sofar
        end in
      currentBeforeLatestFetch sinceClear rest (step op st) sofar'
  end.

(** A sequence of [getRealtimeUsage] calls with one poll interval: the values
    returned and the cache at the end. *)
Fixpoint poll (pollIntervalMinutes : option Q) (envs : list Env) (st : Cache)
  : list (option OAuthUsageResponse) * Cache :=
  match envs with
  | [] => ([], st)
  | env :: rest =>
      let '(usage, st', _) := getRealtimeUsage pollIntervalMinutes env st in
      let '(usages, st'') := poll pollIntervalMinutes rest st' in
      (usage :: usages, st'')
  end.


End OAuth.

(** ** Sample surroundings for the examples *)

Module Sample.
Import JS OAuth.

Definition token : string := "sk-ant-oat01-sample"%string.

(** 2025-01-15T00:00:00Z *)
Definition t0 : Z := 1736899200000.

Definition minute : Z := 60 * 1000.

Definition parse (s : string) : Date :=
  if String.eqb s "2025-01-20T00:00:00Z"%string then ValidDate 1737331200000
  else InvalidDate.

(** A body with a short window without reset time, a weekly window, a null
    and a missing per-model window. *)
Definition body (shortPercent : Q) : ApiResponse :=
  {| five_hour := value {| resets_at := undefined; utilization := value shortPercent |};
     seven_day :=
       value {| resets_at := value "2025-01-20T00:00:00Z"%string; utilization := value (151 # 5) |};
     seven_day_opus := null;
     seven_day_sonnet := undefined |}.

(** The endpoint answers 200 with [body shortPercent]. *)
Definition online (now : Z) (shortPercent : Q) : Env :=
  {| Date_now := now;
     Date_parse := parse;
     clock := fun _ => now;
     getOAuthToken := Some token;
     http := fun _ => Response true (Some (body shortPercent)) |}.

(** The endpoint answers 401. *)
Definition unauthorized (now : Z) : Env :=
  {| Date_now := now;
     Date_parse := parse;
     clock := fun _ => now;
     getOAuthToken := Some token;
     http := fun _ => Response false None |}.

(** The snapshot that [online now shortPercent] delivers. *)
Definition snapshot (now : Z) (shortPercent : Q) : OAuthUsageResponse :=
  {| fiveHour :=
       Some {| resetAt := ValidDate now; percentUsed := shortPercent;
               isOverLimit := geb shortPercent 100 |};
     sevenDay :=
       Some {| resetAt := ValidDate 1737331200000; percentUsed := 151 # 5;
               isOverLimit := false |};
     sevenDayOpus := None;
     sevenDaySonnet := None;
     raw := body shortPercent |}.

End Sample.

(** ** The history file (src/utils/history.ts) *)

Module HistoryStore.
Import JS History.

Record UsageSample : Type := {
  timestamp : Z;                 (* Unix ms *)
  blockPercent : option Q;
  weeklyPercent : option Q
}.

Record HistoryData : Type := {
  samples : list UsageSample
}.

Definition MAX_HISTORY_AGE_MS : Z := 24 * 60 * 60 * 1000.

(** What is at the history path: nothing; something that [readFileSync] or
    [JSON.parse] rejects; the JSON of a [HistoryData]; or other valid JSON,
    which has no [samples] array. *)
Inductive HistoryFile : Type :=
| NoFile : HistoryFile
| Unreadable : HistoryFile
| Stored (data : HistoryData) : HistoryFile
| OtherJson : HistoryFile.

(** The part of the disk the module touches. *)
Record Disk : Type := {
  dirExists : bool;              (* the directory of the history path *)
  file : HistoryFile
}.

(** What [loadHistory] returns: [JSON.parse(content) as HistoryData] is not
    validated, so the [samples] property may be missing. *)
Inductive Loaded : Type :=
| WithSamples (samples : list UsageSample) : Loaded
| WithoutSamples : Loaded.

Definition loadHistory (d : Disk) : Loaded :=
  match file d with
  | NoFile => WithSamples []
  | Unreadable => WithSamples []
  | Stored data => WithSamples (samples data)
  | OtherJson => WithoutSamples
  end.

(** What a call of [writeFileSync] comes to.  The file is opened with flag
    ['w'], which creates or truncates it, and is then written: a failure of
    the open leaves what was there, a failure after it leaves a file that is
    empty or holds a strict prefix of the text, which [JSON.parse]
    rejects. *)
Inductive WriteOutcome : Type :=
| WriteSucceeds : WriteOutcome
| WriteFailsAtOpen : WriteOutcome
| WriteFailsAfterOpen : WriteOutcome.

(** [saveHistory]: [mkdirOk] says whether [mkdirSync] succeeds and [write]
    what [writeFileSync] comes to, if they are called; a failure is caught
    and logged. *)
Definition saveHistory (mkdirOk : bool) (write : WriteOutcome) (data : HistoryData)
    (d : Disk) : Disk :=
  if negb (dirExists d) && negb mkdirOk then d
  else
    match write with
    | WriteSucceeds => {| dirExists := true; file := Stored data |}
    | WriteFailsAtOpen => {| dirExists := true; file := file d |}
    | WriteFailsAfterOpen => {| dirExists := true; file := Unreadable |}
    end.

(** [pruneOldSamples], with the reading of [Date.now()]. *)
Definition pruneOldSamples (now : Z) (data : HistoryData) : HistoryData :=
  let cutoff := now - MAX_HISTORY_AGE_MS in
  {| samples := filter (fun s => timestamp s >? cutoff) (samples data) |}.

(** A call either returns or throws the [TypeError] of a property access on
    [undefined]. *)
Inductive Completion (A : Type) : Type :=
| Returns (a : A) : Completion A
| ThrowsTypeError : Completion A.

Arguments Returns {A} _.
Arguments ThrowsTypeError {A}.

(** [addSample]: [now] is the reading of [Date.now()] for the new sample,
    [pruneNow] the later reading inside [pruneOldSamples]. *)
Definition addSample (now pruneNow : Z) (mkdirOk : bool) (write : WriteOutcome)
    (blockPercent weeklyPercent : option Q) (d : Disk) : Completion Disk :=
  match loadHistory d with
  | WithoutSamples => ThrowsTypeError
  | WithSamples samples =>
      let history :=
        {| samples :=
             samples ++ [{| timestamp := now;
                            blockPercent := blockPercent;
                            weeklyPercent := weeklyPercent |}] |} in
      let pruned := pruneOldSamples pruneNow history in
      Returns (saveHistory mkdirOk write pruned d)
  end.

(** The sample that [addSample] pushes. *)
Definition newSample (now : Z) (b w : option Q) : UsageSample :=
  {| timestamp := now; blockPercent := b; weeklyPercent := w |}.

Definition getBlockSparkline (width : Z) (d : Disk) : Completion jsstring :=
  match loadHistory d with
  | WithoutSamples => ThrowsTypeError
  | WithSamples samples => Returns (getSparkline (map blockPercent samples) width)
  end.

Definition getWeeklySparkline (width : Z) (d : Disk) : Completion jsstring :=
  match loadHistory d with
  | WithoutSamples => ThrowsTypeError
  | WithSamples samples => Returns (getSparkline (map weeklyPercent samples) width)
  end.

End HistoryStore.

(** ** Credential resolution (src/utils/oauth.ts) *)

Module Resolver.
Import JS.
Local Open Scope string_scope.

Local Unset Elimination Schemes.

(** A parsed JSON value. *)
Inductive Json : Type :=
| JNull : Json
| JBool (b : bool) : Json
| JNumber (q : Q) : Json
| JString (s : string) : Json
| JArray (items : list Json) : Json
| JObject (props : list (string * Json)) : Json.

Local Set Elimination Schemes.

Fixpoint ownProperty (key : string) (props : list (string * Json)) : option Json :=
  match props with
  | [] => None
  | (k, v) :: rest => if String.eqb k key then Some v else ownProperty key rest
  end.

(** What reading a property comes to. *)
Inductive Access : Type :=
| AccessThrows : Access                  (* TypeError: the value is [null] *)
| AccessUndefined : Access
| AccessValue (v : Json) : Access.

(** [v.key] / [v[key]] for the keys the resolver reads ([claudeAiOauth],
    [accessToken], [oauth_token], [token]), none of which is an inherited
    property or an index: only objects can have them. *)
Definition getProperty (v : Json) (key : string) : Access :=
  match v with
  | JNull => AccessThrows
  | JObject props =>
      match ownProperty key props with
      | Some x => AccessValue x
      | None => AccessUndefined
      end
  | _ => AccessUndefined
  end.

Definition TOKEN_PREFIX : string := "sk-ant-oat".

(** [s.startsWith(prefix)] *)
Definition startsWith (s prefix : string) : bool := String.prefix prefix s.

(** [token && typeof token === "string" && token.startsWith("sk-ant-oat")],
    giving the token when the test passes. *)
Definition acceptToken (a : Access) : option string :=
  match a with
  | AccessValue (JString token) =>
      if startsWith token TOKEN_PREFIX then Some token else None
  | _ => None
  end.

(** The check for the [claudeAiOauth.accessToken] structure; [None] in the
    first component means that the property access threw. *)
Definition nestedAccessToken (config : Json) : option (option string) :=
  match getProperty config "claudeAiOauth" with
  | AccessThrows => None
  | AccessValue (JObject props) =>
      Some (acceptToken (getProperty (JObject props) "accessToken"))
  | AccessValue (JArray items) =>
      Some (acceptToken (getProperty (JArray items) "accessToken"))
  | _ => Some None
  end.

(** [for (const key of [...])]: the first of the keys that holds a token;
    [None] in the first component means that the property access threw. *)
Fixpoint directToken (keys : list string) (config : Json) : option (option string) :=
  match keys with
  | [] => Some None
  | key :: rest =>
      match getProperty config key with
      | AccessThrows => None
      | a =>
          match acceptToken a with
          | Some token => Some (Some token)
          | None => directToken rest config
          end
      end
  end.

Definition DIRECT_KEYS : list string := ["oauth_token"; "token"; "accessToken"].

(** The commands the resolver runs. *)
Inductive Command : Type :=
| GetStoredCredential : Command                       (* PowerShell, Windows *)
| CmdkeyList : Command                                (* PowerShell, Windows *)
| DumpKeychainLongestService : Command                (* security dump-keychain | ... *)
| FindGenericPassword (service : string) : Command    (* security find-generic-password *)
| SecretToolLookup : Command.                         (* secret-tool lookup *)

(** The credential files the resolver looks at. *)
Inductive ConfigPath : Type :=
| HomeClaudeDotCredentials : ConfigPath     (* ~/.claude/.credentials.json *)
| HomeClaudeCredentials : ConfigPath        (* ~/.claude/credentials.json *)
| HomeConfigClaudeCode : ConfigPath         (* ~/.config/claude-code/credentials.json *)
| AppDataClaudeCode : ConfigPath            (* %APPDATA%/Claude Code/credentials.json *)
| LocalAppDataClaudeCode : ConfigPath.      (* %LOCALAPPDATA%/Claude Code/credentials.json *)

(** The machine the resolver runs on. *)
Record Host : Type := {
  platform : string;                          (* [process.platform] *)
  execAsync : Command -> option string;       (* stdout; [None]: the promise rejects *)
  trim : string -> string;                    (* [String.prototype.trim] *)
  existsSync : ConfigPath -> bool;
  readFileSync : ConfigPath -> option string; (* [None]: throws *)
  JSON_parse : string -> option Json          (* [None]: throws *)
}.

(** [stdout.trim()] followed by the test
    [token && token.startsWith("sk-ant-oat")]. *)
Definition tokenFromStdout (h : Host) (stdout : string) : option string :=
  let token := trim h stdout in
  if negb (String.eqb token "") && startsWith token TOKEN_PREFIX then Some token else None.

(** One [try] block over a credential file with only the nested check. *)
Definition nestedInFile (h : Host) (path : ConfigPath) : option string :=
  if existsSync h path then
    match readFileSync h path with
    | None => None
    | Some content =>
        match JSON_parse h content with
        | None => None
        | Some config =>
            match nestedAccessToken config with
            | Some (Some token) => Some token
            | _ => None
            end
        end
    end
  else None.

(** One [try] block over a credential file with only the direct keys. *)
Definition directInFile (h : Host) (path : ConfigPath) : option string :=
  if existsSync h path then
    match readFileSync h path with
    | None => None
    | Some content =>
        match JSON_parse h content with
        | None => None
        | Some config =>
            match directToken DIRECT_KEYS config with
            | Some (Some token) => Some token
            | _ => None
            end
        end
    end
  else None.

(** One [try] block over a credential file with the nested check and then
    the direct keys. *)
Definition nestedOrDirectInFile (h : Host) (path : ConfigPath) : option string :=
  if existsSync h path then
    match readFileSync h path with
    | None => None
    | Some content =>
        match JSON_parse h content with
        | None => None
        | Some config =>
            match nestedAccessToken config with
            | None => None
            | Some (Some token) => Some token
            | Some None =>
                match directToken DIRECT_KEYS config with
                | Some (Some token) => Some token
                | _ => None
                end
            end
        end
    end
  else None.

(** [for (const configPath of paths) { try { ... } catch { } }] *)
Fixpoint firstInFiles (look : ConfigPath -> option string) (paths : list ConfigPath)
  : option string :=
  match paths with
  | [] => None
  | path :: rest =>
      match look path with
      | Some token => Some token
      | None => firstInFiles look rest
      end
  end.

(** The second command of the Windows resolver, [CmdkeyList], only has its
    output logged and does not bear on the result. *)
Definition getOAuthTokenWindows (h : Host) : option string :=
  match
    match execAsync h GetStoredCredential with
    | Some stdout => tokenFromStdout h stdout
    | None => None
    end
  with
  | Some token => Some token
  | None =>
      match nestedInFile h HomeClaudeDotCredentials with
      | Some token => Some token
      | None =>
          firstInFiles (directInFile h)
            [HomeClaudeCredentials; HomeConfigClaudeCode;
             AppDataClaudeCode; LocalAppDataClaudeCode]
      end
  end.

Definition LEGACY_SERVICE : string := "Claude Code-credentials".

Definition doubleQuote : string := String (Ascii.ascii_of_nat 34) EmptyString.

Fixpoint dropLastQuote (s : string) : string :=
  match s with
  | EmptyString => EmptyString
  | String c rest =>
      if String.eqb s doubleQuote then EmptyString else String c (dropLastQuote rest)
  end.

(** [s.replace(/^"|"$/g, "")]: a double quote at the start and one at the end
    are removed. *)
Definition stripQuotes (s : string) : string :=
  match s with
  | EmptyString => EmptyString
  | String c rest =>
      if Ascii.eqb c (Ascii.ascii_of_nat 34) then dropLastQuote rest else dropLastQuote s
  end.

Definition findKeychainServiceName (h : Host) : string :=
  match execAsync h DumpKeychainLongestService with
  | Some stdout =>
      let svcName := stripQuotes (trim h stdout) in
      if negb (String.eqb svcName "") then svcName else LEGACY_SERVICE
  | None => LEGACY_SERVICE
  end.

(** [stdout.trim() || null] *)
Definition readKeychainContent (h : Host) (serviceName : string) : option string :=
  match execAsync h (FindGenericPassword serviceName) with
  | Some stdout =>
      let content := trim h stdout in
      if String.eqb content "" then None else Some content
  | None => None
  end.

Definition extractTokenFromKeychainContent (h : Host) (content : string) : option string :=
  match
    if startsWith content "{" then
      match JSON_parse h content with
      | Some parsed =>
          match nestedAccessToken parsed with
          | Some (Some token) => Some token
          | _ => None
          end
      | None => None
      end
    else None
  with
  | Some token => Some token
  | None => if startsWith content TOKEN_PREFIX then Some content else None
  end.

Definition getOAuthTokenMacOS (h : Host) : option string :=
  let serviceName := findKeychainServiceName h in
  let content := readKeychainContent h serviceName in
  match
    match content with
    | Some content => extractTokenFromKeychainContent h content
    | None => None
    end
  with
  | Some token => Some token
  | None =>
      let files :=
        firstInFiles (nestedOrDirectInFile h)
          [HomeClaudeDotCredentials; HomeClaudeCredentials; HomeConfigClaudeCode] in
      if negb (String.eqb serviceName LEGACY_SERVICE) then
        match readKeychainContent h LEGACY_SERVICE with
        | Some legacyContent => extractTokenFromKeychainContent h legacyContent
        | None => files
        end
      else files
  end.

Definition getOAuthTokenLinux (h : Host) : option string :=
  match
    match execAsync h SecretToolLookup with
    | Some stdout => tokenFromStdout h stdout
    | None => None
    end
  with
  | Some token => Some token
  | None =>
      firstInFiles (nestedOrDirectInFile h)
        [HomeClaudeDotCredentials; HomeClaudeCredentials; HomeConfigClaudeCode]
  end.

Definition getOAuthToken (h : Host) : option string :=
  if String.eqb (platform h) "win32" then getOAuthTokenWindows h
  else if String.eqb (platform h) "darwin" then getOAuthTokenMacOS h
  else if String.eqb (platform h) "linux" then getOAuthTokenLinux h
  else None.

(** A string the resolver accepts as a token. *)
Definition hasTokenPrefix (token : string) : Prop :=
  startsWith token TOKEN_PREFIX = true.

End Resolver.

(** ** Invariants of the usage cache *)

Module CacheSpec.
Import JS OAuth.

(** [isOverLimit] is derived from [percentUsed] in every window. *)
Definition derivedOverLimit (u : OAuthUsageResponse) : Prop :=
  forall (w : Window) (d : UsageData),
    usageWindow w u = Some d -> (isOverLimit d = true <-> (100 <= percentUsed d)%Q).

Definition cacheInvariant (st : Cache) : Prop :=
  (cachedUsage st = None -> previousUsage st = None /\ cacheTimestamp st = 0)
  /\ (forall u, cachedUsage st = Some u -> derivedOverLimit u)
  /\ (forall u, previousUsage st = Some u -> derivedOverLimit u).

(** The external work of a run, in order. *)
Fixpoint trace (ops : list Op) (st : Cache) : list Event :=
  match ops with
  | [] => []
  | op :: rest =>
      match op with
      | CallGetRealtimeUsage p env => work (getRealtimeUsage p env st)
      | _ => []
      end ++ trace rest (step op st)
  end.

(** The credential resolution of a call is that of [Resolver.getOAuthToken]
    on some host. *)
Definition resolvedBy (op : Op) : Prop :=
  match op with
  | CallGetRealtimeUsage _ env => exists h, getOAuthToken env = Resolver.getOAuthToken h
  | _ => True
  end.

(** The cached token, if any, is one the resolver accepts. *)
Definition tokenAccepted (st : Cache) : Prop :=
  forall token, cachedToken st = Some token -> Resolver.hasTokenPrefix token.

End CacheSpec.

(** ** Sample hosts for the examples *)

Module SampleHost.
Import Resolver.
Local Open Scope string_scope.

(** A credential file with the token under a direct key. *)
Definition directConfig : Json := JObject [("accessToken", JString Sample.token)].

(** A host without a usable secret store, whose only credential file is
    ~/.claude/.credentials.json, holding [directConfig]. *)
Definition fileOnly (platform : string) : Host :=
  {| platform := platform;
     execAsync := fun _ => None;
     trim := fun s => s;
     existsSync :=
       fun path => match path with HomeClaudeDotCredentials => true | _ => false end;
     readFileSync := fun _ => Some "direct";
     JSON_parse := fun s => if String.eqb s "direct" then Some directConfig else None |}.

Definition suffixedService : string := "Claude Code-credentials-697375ae".

(** A macOS host whose keychain lists a suffixed entry that cannot be read
    and a legacy entry that holds no token, and whose credential file holds
    [directConfig]. *)
Definition staleKeychain : Host :=
  {| platform := "darwin";
     execAsync :=
       fun c =>
         match c with
         | DumpKeychainLongestService => Some (doubleQuote ++ suffixedService ++ doubleQuote)
         | FindGenericPassword service =>
             if String.eqb service LEGACY_SERVICE then Some "expired" else None
         | _ => None
         end;
     trim := fun s => s;
     existsSync :=
       fun path => match path with HomeClaudeDotCredentials => true | _ => false end;
     readFileSync := fun _ => Some "direct";
     JSON_parse := fun s => if String.eqb s "direct" then Some directConfig else None |}.

End SampleHost.

(** ** The weekly segment (src/segments/weekly.ts) *)

Module WeeklySegment.
Import JS Weekly.

Record WeeklyInfo : Type := {
  percentUsed : option Q;
  resetAt : option Date;
  isRealtime : bool;
  weekProgressPercent : Z;
  opusPercentUsed : option Q;
  sonnetPercentUsed : option Q;
  opusResetAt : option Date;
  sonnetResetAt : option Date
}.

(** The readings of [new Date()] a call may take: the time value read in
    [calculateWeekProgressFromResetTime] and the local reading in
    [calculateWeekProgress]. *)
Record Clock : Type := {
  timeValue : Z;
  wallClock : WallClock;
  setDate : Calendar
}.

(** [getRealtimeWeeklyInfo]: the info, if any, with the cache afterwards and
    the external work of [getRealtimeUsage].  The body runs inside [try]:
    when the reset date of the weekly window is Invalid Date the progress is
    NaN and [sevenDay.resetAt.toISOString()], evaluated for the debug
    message, throws a [RangeError]; the [catch] block returns [null]. *)
Definition getRealtimeWeeklyInfo (clk : Clock) (pollInterval : option Q)
    (env : OAuth.Env) (st : OAuth.Cache)
  : option WeeklyInfo * OAuth.Cache * list OAuth.Event :=
  let '(usage, st', events) :=
    OAuth.getRealtimeUsage
      (Some (match pollInterval with Some p => p | None => 15%Q end)) env st in
  match usage with
  | None => (None, st', events)
  | Some usage =>
      match OAuth.sevenDay usage with
      | None => (None, st', events)
      | Some sevenDay =>
          let sevenDayOpus := OAuth.sevenDayOpus usage in
          let sevenDaySonnet := OAuth.sevenDaySonnet usage in
          match OAuth.resetAt sevenDay with
          | InvalidDate => (None, st', events)
          | ValidDate resetTime =>
              let weekProgressPercent :=
                calculateWeekProgressFromResetTime (setDate clk) (timeValue clk) resetTime in
              (Some {| percentUsed := Some (OAuth.percentUsed sevenDay);
                       resetAt := Some (OAuth.resetAt sevenDay);
                       isRealtime := true;
                       weekProgressPercent := weekProgressPercent;
                       opusPercentUsed := option_map OAuth.percentUsed sevenDayOpus;
                       sonnetPercentUsed := option_map OAuth.percentUsed sevenDaySonnet;
                       opusResetAt := option_map OAuth.resetAt sevenDayOpus;
                       sonnetResetAt := option_map OAuth.resetAt sevenDaySonnet |},
               st', events)
          end
      end
  end.

Definition getWeeklyInfo (clk : Clock) (resetDay resetHour resetMinute : option Z)
    (pollInterval : option Q) (env : OAuth.Env) (st : OAuth.Cache)
  : WeeklyInfo * OAuth.Cache * list OAuth.Event :=
  let '(realtimeInfo, st', events) := getRealtimeWeeklyInfo clk pollInterval env st in
  match realtimeInfo with
  | Some realtimeInfo => (realtimeInfo, st', events)
  | None =>
      let weekProgressPercent :=
        calculateWeekProgress (wallClock clk) resetDay resetHour resetMinute in
      ({| percentUsed := None;
          resetAt := None;
          isRealtime := false;
          weekProgressPercent := weekProgressPercent;
          opusPercentUsed := None;
          sonnetPercentUsed := None;
          opusResetAt := None;
          sonnetResetAt := None |},
       st', events)
  end.

End WeeklySegment.

(** ** Colour codes (src/themes/index.ts) *)

Module Themes.
Import JS.

(** The three channels of a [#rrggbb] colour, as
    [parseInt(hex.slice(1, 3), 16)], [parseInt(hex.slice(3, 5), 16)] and
    [parseInt(hex.slice(5, 7), 16)] give them. *)
Record Channels : Type := { red : Z; green : Z; blue : Z }.

(** [hexToAnsi256], from the parsed channels on. *)
Definition hexToAnsi256 (hex : Channels) : Z :=
  let r := red hex in
  let g := green hex in
  let b := blue hex in
  if (r =? g) && (g =? b) then
    if r <? 8 then 16
    else if r >? 248 then 231
    else Math_round (Double.mul (Double.div (inject_Z (r - 8)) 247) 24) + 232
  else
    let ri := Math_round (Double.mul (Double.div (inject_Z r) 255) 5) in
    let gi := Math_round (Double.mul (Double.div (inject_Z g) 255) 5) in
    let bi := Math_round (Double.mul (Double.div (inject_Z b) 255) 5) in
    16 + 36 * ri + 6 * gi + bi.

End Themes.

(** ** Rendering (src/renderer.ts) *)

Module Renderer.
Import JS History.

(** A string, or the [RangeError] of [String.prototype.repeat] for a negative
    count. *)
Inductive Rendered : Type :=
| Text (s : jsstring) : Rendered
| ThrowsRangeError : Rendered.

(** [s.repeat(count)] for an integer count that is not negative. *)
Definition repeatString (s : jsstring) (count : Z) : jsstring :=
  List.concat (List.repeat s (Z.to_nat count)).

(** [formatProgressBar]: [progressFull] and [progressEmpty] are the symbols
    of the renderer, [width] is an integer. *)
Definition formatProgressBar (progressFull progressEmpty : jsstring)
    (percent : Q) (width : Z) : Rendered :=
  let filled := Math_round (Double.mul (Double.div percent 100) (inject_Z width)) in
  let empty := width - filled in
  if filled <? 0 then ThrowsRangeError
  else if empty <? 0 then ThrowsRangeError
  else Text (repeatString progressFull filled ++ repeatString progressEmpty empty).

(** One entry of the [limits] array of [renderWeeklySmart]; [Icon] and
    [Colors] are the types of the icons and of the theme's colours. *)
Record LimitInfo (Icon Colors : Type) : Type := {
  name : string;
  icon : Icon;
  percent : Q;
  trend : OAuth.TrendDirection;
  colors : Colors
}.

Arguments name {Icon Colors} _.
Arguments icon {Icon Colors} _.
Arguments percent {Icon Colors} _.
Arguments trend {Icon Colors} _.
Arguments colors {Icon Colors} _.

(** The [limits] array that [renderWeeklySmart] builds: the overall, Opus
    and Sonnet limits that are reported, in this order. *)
Definition smartLimits {Icon Colors : Type}
    (overallIcon opusIcon sonnetIcon : Icon) (weekly opus sonnet : Colors)
    (info : WeeklySegment.WeeklyInfo) (trendInfo : option OAuth.TrendInfo)
  : list (LimitInfo Icon Colors) :=
  let trendOf (w : OAuth.Window) : OAuth.TrendDirection :=
    match trendInfo with
    | Some t => OAuth.trendOf w t
    | None => None
    end in
  match WeeklySegment.percentUsed info with
  | Some p =>
      [{| name := "all"; icon := overallIcon; percent := p;
          trend := trendOf OAuth.SevenDay; colors := weekly |}]
  | None => []
  end
  ++ match WeeklySegment.opusPercentUsed info with
     | Some p =>
         [{| name := "opus"; icon := opusIcon; percent := p;
             trend := trendOf OAuth.SevenDayOpus; colors := opus |}]
     | None => []
     end
  ++ match WeeklySegment.sonnetPercentUsed info with
     | Some p =>
         [{| name := "sonnet"; icon := sonnetIcon; percent := p;
             trend := trendOf OAuth.SevenDaySonnet; colors := sonnet |}]
     | None => []
     end.

(** [limits.reduce((a, b) => (a.percent >= b.percent ? a : b))], which
    [renderWeeklySmart] evaluates only when [limits] is not empty. *)
Definition bottleneck {Icon Colors : Type} (limits : list (LimitInfo Icon Colors))
  : option (LimitInfo Icon Colors) :=
  match limits with
  | [] => None
  | first :: rest =>
      Some (fold_left (fun a b => if geb (percent a) (percent b) then a else b) rest first)
  end.

End Renderer.

(** * Properties *)

Section JSFacts.
Import JS.

Lemma ltb_lt (x y : Q) : ltb x y = true <-> (x < y)%Q.
Proof.
  unfold ltb. rewrite negb_true_iff.
  split.
  - intros H. apply Qnot_le_lt. intros Hle.
    apply Qle_bool_iff in Hle. congruence.
  - intros H. destruct (Qle_bool y x) eqn:E; [|reflexivity].
    apply Qle_bool_iff in E. exfalso. exact (Qlt_not_le _ _ H E).
Qed.

Lemma ltb_ge (x y : Q) : ltb x y = false <-> (y <= x)%Q.
Proof.
  unfold ltb. rewrite negb_false_iff. apply Qle_bool_iff.
Qed.

Lemma Math_round_mono (x y : Q) :
  (x <= y)%Q -> Math_round x <= Math_round y.
Proof.
  intros H. unfold Math_round. apply Qfloor_resp_le.
  apply Qplus_le_l. exact H.
Qed.

Lemma Math_round_Z (z : Z) : Math_round (inject_Z z) = z.
Proof.
  unfold Math_round, Qfloor, inject_Z, Qplus. cbn.
  replace (z * 2 + 1) with (1 + z * 2) by ring.
  rewrite Z.div_add by discriminate. reflexivity.
Qed.

Lemma Math_round_range (lo hi : Z) (x : Q) :
  (inject_Z lo <= x)%Q -> (x <= inject_Z hi)%Q ->
  lo <= Math_round x <= hi.
Proof.
  intros Hlo Hhi. split.
  - rewrite <- (Math_round_Z lo). now apply Math_round_mono.
  - rewrite <- (Math_round_Z hi). now apply Math_round_mono.
Qed.

(** [Math.max(lo, Math.min(hi, x))] lies between [lo] and [hi]. *)
Lemma clamp_range (lo hi x : Q) :
  (lo <= hi)%Q ->
  (lo <= Math_max lo (Math_min hi x))%Q /\ (Math_max lo (Math_min hi x) <= hi)%Q.
Proof.
  intros H. unfold Math_max, Math_min. split.
  - apply Q.le_max_l.
  - apply Q.max_lub; [exact H | apply Q.le_min_l].
Qed.

Lemma clamp_id (lo hi x : Q) :
  (lo <= x)%Q -> (x <= hi)%Q ->
  (Math_max lo (Math_min hi x) == x)%Q.
Proof.
  intros Hlo Hhi. unfold Math_max, Math_min.
  rewrite (Q.min_r hi x) by exact Hhi.
  apply Q.max_r. exact Hlo.
Qed.

End JSFacts.

(** ** Rounding to the nearest double *)

Section DoubleFacts.
Import Double.

Lemma pow2_pos (k : Z) : (0 < pow2 k)%Q.
Proof. unfold pow2. apply Qpower_0_lt. reflexivity. Qed.

Lemma pow2_plus (a b : Z) : (pow2 (a + b) == pow2 a * pow2 b)%Q.
Proof. unfold pow2. apply Qpower_plus. discriminate. Qed.

Lemma pow2_Z (k : Z) : 0 <= k -> (pow2 k == inject_Z (2 ^ k))%Q.
Proof. intros H. unfold pow2. rewrite Zpower_Qpower by exact H. reflexivity. Qed.

Lemma pow2_le (a b : Z) : a <= b -> (pow2 a <= pow2 b)%Q.
Proof.
  intros H. unfold pow2. apply Qpower_le_compat_l; [exact H|].
  unfold Qle; cbn; lia.
Qed.

Lemma pow2_lt (a b : Z) : a < b -> (pow2 a < pow2 b)%Q.
Proof.
  intros H. unfold pow2. apply Qpower_lt_compat_l; [exact H|].
  reflexivity.
Qed.

Lemma pow2_lt_inv (a b : Z) : (pow2 a < pow2 b)%Q -> a < b.
Proof.
  intros H. destruct (Z.lt_ge_cases a b) as [Hlt|Hge]; [exact Hlt|].
  exfalso. apply (Qlt_not_le _ _ H). apply pow2_le. exact Hge.
Qed.

Lemma rne_comp (s t : Q) : (s == t)%Q -> rne s = rne t.
Proof.
  intros H. unfold rne.
  rewrite (Qfloor_comp _ _ H).
  assert (E : ((s - inject_Z (Qfloor t)) ?= (1 # 2))%Q = ((t - inject_Z (Qfloor t)) ?= (1 # 2))%Q).
  { apply Qcompare_comp; [rewrite H; reflexivity | reflexivity]. }
  rewrite E. reflexivity.
Qed.

Lemma rne_Z (n : Z) : rne (inject_Z n) = n.
Proof.
  unfold rne. rewrite Qfloor_Z.
  assert (E : ((inject_Z n - inject_Z n) ?= (1 # 2))%Q = Lt).
  { rewrite <- Qlt_alt. lra. }
  rewrite E. reflexivity.
Qed.

Lemma rne_mono (s t : Q) : (s <= t)%Q -> rne s <= rne t.
Proof.
  intros H. unfold rne.
  pose proof (Qfloor_resp_le _ _ H) as Hf.
  pose proof (Qfloor_le s) as Hs1. pose proof (Qlt_floor s) as Hs2.
  pose proof (Qfloor_le t) as Ht1. pose proof (Qlt_floor t) as Ht2.
  set (fs := Qfloor s) in *. set (ft := Qfloor t) in *.
  assert (C : fs < ft \/ fs = ft) by lia.
  destruct C as [C|C].
  - destruct (Qcompare_spec (s - inject_Z fs) (1 # 2));
    destruct (Qcompare_spec (t - inject_Z ft) (1 # 2));
    destruct (Z.even fs); destruct (Z.even ft); lia.
  - rewrite C in *. clear C Hf.
    destruct (Qcompare_spec (s - inject_Z ft) (1 # 2)) as [E1|E1|E1];
    destruct (Qcompare_spec (t - inject_Z ft) (1 # 2)) as [E2|E2|E2];
    destruct (Z.even ft); try lia; exfalso; lra.
Qed.

Lemma rne_nonneg (s : Q) : (0 <= s)%Q -> 0 <= rne s.
Proof.
  intros H. rewrite <- (rne_Z 0). apply rne_mono. exact H.
Qed.

Lemma ilog2_spec (x : Q) :
  (0 < x)%Q -> (pow2 (ilog2 x) <= x)%Q /\ (x < pow2 (ilog2 x + 1))%Q.
Proof.
  intros Hx. unfold ilog2.
  destruct x as [n d]. cbn [Qnum Qden].
  assert (Hn : 0 < n) by (unfold Qlt in Hx; cbn in Hx; lia).
  set (a := Z.log2 n). set (b := Z.log2 (Z.pos d)).
  assert (Ha0 : 0 <= a) by apply Z.log2_nonneg.
  assert (Hb0 : 0 <= b) by apply Z.log2_nonneg.
  destruct (Z.log2_spec n Hn) as [Ha1 Ha2]. fold a in Ha1, Ha2.
  destruct (Z.log2_spec (Z.pos d) eq_refl) as [Hb1 Hb2]. fold b in Hb1, Hb2.
  assert (Hxd : ((n # d) * inject_Z (Z.pos d) == inject_Z n)%Q).
  { unfold Qeq, Qmult, inject_Z. cbn [Qnum Qden]. rewrite Pos.mul_1_r. ring. }
  assert (Qa1 : (pow2 a <= inject_Z n)%Q).
  { rewrite pow2_Z by exact Ha0. rewrite <- Zle_Qle. exact Ha1. }
  assert (Qa2 : (inject_Z n < pow2 (a + 1))%Q).
  { rewrite pow2_Z by lia. rewrite <- Zlt_Qlt. exact Ha2. }
  assert (Qb1 : (pow2 b <= inject_Z (Z.pos d))%Q).
  { rewrite pow2_Z by exact Hb0. rewrite <- Zle_Qle. exact Hb1. }
  assert (Qb2 : (inject_Z (Z.pos d) < pow2 (b + 1))%Q).
  { rewrite pow2_Z by lia. rewrite <- Zlt_Qlt. exact Hb2. }
  pose proof (pow2_pos b) as Pb. pose proof (pow2_pos (b + 1)) as Pb1.
  set (x := (n # d)%Q) in *. set (D := inject_Z (Z.pos d)) in *.
  set (N := inject_Z n) in *.
  destruct (Qle_bool (pow2 (a - b)) x) eqn:E.
  - apply Qle_bool_iff in E. split; [exact E|].
    assert (P : (pow2 (a + 1) == pow2 (a - b + 1) * pow2 b)%Q).
    { rewrite <- pow2_plus. replace (a - b + 1 + b) with (a + 1) by ring. reflexivity. }
    pose proof (pow2_pos (a - b + 1)) as Pk.
    rewrite P in Qa2.
    set (U := pow2 (a - b + 1)) in *. set (V := pow2 b) in *.
    apply Qnot_le_lt. intros Hc.
    assert (H1 : (U * V <= x * D)%Q).
    { apply Qle_trans with (x * V)%Q.
      - apply Qmult_le_compat_r; [exact Hc | apply Qlt_le_weak; exact Pb].
      - apply Qmult_le_l; [exact Hx | exact Qb1]. }
    lra.
  - assert (E' : (x < pow2 (a - b))%Q).
    { apply Qnot_le_lt. intros Hc. apply Qle_bool_iff in Hc. congruence. }
    replace (a - b - 1 + 1) with (a - b) by ring. split; [|exact E'].
    assert (P : (pow2 a == pow2 (a - b - 1) * pow2 (b + 1))%Q).
    { rewrite <- pow2_plus. replace (a - b - 1 + (b + 1)) with a by ring. reflexivity. }
    pose proof (pow2_pos (a - b - 1)) as Pk.
    rewrite P in Qa1.
    set (U := pow2 (a - b - 1)) in *. set (V := pow2 (b + 1)) in *.
    apply Qnot_lt_le. intros Hc.
    assert (H1 : (x * D < U * V)%Q).
    { apply Qle_lt_trans with (x * V)%Q.
      - apply Qmult_le_l; [exact Hx | apply Qlt_le_weak; exact Qb2].
      - apply Qmult_lt_compat_r; [exact Pb1 | exact Hc]. }
    lra.
Qed.

Lemma ilog2_unique (x : Q) (k : Z) :
  (pow2 k <= x)%Q -> (x < pow2 (k + 1))%Q -> ilog2 x = k.
Proof.
  intros H1 H2.
  assert (Hx : (0 < x)%Q) by (apply Qlt_le_trans with (pow2 k); [apply pow2_pos | exact H1]).
  destruct (ilog2_spec x Hx) as [S1 S2].
  assert (A : ilog2 x < k + 1).
  { apply pow2_lt_inv. apply Qle_lt_trans with x; assumption. }
  assert (B : k < ilog2 x + 1).
  { apply pow2_lt_inv. apply Qle_lt_trans with x; assumption. }
  lia.
Qed.

Lemma ilog2_mono (x y : Q) : (0 < x)%Q -> (x <= y)%Q -> ilog2 x <= ilog2 y.
Proof.
  intros Hx Hxy.
  assert (Hy : (0 < y)%Q) by (apply Qlt_le_trans with x; assumption).
  destruct (ilog2_spec x Hx) as [X1 X2]. destruct (ilog2_spec y Hy) as [Y1 Y2].
  assert (A : ilog2 x < ilog2 y + 1).
  { apply pow2_lt_inv. apply Qle_lt_trans with x; [exact X1|].
    apply Qle_lt_trans with y; assumption. }
  lia.
Qed.

Lemma scaled_le (x : Q) (e k : Z) :
  e <= k -> (x <= pow2 k)%Q -> rne (x / pow2 e) <= 2 ^ (k - e).
Proof.
  intros He Hx. rewrite <- (rne_Z (2 ^ (k - e))). apply rne_mono.
  apply Qle_shift_div_r; [apply pow2_pos|].
  rewrite <- pow2_Z by lia. rewrite <- pow2_plus.
  replace (k - e + e) with k by ring. exact Hx.
Qed.

Lemma scaled_ge (x : Q) (e k : Z) :
  e <= k -> (pow2 k <= x)%Q -> 2 ^ (k - e) <= rne (x / pow2 e).
Proof.
  intros He Hx. rewrite <- (rne_Z (2 ^ (k - e))) at 1. apply rne_mono.
  apply Qle_shift_div_l; [apply pow2_pos|].
  rewrite <- pow2_Z by lia. rewrite <- pow2_plus.
  replace (k - e + e) with k by ring. exact Hx.
Qed.

Lemma pow2_split (k e : Z) : e <= k -> (inject_Z (2 ^ (k - e)) * pow2 e == pow2 k)%Q.
Proof.
  intros He. rewrite <- pow2_Z by lia. rewrite <- pow2_plus.
  replace (k - e + e) with k by ring. reflexivity.
Qed.

Lemma roundPos_le_pow2 (x : Q) (k : Z) :
  exponent x <= k -> (x <= pow2 k)%Q -> (roundPos x <= pow2 k)%Q.
Proof.
  intros He Hx. unfold roundPos. cbv zeta.
  rewrite <- (pow2_split k (exponent x) He).
  apply Qmult_le_compat_r; [|apply Qlt_le_weak, pow2_pos].
  rewrite <- Zle_Qle. apply scaled_le; assumption.
Qed.

Lemma roundPos_ge_pow2 (x : Q) (k : Z) :
  exponent x <= k -> (pow2 k <= x)%Q -> (pow2 k <= roundPos x)%Q.
Proof.
  intros He Hx. unfold roundPos. cbv zeta.
  rewrite <- (pow2_split k (exponent x) He).
  apply Qmult_le_compat_r; [|apply Qlt_le_weak, pow2_pos].
  rewrite <- Zle_Qle. apply scaled_ge; assumption.
Qed.

Lemma roundPos_nonneg (x : Q) : (0 <= x)%Q -> (0 <= roundPos x)%Q.
Proof.
  intros Hx. unfold roundPos. cbv zeta.
  apply Qmult_le_0_compat; [|apply Qlt_le_weak, pow2_pos].
  change 0%Q with (inject_Z 0). rewrite <- Zle_Qle.
  apply rne_nonneg. apply Qle_shift_div_l; [apply pow2_pos|].
  rewrite Qmult_0_l. exact Hx.
Qed.

Lemma roundPos_mono (x y : Q) :
  (0 < x)%Q -> (x <= y)%Q -> (roundPos x <= roundPos y)%Q.
Proof.
  intros Hx Hxy.
  assert (Hy : (0 < y)%Q) by (apply Qlt_le_trans with x; assumption).
  pose proof (ilog2_mono x y Hx Hxy) as Hk.
  destruct (ilog2_spec x Hx) as [X1 X2]. destruct (ilog2_spec y Hy) as [Y1 Y2].
  assert (C : exponent x = exponent y \/ exponent x < exponent y)
    by (unfold exponent; lia).
  destruct C as [C|C].
  - unfold roundPos. cbv zeta. rewrite C.
    apply Qmult_le_compat_r; [|apply Qlt_le_weak, pow2_pos].
    rewrite <- Zle_Qle. apply rne_mono.
    apply Qmult_le_compat_r; [exact Hxy|].
    apply Qlt_le_weak, Qinv_lt_0_compat, pow2_pos.
  - apply Qle_trans with (pow2 (ilog2 y)).
    + apply roundPos_le_pow2; [unfold exponent in *; lia|].
      apply Qle_trans with (pow2 (ilog2 x + 1)); [apply Qlt_le_weak; exact X2|].
      apply pow2_le. unfold exponent in C. lia.
    + apply roundPos_ge_pow2; [unfold exponent in *; lia | exact Y1].
Qed.

Lemma roundPos_comp (x y : Q) : (x == y)%Q -> (0 < x)%Q -> (roundPos x == roundPos y)%Q.
Proof.
  intros E Hx. apply Qle_antisym; apply roundPos_mono.
  - exact Hx.
  - rewrite E. apply Qle_refl.
  - rewrite <- E. exact Hx.
  - rewrite E. apply Qle_refl.
Qed.

Lemma roundPos_representable (x : Q) (m e : Z) :
  (x == inject_Z m * pow2 e)%Q -> 0 < m < 2 ^ 53 -> -1074 <= e ->
  (roundPos x == x)%Q.
Proof.
  intros E [Hm1 Hm2] He.
  pose proof (pow2_pos e) as Pe.
  assert (Hx : (0 < x)%Q).
  { rewrite E. apply Qmult_lt_0_compat; [|exact Pe].
    rewrite (Zlt_Qlt 0) in Hm1. exact Hm1. }
  destruct (ilog2_spec x Hx) as [X1 X2].
  assert (Hk : ilog2 x < 53 + e).
  { apply pow2_lt_inv. apply Qle_lt_trans with x; [exact X1|].
    rewrite E. rewrite pow2_plus. apply Qmult_lt_compat_r; [exact Pe|].
    rewrite pow2_Z by lia. rewrite <- Zlt_Qlt. exact Hm2. }
  assert (Hexp : exponent x <= e) by (unfold exponent; lia).
  unfold roundPos. cbv zeta. set (ex := exponent x) in *.
  assert (S : (x / pow2 ex == inject_Z (m * 2 ^ (e - ex)))%Q).
  { rewrite E. rewrite inject_Z_mult. rewrite <- (pow2_Z (e - ex)) by lia.
    replace e with (e - ex + ex) at 1 by ring. rewrite pow2_plus.
    field. apply Qnot_eq_sym, Qlt_not_eq, pow2_pos. }
  rewrite (rne_comp _ _ S). rewrite rne_Z.
  rewrite inject_Z_mult. rewrite <- Qmult_assoc. rewrite (pow2_split e ex Hexp).
  symmetry. exact E.
Qed.

Lemma Qred_sign_pos (x : Q) (p : positive) : Qnum (Qred x) = Z.pos p -> (0 < x)%Q.
Proof.
  intros H. rewrite <- (Qred_correct x). unfold Qlt. cbn. rewrite H. lia.
Qed.

Lemma Qred_sign_neg (x : Q) (p : positive) : Qnum (Qred x) = Z.neg p -> (x < 0)%Q.
Proof.
  intros H. rewrite <- (Qred_correct x). unfold Qlt. cbn. rewrite H. lia.
Qed.

Lemma Qred_sign_zero (x : Q) : Qnum (Qred x) = 0 -> (x == 0)%Q.
Proof.
  intros H. rewrite <- (Qred_correct x). unfold Qeq. cbn. rewrite H. lia.
Qed.

Lemma round_pos (x : Q) : (0 < x)%Q -> round x = roundPos (Qred x).
Proof.
  intros H. unfold round. cbv zeta. destruct (Qnum (Qred x)) eqn:E.
  - apply Qred_sign_zero in E. exfalso. lra.
  - reflexivity.
  - apply Qred_sign_neg in E. exfalso. lra.
Qed.

Lemma round_neg (x : Q) : (x < 0)%Q -> round x = (- roundPos (- Qred x))%Q.
Proof.
  intros H. unfold round. cbv zeta. destruct (Qnum (Qred x)) eqn:E.
  - apply Qred_sign_zero in E. exfalso. lra.
  - apply Qred_sign_pos in E. exfalso. lra.
  - reflexivity.
Qed.

Lemma round_zero (x : Q) : (x == 0)%Q -> round x = 0%Q.
Proof.
  intros H. unfold round. cbv zeta. destruct (Qnum (Qred x)) eqn:E.
  - reflexivity.
  - apply Qred_sign_pos in E. exfalso. lra.
  - apply Qred_sign_neg in E. exfalso. lra.
Qed.

Lemma round_comp (x y : Q) : (x == y)%Q -> round x = round y.
Proof.
  intros H. unfold round. rewrite (Qred_complete x y H). reflexivity.
Qed.

Lemma Qopp_opp_eq (q : Q) : (- - q)%Q = q.
Proof. destruct q as [n d]. unfold Qopp. cbn. rewrite Z.opp_involutive. reflexivity. Qed.

Lemma round_opp (x : Q) : round (- x) = (- round x)%Q.
Proof.
  unfold round. cbv zeta. rewrite Qred_opp.
  destruct (Qred x) as [n d]. cbn [Qnum Qopp].
  destruct n; cbn [Z.opp]; try reflexivity.
  symmetry. apply Qopp_opp_eq.
Qed.

Lemma round_mono (x y : Q) : (x <= y)%Q -> (round x <= round y)%Q.
Proof.
  intros H.
  pose proof (Qred_correct x) as Rx. pose proof (Qred_correct y) as Ry.
  destruct (Q_dec x 0) as [[Hx|Hx]|Hx]; destruct (Q_dec y 0) as [[Hy|Hy]|Hy].
  - rewrite (round_neg x Hx), (round_neg y Hy).
    apply Qopp_le_compat. apply roundPos_mono; lra.
  - rewrite (round_neg x Hx), (round_pos y Hy).
    pose proof (roundPos_nonneg (- Qred x)). pose proof (roundPos_nonneg (Qred y)). lra.
  - rewrite (round_neg x Hx), (round_zero y Hy).
    pose proof (roundPos_nonneg (- Qred x)). lra.
  - exfalso. lra.
  - rewrite (round_pos x Hx), (round_pos y Hy). apply roundPos_mono; lra.
  - exfalso. lra.
  - exfalso. lra.
  - rewrite (round_zero x Hx), (round_pos y Hy). apply roundPos_nonneg. lra.
  - rewrite (round_zero x Hx), (round_zero y Hy). apply Qle_refl.
Qed.

Lemma round_representable (x : Q) (m e : Z) :
  (x == inject_Z m * pow2 e)%Q -> Z.abs m < 2 ^ 53 -> -1074 <= e ->
  (round x == x)%Q.
Proof.
  intros E Hm He.
  pose proof (pow2_pos e) as Pe.
  pose proof (Qred_correct x) as Rx.
  destruct (Z.lt_trichotomy m 0) as [C|[C|C]].
  - assert (Hx : (x < 0)%Q).
    { rewrite E. setoid_replace 0%Q with (0 * pow2 e)%Q by ring.
      apply Qmult_lt_compat_r; [exact Pe|].
      rewrite (Zlt_Qlt m 0) in C. exact C. }
    rewrite (round_neg x Hx).
    rewrite (roundPos_representable (- Qred x) (- m) e); [lra | | lia | exact He].
    rewrite Rx, E, inject_Z_opp. ring.
  - rewrite round_zero; [|rewrite E, C; ring].
    rewrite E, C. ring.
  - assert (Hx : (0 < x)%Q).
    { rewrite E. apply Qmult_lt_0_compat; [|exact Pe].
      rewrite (Zlt_Qlt 0) in C. exact C. }
    rewrite (round_pos x Hx).
    rewrite (roundPos_representable (Qred x) m e); [exact Rx | | lia | exact He].
    rewrite Rx. exact E.
Qed.

Lemma round_Z (z : Z) : Z.abs z < 2 ^ 53 -> (round (inject_Z z) == inject_Z z)%Q.
Proof.
  intros H. apply (round_representable _ z 0); [|exact H|lia].
  unfold pow2. cbn. ring.
Qed.

Lemma round_0 : round 0 = 0%Q.
Proof. reflexivity. Qed.


Lemma sub_mono (x x' y y' : Q) :
  (x <= x')%Q -> (y' <= y)%Q -> (sub x y <= sub x' y')%Q.
Proof. intros H1 H2. unfold sub. apply round_mono. lra. Qed.

Lemma mul_mono_l (c x y : Q) :
  (0 <= c)%Q -> (x <= y)%Q -> (mul x c <= mul y c)%Q.
Proof.
  intros Hc H. unfold mul. apply round_mono.
  apply Qmult_le_compat_r; assumption.
Qed.

Lemma div_mono_l (c x y : Q) :
  (0 < c)%Q -> (x <= y)%Q -> (div x c <= div y c)%Q.
Proof.
  intros Hc H. unfold div. apply round_mono.
  apply Qmult_le_compat_r; [exact H|].
  apply Qlt_le_weak, Qinv_lt_0_compat. exact Hc.
Qed.

(** Exchanging the operands of a subtraction changes the sign of the
    result and nothing else. *)
Lemma sub_exchange (x y : Q) : sub y x = (- sub x y)%Q.
Proof.
  unfold sub. rewrite <- round_opp. apply round_comp. ring.
Qed.

End DoubleFacts.

(** ** Fallback-mode week progress *)

Section WeekProgress.
Import JS Weekly.

Lemma rounded_percentage_range (x : Q) :
  0 <= Math_round (Math_max 0 (Math_min 100 x)) <= 100.
Proof.
  assert (H : (0 <= 100)%Q) by (unfold Qle; cbn; lia).
  destruct (clamp_range 0 100 x H) as [Hlo Hhi].
  apply Math_round_range; assumption.
Qed.


Lemma Qle_by_computation (x y : Q) : Qle_bool x y = true -> (x <= y)%Q.
Proof. apply Qle_bool_iff. Qed.













Example calculateWeekProgress_monday_11 :
  calculateWeekProgress {| getDay := 1; getHours := 11; getMinutes := 0 |}
    (Some 1) (Some 12) (Some 0) = 99.
Proof. vm_compute. reflexivity. Qed.

Example calculateWeekProgress_default_thursday_noon :
  calculateWeekProgress {| getDay := 4; getHours := 12; getMinutes := 0 |}
    None None None = 50.
Proof. vm_compute. reflexivity. Qed.

(** Tuesday 13:48 against the default reset: 37.8 of 168 hours are 22.5 per
    cent, but the quotient and the product are rounded to
    22.499999999999996, which [Math.round] takes to 22. *)
Example calculateWeekProgress_default_tuesday_13_48 :
  calculateWeekProgress {| getDay := 2; getHours := 13; getMinutes := 48 |}
    None None None = 22
  /\ Math_round (inject_Z 2268 / inject_Z 10080 * 100)%Q = 23.
Proof. split; vm_compute; reflexivity. Qed.

End WeekProgress.

(** ** Remote-anchored week progress *)

Section RemoteAnchored.
Import JS Weekly.

Variable setDate : Calendar.

(** While [now] has not passed [resetAt], the progress is the elapsed fraction
    of the seven days that end at [resetAt], clamped and rounded. *)
Lemma calculateWeekProgressFromResetTime_current (now resetAt : Z) :
  now <= resetAt ->
  let periodStart := setDate (-7) resetAt in
  calculateWeekProgressFromResetTime setDate now resetAt
  = Math_round
      (Math_max 0
         (Math_min 100
            (Double.mul
               (Double.div (inject_Z (now - periodStart)) (inject_Z (resetAt - periodStart)))
               100))).
Proof.
  intros Hle periodStart. unfold calculateWeekProgressFromResetTime.
  destruct (Z.gtb_spec now resetAt) as [Hgt|_]; [lia | reflexivity].
Qed.

Lemma calculateWeekProgressFromResetTime_current_range (now resetAt : Z) :
  now <= resetAt ->
  0 <= calculateWeekProgressFromResetTime setDate now resetAt <= 100.
Proof.
  intros Hle. rewrite calculateWeekProgressFromResetTime_current by exact Hle.
  apply rounded_percentage_range.
Qed.

(** Once [now] has passed [resetAt], the period is re-anchored: it starts at
    the old [resetAt] and lasts until seven days later. *)
Lemma calculateWeekProgressFromResetTime_stale (now resetAt : Z) :
  resetAt < now ->
  let newResetTime := setDate 7 resetAt in
  calculateWeekProgressFromResetTime setDate now resetAt
  = Math_round
      (Double.mul
         (Double.div (inject_Z (now - resetAt)) (inject_Z (newResetTime - resetAt))) 100).
Proof.
  intros Hlt newResetTime. unfold calculateWeekProgressFromResetTime.
  destruct (Z.gtb_spec now resetAt) as [_|Hle]; [reflexivity | lia].
Qed.

(** The quotient of a part by the whole lies between 0 and 1, also after
    rounding. *)
Lemma fraction_of_part (e t : Z) :
  0 <= e <= t -> 0 < t ->
  (0 <= Double.div (inject_Z e) (inject_Z t))%Q
  /\ (Double.div (inject_Z e) (inject_Z t) <= 1)%Q.
Proof.
  intros [He Het] Ht.
  assert (Htq : (0 < inject_Z t)%Q) by (rewrite (Zlt_Qlt 0 t) in Ht; exact Ht).
  assert (H0 : (0 <= inject_Z e / inject_Z t)%Q).
  { apply Qle_shift_div_l; [exact Htq|]. rewrite Qmult_0_l.
    rewrite (Zle_Qle 0 e) in He. exact He. }
  assert (H1 : (inject_Z e / inject_Z t <= 1)%Q).
  { apply Qle_shift_div_r; [exact Htq|]. rewrite Qmult_1_l.
    rewrite <- Zle_Qle. exact Het. }
  unfold Double.div. split.
  - apply Qle_trans with (Double.round 0); [apply Qle_refl | apply round_mono; exact H0].
  - apply Qle_trans with (Double.round 1); [apply round_mono; exact H1|].
    apply Qle_by_computation. vm_compute. reflexivity.
Qed.

Lemma percentage_of_part (e t : Z) :
  0 <= e <= t -> 0 < t ->
  (0 <= Double.mul (Double.div (inject_Z e) (inject_Z t)) 100)%Q
  /\ (Double.mul (Double.div (inject_Z e) (inject_Z t)) 100 <= 100)%Q.
Proof.
  intros He Ht. destruct (fraction_of_part e t He Ht) as [H0 H1].
  assert (Hc : (0 <= 100)%Q) by (unfold Qle; cbn; lia).
  split.
  - apply Qle_trans with (Double.mul 0 100); [apply Qle_refl|].
    apply mul_mono_l; assumption.
  - apply Qle_trans with (Double.mul 1 100); [apply mul_mono_l; assumption|].
    apply Qle_by_computation. vm_compute. reflexivity.
Qed.

(** The re-anchored progress stays within 0..100 as long as [now] has not
    passed the projected next reset. *)
Lemma calculateWeekProgressFromResetTime_stale_range (now resetAt : Z) :
  resetAt < now -> now <= setDate 7 resetAt ->
  0 <= calculateWeekProgressFromResetTime setDate now resetAt <= 100.
Proof.
  intros Hlt Hle. rewrite calculateWeekProgressFromResetTime_stale by exact Hlt.
  destruct (percentage_of_part (now - resetAt) (setDate 7 resetAt - resetAt))
    as [H0 H100]; [lia | lia |].
  apply Math_round_range.
  - exact H0.
  - exact H100.
Qed.

(** The re-anchored branch is not clamped: from one per cent beyond the
    projected next reset on, the result exceeds 100. *)
Lemma calculateWeekProgressFromResetTime_stale_unclamped (now resetAt : Z) :
  resetAt < setDate 7 resetAt ->
  101 * (setDate 7 resetAt - resetAt) <= 100 * (now - resetAt) ->
  100 < calculateWeekProgressFromResetTime setDate now resetAt.
Proof.
  intros Hpos Hfar.
  rewrite calculateWeekProgressFromResetTime_stale by lia.
  set (e := now - resetAt) in *. set (t := setDate 7 resetAt - resetAt) in *.
  assert (Ht : 0 < t) by (unfold t; lia).
  assert (Htq : (0 < inject_Z t)%Q) by (rewrite (Zlt_Qlt 0 t) in Ht; exact Ht).
  apply Z.lt_le_trans with (Math_round (Double.mul (Double.round (101 # 100)) 100)).
  - vm_compute. reflexivity.
  - apply Math_round_mono. apply mul_mono_l; [unfold Qle; cbn; lia|].
    unfold Double.div. apply round_mono.
    apply Qle_shift_div_l; [exact Htq|].
    unfold Qle, Qmult, inject_Z. cbn [Qnum Qden].
    change (Z.pos (100 * 1)) with 100. lia.
Qed.

End RemoteAnchored.

Section RemoteAnchoredExamples.
Import JS Weekly.

(** In the examples the reset time is 2025-01-15T00:00:00Z, time value
    1736899200000. *)

(** Reset two days ahead: five of seven days have elapsed. *)
Example calculateWeekProgressFromResetTime_two_days_left :
  calculateWeekProgressFromResetTime fixedOffsetCalendar (1736899200000 - 2 * msPerDay) 1736899200000 = 71.
Proof. vm_compute. reflexivity. Qed.

(** One day after a reset that the API has not rolled forward yet. *)
Example calculateWeekProgressFromResetTime_one_day_stale :
  calculateWeekProgressFromResetTime fixedOffsetCalendar (1736899200000 + 1 * msPerDay) 1736899200000 = 14.
Proof. vm_compute. reflexivity. Qed.

(** C1.  The remote-anchored week progress is meant to stay within 0..100.
    With a reset time eight days in the past the re-anchored branch, which
    unlike the other branch does not clamp, returns 114. *)
Theorem calculateWeekProgressFromResetTime_eight_days_stale :
  calculateWeekProgressFromResetTime fixedOffsetCalendar (1736899200000 + 8 * msPerDay) 1736899200000 = 114.
Proof. vm_compute. reflexivity. Qed.

End RemoteAnchoredExamples.

(** ** Time remaining in the short window *)

Section TimeRemaining.
Import JS Block.

Lemma minutes_until_nonpositive (now resetAt : Z) :
  resetAt <= now ->
  Math_round (inject_Z (resetAt - now) / inject_Z (60 * 1000))%Q <= 0.
Proof.
  intros Hle.
  apply Z.le_trans with (Math_round 0); [|reflexivity].
  apply Math_round_mono. apply Qle_shift_div_r; [reflexivity|].
  rewrite Qmult_0_l. change 0%Q with (inject_Z 0). rewrite <- Zle_Qle. lia.
Qed.

(** C8.  The time remaining is [max(0, round((resetAt - now) in minutes))]:
    it is never negative, and it is 0 whenever [now] is at or past
    [resetAt], in particular for a reset one second in the past. *)
Theorem timeRemaining_never_negative (now resetAt : Z) :
  timeRemaining now resetAt
  = Z.max 0 (Math_round (inject_Z (resetAt - now) / inject_Z (60 * 1000))%Q)
  /\ 0 <= timeRemaining now resetAt
  /\ (resetAt <= now -> timeRemaining now resetAt = 0)
  /\ timeRemaining now (now - 1000) = 0.
Proof.
  assert (Hpast : forall r, r <= now -> timeRemaining now r = 0).
  { intros r Hr. unfold timeRemaining.
    pose proof (minutes_until_nonpositive now r Hr). lia. }
  split; [reflexivity|]. split; [unfold timeRemaining; lia|].
  split; [apply Hpast | apply Hpast; lia].
Qed.

Lemma timeRemaining_never_negative_witness :
  1736899140000 <= 1736899200000 /\ timeRemaining 1736899200000 1736899140000 = 0.
Proof.
  split; [lia|].
  refine (proj1 (proj2 (proj2
    (timeRemaining_never_negative 1736899200000 1736899140000))) _).
  lia.
Defined.

Example timeRemaining_two_hours :
  timeRemaining 1736899200000 (1736899200000 + 2 * 60 * 60 * 1000) = 120.
Proof. reflexivity. Qed.

Example timeRemaining_half_minute_rounds_up :
  timeRemaining 1736899200000 (1736899200000 + 30 * 1000) = 1.
Proof. reflexivity. Qed.

End TimeRemaining.

(** ** Sparkline *)

Section Sparkline.
Import JS History.

Lemma sparkIndex_range (value : Q) : 0 <= sparkIndex value <= 7.
Proof.
  unfold sparkIndex, Math_floor.
  assert (H : (0 <= 100)%Q) by (unfold Qle; cbn; lia).
  destruct (clamp_range 0 100 value H) as [Hlo Hhi].
  set (c := Math_max 0 (Math_min 100 value)) in *.
  assert (H7 : (0 <= 7)%Q) by (unfold Qle; cbn; lia).
  assert (H100 : (0 < 100)%Q) by reflexivity.
  split.
  - change 0 with (Qfloor 0). apply Qfloor_resp_le.
    apply Qle_trans with (Double.mul (Double.div 0 100) 7).
    + apply Qle_by_computation. vm_compute. reflexivity.
    + apply mul_mono_l; [exact H7|]. apply div_mono_l; [exact H100 | exact Hlo].
  - change 7 with (Qfloor 7). apply Qfloor_resp_le.
    apply Qle_trans with (Double.mul (Double.div 100 100) 7).
    + apply mul_mono_l; [exact H7|]. apply div_mono_l; [exact H100 | exact Hhi].
    + apply Qle_by_computation. vm_compute. reflexivity.
Qed.

Lemma charAt_glyph (value : Q) :
  charAt SPARKLINE_CHARS (sparkIndex value) = [glyph value].
Proof.
  pose proof (sparkIndex_range value) as [Hlo Hhi].
  unfold charAt, glyph.
  destruct (Z.ltb_spec (sparkIndex value) 0) as [Hneg|_]; [lia|].
  assert (Hn : (Z.to_nat (sparkIndex value) < 8)%nat) by lia.
  destruct (Z.to_nat (sparkIndex value)) as [|[|[|[|[|[|[|[|n]]]]]]]];
    try reflexivity; lia.
Qed.

Lemma concat_glyphs (l : list Q) :
  List.concat (map (fun value => charAt SPARKLINE_CHARS (sparkIndex value)) l)
  = map glyph l.
Proof.
  induction l as [|v l IH]; [reflexivity|].
  cbn [map List.concat]. rewrite charAt_glyph, IH. reflexivity.
Qed.

Lemma slice_neg_lastn {A : Type} (w : Z) (a : list A) :
  0 < w -> slice (- w) a = lastn (Z.to_nat w) a.
Proof.
  intros Hw. unfold slice, lastn.
  destruct (Z.ltb_spec (- w) 0) as [_|Hge]; [|lia].
  f_equal. lia.
Qed.

Lemma slice_zero {A : Type} (a : list A) : slice (- 0) a = a.
Proof.
  unfold slice. cbn [Z.opp Z.ltb Z.compare].
  rewrite Z.min_l by lia. reflexivity.
Qed.

(** For a positive width the sparkline is one glyph for each of the last
    [width] present values, in order. *)
Lemma getSparkline_positive_width (samples : list (option Q)) (width : Z) :
  0 < width ->
  getSparkline samples width
  = map glyph (lastn (Z.to_nat width) (filterNonNull samples)).
Proof.
  intros Hw. unfold getSparkline.
  destruct (filterNonNull samples) as [|v l] eqn:E.
  - reflexivity.
  - cbn [List.length Nat.eqb]. rewrite concat_glyphs, slice_neg_lastn by exact Hw.
    reflexivity.
Qed.

Lemma getSparkline_all_absent (samples : list (option Q)) (width : Z) :
  filterNonNull samples = [] -> getSparkline samples width = [].
Proof.
  intros E. unfold getSparkline. rewrite E. reflexivity.
Qed.

(** With width 0, [slice(-0)] keeps every value instead of none. *)
Lemma getSparkline_zero_width (samples : list (option Q)) :
  getSparkline samples 0 = map glyph (filterNonNull samples).
Proof.
  unfold getSparkline.
  destruct (filterNonNull samples) as [|v l] eqn:E.
  - reflexivity.
  - cbn [List.length Nat.eqb]. rewrite slice_zero, concat_glyphs. reflexivity.
Qed.

Example getSparkline_quarters :
  getSparkline [Some 0; Some 25; Some 50; Some 75; Some 100]%Q 5
  = [0x2581; 0x2582; 0x2584; 0x2586; 0x2588]%N.
Proof. vm_compute. reflexivity. Qed.

Example getSparkline_empty : getSparkline [] 5 = [].
Proof. reflexivity. Qed.

Example getSparkline_nulls : getSparkline [None; None] 5 = [].
Proof. reflexivity. Qed.

Example getSparkline_last_five :
  getSparkline
    [Some 10; Some 20; Some 30; Some 40; Some 50; Some 60; Some 70; Some 80;
     Some 90; Some 100]%Q 5
  = [0x2585; 0x2585; 0x2586; 0x2587; 0x2588]%N.
Proof. vm_compute. reflexivity. Qed.

(** C9.  The sparkline is meant to keep only the most recent [width] present
    values.  At width 0 it keeps both values of the input instead of none. *)
Theorem getSparkline_width_zero_keeps_all :
  getSparkline [Some 10; Some 20]%Q 0 = [0x2581; 0x2582]%N.
Proof. vm_compute. reflexivity. Qed.

End Sparkline.

(** ** Normalisation of the quota response *)

Section QuotaClient.
Import JS OAuth.

Lemma geb_le (x y : Q) : geb x y = true <-> (y <= x)%Q.
Proof. unfold geb. apply Qle_bool_iff. Qed.

Lemma parseUsageBlock_absent (env : Env) (w : Window) (block : field ApiUsageBlock) :
  block = undefined \/ block = null -> parseUsageBlock env w block = None.
Proof. intros [-> | ->]; reflexivity. Qed.

Lemma parseUsageBlock_nullish_undefined (env : Env) (w : Window)
    (block : field ApiUsageBlock) :
  parseUsageBlock env w (nullish_undefined block) = parseUsageBlock env w block.
Proof. destruct block; reflexivity. Qed.

Lemma parseUsageBlock_present (env : Env) (w : Window) (b : ApiUsageBlock) :
  exists d : UsageData,
    parseUsageBlock env w (value b) = Some d
    /\ (forall x, utilization b = value x -> percentUsed d = x)
    /\ (utilization b = undefined \/ utilization b = null -> percentUsed d = 0%Q)
    /\ (forall s, resets_at b = value s -> s <> EmptyString -> resetAt d = Date_parse env s)
    /\ (resets_at b = undefined \/ resets_at b = null ->
        resetAt d = ValidDate (clock env w))
    /\ (isOverLimit d = true <-> (100 <= percentUsed d)%Q).
Proof.
  eexists. split; [reflexivity|]. cbn [percentUsed resetAt isOverLimit].
  repeat split.
  - intros x ->. reflexivity.
  - intros [-> | ->]; reflexivity.
  - intros s -> Hs. apply String.eqb_neq in Hs. now rewrite Hs.
  - intros [-> | ->]; reflexivity.
  - intros H. now apply geb_le.
  - intros H. now apply geb_le.
Qed.

Lemma fetchUsageFromAPI_windows (env : Env) (token : string) (data : ApiResponse) :
  http env token = Response true (Some data) ->
  exists u : OAuthUsageResponse,
    fetchUsageFromAPI env token = Some u
    /\ raw u = data
    /\ forall w, usageWindow w u = parseUsageBlock env w (apiBlock w data).
Proof.
  intros Hhttp. unfold fetchUsageFromAPI. rewrite Hhttp. cbn [negb].
  eexists. split; [reflexivity|]. split; [reflexivity|].
  intros []; cbn [usageWindow apiBlock fiveHour sevenDay sevenDayOpus sevenDaySonnet];
    rewrite ?parseUsageBlock_nullish_undefined; reflexivity.
Qed.

(** C6.  For a successful response body, a top-level key that is missing or
    null gives an absent window; a present key gives a window whose
    [percentUsed] is the reported utilization, or 0 when there is none, whose
    [resetAt] is the parsed [resets_at], or the current time when there is
    none, and whose [isOverLimit] says whether [percentUsed >= 100]. *)
Theorem fetchUsageFromAPI_normalizes (env : Env) (token : string) (data : ApiResponse) :
  http env token = Response true (Some data) ->
  exists u : OAuthUsageResponse,
    fetchUsageFromAPI env token = Some u
    /\ forall w : Window,
         (apiBlock w data = undefined \/ apiBlock w data = null -> usageWindow w u = None)
         /\ (forall b, apiBlock w data = value b ->
               exists d : UsageData,
                 usageWindow w u = Some d
                 /\ (forall x, utilization b = value x -> percentUsed d = x)
                 /\ (utilization b = undefined \/ utilization b = null ->
                     percentUsed d = 0%Q)
                 /\ (forall s, resets_at b = value s -> s <> EmptyString ->
                     resetAt d = Date_parse env s)
                 /\ (resets_at b = undefined \/ resets_at b = null ->
                     resetAt d = ValidDate (clock env w))
                 /\ (isOverLimit d = true <-> (100 <= percentUsed d)%Q)).
Proof.
  intros Hhttp.
  destruct (fetchUsageFromAPI_windows env token data Hhttp) as (u & Hu & _ & Hw).
  exists u. split; [exact Hu|]. intros w. rewrite Hw. split.
  - apply parseUsageBlock_absent.
  - intros b ->. apply parseUsageBlock_present.
Qed.

(** A body whose short window reports 100% and no reset time. *)
Lemma fetchUsageFromAPI_normalizes_witness :
  exists u : OAuthUsageResponse,
    fetchUsageFromAPI (Sample.online Sample.t0 100) Sample.token = Some u
    /\ usageWindow SevenDayOpus u = None
    /\ usageWindow SevenDaySonnet u = None
    /\ exists d : UsageData,
         usageWindow FiveHour u = Some d
         /\ percentUsed d = 100%Q
         /\ resetAt d = ValidDate Sample.t0
         /\ isOverLimit d = true.
Proof.
  destruct (fetchUsageFromAPI_normalizes
              (Sample.online Sample.t0 100) Sample.token (Sample.body 100) eq_refl)
    as (u & Hu & Hw).
  exists u. split; [exact Hu|].
  split; [apply (proj1 (Hw SevenDayOpus)); right; reflexivity|].
  split; [apply (proj1 (Hw SevenDaySonnet)); left; reflexivity|].
  destruct (proj2 (Hw FiveHour) _ eq_refl) as (d & Hd & Hpct & _ & _ & Hreset & Hover).
  exists d. split; [exact Hd|].
  split; [apply Hpct; reflexivity|].
  split; [apply Hreset; left; reflexivity|].
  apply Hover. rewrite (Hpct 100%Q eq_refl). vm_compute. discriminate.
Defined.

Example parseUsageBlock_empty_reset_string :
  parseUsageBlock (Sample.online Sample.t0 0) FiveHour
    (value {| resets_at := value EmptyString; utilization := null |})
  = Some {| resetAt := ValidDate Sample.t0; percentUsed := 0; isOverLimit := false |}.
Proof. reflexivity. Qed.

End QuotaClient.

(** ** Trend between the two cached snapshots *)

Section Trend.
Import JS OAuth.

Lemma trendOf_getUsageTrend (st : Cache) (w : Window) (c p : OAuthUsageResponse) :
  cachedUsage st = Some c -> previousUsage st = Some p ->
  trendOf w (getUsageTrend st) = compareTrend (usageWindow w c) (usageWindow w p).
Proof.
  intros Hc Hp. unfold getUsageTrend. rewrite Hc, Hp.
  destruct w; reflexivity.
Qed.

Lemma trendOf_getUsageTrend_no_snapshot (st : Cache) (w : Window) :
  cachedUsage st = None \/ previousUsage st = None ->
  trendOf w (getUsageTrend st) = None.
Proof.
  intros H. unfold getUsageTrend.
  destruct (cachedUsage st), (previousUsage st), H; try discriminate;
    destruct w; reflexivity.
Qed.

Lemma compareTrend_absent (current previous : option UsageData) :
  current = None \/ previous = None -> compareTrend current previous = None.
Proof.
  intros H. destruct current, previous, H; try discriminate; reflexivity.
Qed.

Lemma compareTrend_present (current previous : UsageData) :
  let delta := Double.sub (percentUsed current) (percentUsed previous) in
  ((1 # 2) < delta -> compareTrend (Some current) (Some previous) = Some up)%Q
  /\ (delta < - (1 # 2) -> compareTrend (Some current) (Some previous) = Some down)%Q
  /\ (- (1 # 2) <= delta -> delta <= (1 # 2) ->
      compareTrend (Some current) (Some previous) = Some same)%Q.
Proof.
  intros delta. unfold compareTrend. fold delta.
  repeat split.
  - intros H. apply ltb_lt in H. now rewrite H.
  - intros H.
    assert (Hup : ltb (1 # 2) delta = false).
    { apply ltb_ge. apply Qlt_le_weak. apply Qlt_trans with (- (1 # 2))%Q.
      - exact H.
      - reflexivity. }
    apply ltb_lt in H. now rewrite Hup, H.
  - intros Hlo Hhi. apply ltb_ge in Hlo, Hhi. now rewrite Hhi, Hlo.
Qed.

(** One half is a double, so a difference of at most one half is still at
    most one half after rounding, and likewise for minus one half. *)
Lemma sub_half (x y : Q) :
  ((x - y <= 1 # 2)%Q -> (Double.sub x y <= 1 # 2)%Q)
  /\ ((- (1 # 2) <= x - y)%Q -> (- (1 # 2) <= Double.sub x y)%Q).
Proof.
  unfold Double.sub. split; intros H.
  - apply Qle_trans with (Double.round (1 # 2)); [apply round_mono; exact H|].
    apply Qle_by_computation. vm_compute. reflexivity.
  - apply Qle_trans with (Double.round (- (1 # 2))); [|apply round_mono; exact H].
    apply Qle_by_computation. vm_compute. reflexivity.
Qed.

(** C5.  Per dimension the trend is absent when either snapshot, or that
    dimension in either snapshot, is absent; otherwise, with the delta that
    the subtraction of the two percentages yields, it is [up] when the delta
    exceeds 0.5, [down] when it is below -0.5, and [same] when it lies
    within 0.5 of zero.  The subtraction rounds to the nearest double, and
    0.5 is one: the trend is [same] whenever the percentages themselves
    differ by at most 0.5, and [up] or [down] only when they differ by more
    than that. *)
Theorem getUsageTrend_directions (st : Cache) (w : Window) :
  (cachedUsage st = None \/ previousUsage st = None ->
   trendOf w (getUsageTrend st) = None)
  /\ forall c p : OAuthUsageResponse,
       cachedUsage st = Some c -> previousUsage st = Some p ->
       (usageWindow w c = None \/ usageWindow w p = None ->
        trendOf w (getUsageTrend st) = None)
       /\ forall cw pw : UsageData,
            usageWindow w c = Some cw -> usageWindow w p = Some pw ->
            let delta := Double.sub (percentUsed cw) (percentUsed pw) in
            let difference := (percentUsed cw - percentUsed pw)%Q in
            ((1 # 2) < delta -> trendOf w (getUsageTrend st) = Some up)%Q
            /\ (delta < - (1 # 2) -> trendOf w (getUsageTrend st) = Some down)%Q
            /\ (- (1 # 2) <= delta -> delta <= (1 # 2) ->
                trendOf w (getUsageTrend st) = Some same)%Q
            /\ (- (1 # 2) <= difference -> difference <= (1 # 2) ->
                trendOf w (getUsageTrend st) = Some same)%Q
            /\ (trendOf w (getUsageTrend st) = Some up -> (1 # 2) < difference)%Q
            /\ (trendOf w (getUsageTrend st) = Some down -> difference < - (1 # 2))%Q.
Proof.
  split.
  - apply trendOf_getUsageTrend_no_snapshot.
  - intros c p Hc Hp. rewrite (trendOf_getUsageTrend st w c p Hc Hp). split.
    + apply compareTrend_absent.
    + intros cw pw -> -> delta difference.
      destruct (compareTrend_present cw pw) as (Hup & Hdown & Hsame).
      fold delta in Hup, Hdown, Hsame.
      destruct (sub_half (percentUsed cw) (percentUsed pw)) as [Hhi Hlo].
      fold delta difference in Hhi, Hlo.
      split; [exact Hup|]. split; [exact Hdown|]. split; [exact Hsame|].
      split; [|split].
      * intros H1 H2. apply Hsame; [apply Hlo; exact H1 | apply Hhi; exact H2].
      * intros Hdir. apply Qnot_le_lt. intros Hle. apply Hhi in Hle.
        destruct (Qlt_le_dec delta (- (1 # 2))) as [Hlt|Hge].
        -- rewrite (Hdown Hlt) in Hdir. discriminate.
        -- rewrite (Hsame Hge Hle) in Hdir. discriminate.
      * intros Hdir. apply Qnot_le_lt. intros Hge. apply Hlo in Hge.
        destruct (Qlt_le_dec (1 # 2) delta) as [Hlt|Hle].
        -- rewrite (Hup Hlt) in Hdir. discriminate.
        -- rewrite (Hsame Hge Hle) in Hdir. discriminate.
Qed.

(** The doubles nearest to 0.8 and to 0.3 differ by more than 0.5, but
    their difference is rounded to 0.5: the trend is [same]. *)
Example compareTrend_rounded_difference :
  let current :=
    {| resetAt := ValidDate Sample.t0; percentUsed := Double.literal (8 # 10);
       isOverLimit := false |} in
  let previous :=
    {| resetAt := ValidDate Sample.t0; percentUsed := Double.literal (3 # 10);
       isOverLimit := false |} in
  ((1 # 2) < percentUsed current - percentUsed previous)%Q
  /\ (Double.sub (percentUsed current) (percentUsed previous) == 1 # 2)%Q
  /\ compareTrend (Some current) (Some previous) = Some same.
Proof.
  cbv zeta. split; [|split].
  - vm_compute. reflexivity.
  - apply Qeq_bool_iff. vm_compute. reflexivity.
  - vm_compute. reflexivity.
Qed.

(** The short window went from 12% to 40%, the weekly window stayed, and the
    per-model windows are absent. *)
Lemma getUsageTrend_directions_witness :
  let st :=
    exec [CallGetRealtimeUsage (Some 15%Q) (Sample.online Sample.t0 12);
          CallGetRealtimeUsage (Some 15%Q)
            (Sample.online (Sample.t0 + 20 * Sample.minute) 40)] initialCache in
  trendOf FiveHour (getUsageTrend st) = Some up
  /\ trendOf SevenDay (getUsageTrend st) = Some same
  /\ trendOf SevenDayOpus (getUsageTrend st) = None.
Proof.
  intros st.
  pose (c := Sample.snapshot (Sample.t0 + 20 * Sample.minute) 40).
  pose (p := Sample.snapshot Sample.t0 12).
  split; [|split].
  - destruct (proj2 (getUsageTrend_directions st FiveHour) c p eq_refl eq_refl)
      as [_ Hboth].
    destruct (Hboth _ _ eq_refl eq_refl) as (Hup & _ & _).
    apply Hup. vm_compute. reflexivity.
  - destruct (proj2 (getUsageTrend_directions st SevenDay) c p eq_refl eq_refl)
      as [_ Hboth].
    destruct (Hboth _ _ eq_refl eq_refl) as (_ & _ & Hsame).
    apply Hsame; vm_compute; discriminate.
  - destruct (proj2 (getUsageTrend_directions st SevenDayOpus) c p eq_refl eq_refl)
      as [Habsent _].
    apply Habsent. left. reflexivity.
Defined.

End Trend.

(** ** One call of getRealtimeUsage *)

Section OneCall.
Import JS OAuth.

Lemma cacheFresh_spec (p : option Q) (env : Env) (st : Cache) :
  cacheFresh p env st = true
  <-> (exists u, cachedUsage st = Some u)
      /\ (inject_Z (cacheAgeMs env st) < pollIntervalMs p)%Q.
Proof.
  unfold cacheFresh. destruct (cachedUsage st) as [u|].
  - rewrite ltb_lt. split.
    + intros H. split; [now exists u | exact H].
    + intros [_ H]. exact H.
  - split; [discriminate | intros [[u Hu] _]; discriminate].
Qed.

Lemma cacheFresh_false_spec (p : option Q) (env : Env) (st : Cache) :
  cacheFresh p env st = false
  <-> cachedUsage st = None
      \/ (pollIntervalMs p <= inject_Z (cacheAgeMs env st))%Q.
Proof.
  unfold cacheFresh. destruct (cachedUsage st) as [u|].
  - rewrite ltb_ge. split.
    + intros H. now right.
    + intros [H|H]; [discriminate | exact H].
  - split; [now left | reflexivity].
Qed.

(** A fresh cache is served as it is. *)
Lemma getRealtimeUsage_fresh (p : option Q) (env : Env) (st : Cache) :
  cacheFresh p env st = true ->
  getRealtimeUsage p env st = (cachedUsage st, st, []).
Proof.
  intros H. unfold getRealtimeUsage. now rewrite H.
Qed.

Lemma setCachedToken_same (st : Cache) : setCachedToken (cachedToken st) st = st.
Proof. destruct st; reflexivity. Qed.

(** The three ways a call can go when the cache is not fresh: no usable
    token, a fetch that fails, a fetch that succeeds. *)
Lemma getRealtimeUsage_not_fresh (p : option Q) (env : Env) (st : Cache) :
  cacheFresh p env st = false ->
  exists (resolved : list Event),
    (resolved = [] \/ resolved = [ResolveToken])
    /\ ((exists token' : option string,
           getRealtimeUsage p env st = (None, setCachedToken token' st, resolved))
        \/ (exists token : string,
              fetchUsageFromAPI env token = None
              /\ getRealtimeUsage p env st
                 = (None, setCachedToken None st, resolved ++ [FetchUsage token]))
        \/ (exists (token : string) (u : OAuthUsageResponse),
              fetchUsageFromAPI env token = Some u
              /\ getRealtimeUsage p env st
                 = (Some u,
                    {| cachedUsage := Some u;
                       previousUsage := cachedUsage st;
                       cacheTimestamp := Date_now env;
                       cachedToken := Some token |},
                    resolved ++ [FetchUsage token]))).
Proof.
  intros Hmiss. unfold getRealtimeUsage. rewrite Hmiss.
  destruct (truthy_token (cachedToken st)) eqn:Htok.
  - exists []. split; [now left|].
    destruct (cachedToken st) as [token|] eqn:Hc; [|discriminate].
    cbn [truthy_token] in Htok. apply negb_true_iff in Htok. rewrite Htok.
    destruct (fetchUsageFromAPI env token) as [u|] eqn:Hf.
    + right; right. exists token, u. split; [exact Hf|]. reflexivity.
    + right; left. exists token. split; [exact Hf|]. reflexivity.
  - exists [ResolveToken]. split; [now right|].
    cbn [cachedToken setCachedToken].
    destruct (getOAuthToken env) as [token|] eqn:Hr.
    + destruct (String.eqb token EmptyString) eqn:He.
      * left. exists (Some token). reflexivity.
      * destruct (fetchUsageFromAPI env token) as [u|] eqn:Hf.
        -- right; right. exists token, u. split; [exact Hf|]. reflexivity.
        -- right; left. exists token. split; [exact Hf|]. reflexivity.
    + left. exists None. reflexivity.
Qed.

Lemma fetch_in_resolved (resolved : list Event) (token : string) :
  resolved = [] \/ resolved = [ResolveToken] ->
  existsb isFetch resolved = false
  /\ List.length (filter isFetch (resolved ++ [FetchUsage token])) = 1%nat
  /\ existsb isFetch (resolved ++ [FetchUsage token]) = true.
Proof. intros [-> | ->]; repeat split. Qed.

Lemma In_resolved_fetch (resolved : list Event) (token token' : string) :
  resolved = [] \/ resolved = [ResolveToken] ->
  (In (FetchUsage token) resolved -> False)
  /\ (In (FetchUsage token) (resolved ++ [FetchUsage token']) -> token = token').
Proof.
  intros [-> | ->]; split; cbn; intros H;
    repeat (destruct H as [H|H]; try discriminate; try (injection H as H; now subst));
    try contradiction.
Qed.

(** C2.  When the cached snapshot is missing or expired and the quota fetch
    the call makes fails, the call returns absent, leaves the current
    snapshot, the previous snapshot and the fetch timestamp as they were, and
    drops the cached token, so that the next call that is not served from the
    cache starts with credential resolution. *)
Theorem getRealtimeUsage_failed_fetch
    (p : option Q) (env : Env) (st : Cache) (token : string) :
  cachedUsage st = None \/ (pollIntervalMs p <= inject_Z (cacheAgeMs env st))%Q ->
  In (FetchUsage token) (work (getRealtimeUsage p env st)) ->
  fetchUsageFromAPI env token = None ->
  let st' := cacheAfter (getRealtimeUsage p env st) in
  returned (getRealtimeUsage p env st) = None
  /\ cachedUsage st' = cachedUsage st
  /\ previousUsage st' = previousUsage st
  /\ cacheTimestamp st' = cacheTimestamp st
  /\ cachedToken st' = None
  /\ forall (p' : option Q) (env' : Env),
       cacheFresh p' env' st' = false ->
       exists rest, work (getRealtimeUsage p' env' st') = ResolveToken :: rest.
Proof.
  intros Hmiss Hin Hfail.
  apply cacheFresh_false_spec in Hmiss.
  destruct (getRealtimeUsage_not_fresh p env st Hmiss)
    as (resolved & Hres & [(tk & E) | [(token' & Hf & E) | (token' & u & Hf & E)]]);
    rewrite E in *; cbn [work cacheAfter returned fst snd] in *.
  - destruct (In_resolved_fetch resolved token token Hres) as [Hno _].
    contradiction.
  - repeat split.
    intros p' env' Hmiss'.
    destruct (getRealtimeUsage_not_fresh p' env' _ Hmiss')
      as (resolved' & Hres' & Hcases).
    unfold getRealtimeUsage in *. rewrite Hmiss' in *.
    cbn [setCachedToken cachedToken truthy_token] in *.
    destruct (getOAuthToken env') as [tk|]; cbn [setCachedToken cachedToken].
    + destruct (String.eqb tk EmptyString); [eexists; reflexivity|].
      destruct (fetchUsageFromAPI env' tk); eexists; reflexivity.
    + eexists; reflexivity.
  - destruct (In_resolved_fetch resolved token token' Hres) as [_ Heq].
    apply Heq in Hin. subst token'. congruence.
Qed.

Lemma getRealtimeUsage_failed_fetch_witness :
  let st := exec [CallGetRealtimeUsage (Some 15%Q) (Sample.online Sample.t0 12)] initialCache in
  let env := Sample.unauthorized (Sample.t0 + 20 * Sample.minute) in
  returned (getRealtimeUsage (Some 15%Q) env st) = None
  /\ cachedUsage (cacheAfter (getRealtimeUsage (Some 15%Q) env st)) = cachedUsage st
  /\ cachedToken (cacheAfter (getRealtimeUsage (Some 15%Q) env st)) = None.
Proof.
  intros st env.
  destruct (getRealtimeUsage_failed_fetch (Some 15%Q) env st Sample.token)
    as (H1 & H2 & _ & _ & H5 & _).
  - right. vm_compute. discriminate.
  - vm_compute. left. reflexivity.
  - reflexivity.
  - repeat split; assumption.
Defined.

(** For a whole number of minutes the conversion to milliseconds is
    exact. *)
Lemma pollIntervalMs_whole_minutes (n : Z) :
  0 <= n -> n * 60 * 1000 < 2 ^ 53 ->
  (Double.mul (Double.mul (inject_Z n) 60) 1000 == inject_Z (n * 60 * 1000))%Q.
Proof.
  intros Hn Hbound.
  assert (E1 : (Double.mul (inject_Z n) 60 == inject_Z (n * 60))%Q).
  { unfold Double.mul.
    rewrite (round_comp (inject_Z n * 60) (inject_Z (n * 60)))
      by (rewrite inject_Z_mult; reflexivity).
    apply round_Z. lia. }
  unfold Double.mul at 1.
  rewrite (round_comp (Double.mul (inject_Z n) 60 * 1000) (inject_Z (n * 60 * 1000)))
    by (rewrite E1, (inject_Z_mult (n * 60) 1000); reflexivity).
  apply round_Z. lia.
Qed.

(** C4.  When a cached snapshot exists and its age is strictly less than the
    poll interval in milliseconds, [pollIntervalMinutes * 60 * 1000] as the
    arithmetic of doubles gives it, the snapshot is returned without
    credential resolution or fetch and the cache is left as it is.  Hence,
    when the cache is the one a call with a successful fetch left behind, so
    that the age counts from that fetch, the two calls make exactly one
    fetch between them.  For a whole number of minutes, such as 15, the
    interval is that number times 60000. *)
Theorem getRealtimeUsage_cache_hit (p : Q) (env : Env) (st : Cache) (u : OAuthUsageResponse) :
  cachedUsage st = Some u ->
  (inject_Z (Date_now env - cacheTimestamp st) < Double.mul (Double.mul p 60) 1000)%Q ->
  getRealtimeUsage (Some p) env st = (Some u, st, [])
  /\ (forall (env0 : Env) (st0 : Cache),
       st = cacheAfter (getRealtimeUsage (Some p) env0 st0) ->
       fetched (CallGetRealtimeUsage (Some p) env0) st0 <> None ->
       cacheTimestamp st = Date_now env0
       /\ List.length
            (filter isFetch
               (work (getRealtimeUsage (Some p) env0 st0)
                ++ work (getRealtimeUsage (Some p) env st))) = 1%nat)
  /\ (forall n : Z,
       p = inject_Z n -> 0 <= n -> n * 60 * 1000 < 2 ^ 53 ->
       Date_now env - cacheTimestamp st < n * 60 * 1000).
Proof.
  intros Hu Hage.
  assert (Hfresh : cacheFresh (Some p) env st = true).
  { apply cacheFresh_spec. split; [now exists u | exact Hage]. }
  assert (Hhit : getRealtimeUsage (Some p) env st = (Some u, st, [])).
  { rewrite (getRealtimeUsage_fresh _ _ _ Hfresh), Hu. reflexivity. }
  split; [exact Hhit|]. split.
  - intros env0 st0 Hst Hfetched. rewrite Hhit. cbn [work snd].
    rewrite app_nil_r. unfold fetched in Hfetched.
    destruct (cacheFresh (Some p) env0 st0) eqn:Hf0.
    + rewrite (getRealtimeUsage_fresh _ _ _ Hf0) in Hfetched.
      cbn [existsb] in Hfetched. congruence.
    + destruct (getRealtimeUsage_not_fresh (Some p) env0 st0 Hf0)
        as (resolved & Hres & [(tk & E) | [(token' & Hf & E) | (token' & u' & Hf & E)]]);
        rewrite E in *; cbn [work cacheAfter fst snd] in *.
      * destruct (existsb isFetch resolved); congruence.
      * destruct (existsb isFetch (resolved ++ [FetchUsage token'])); congruence.
      * split; [rewrite Hst; reflexivity|].
        apply (fetch_in_resolved resolved token' Hres).
  - intros n Hp Hn Hbound. subst p.
    rewrite (pollIntervalMs_whole_minutes n Hn Hbound) in Hage.
    rewrite <- Zlt_Qlt in Hage. exact Hage.
Qed.

Lemma getRealtimeUsage_cache_hit_witness :
  let env0 := Sample.online Sample.t0 12 in
  let env := Sample.unauthorized (Sample.t0 + 14 * Sample.minute) in
  let st := cacheAfter (getRealtimeUsage (Some 15%Q) env0 initialCache) in
  getRealtimeUsage (Some 15%Q) env st = (Some (Sample.snapshot Sample.t0 12), st, [])
  /\ List.length
       (filter isFetch
          (work (getRealtimeUsage (Some 15%Q) env0 initialCache)
           ++ work (getRealtimeUsage (Some 15%Q) env st))) = 1%nat.
Proof.
  intros env0 env st.
  destruct (getRealtimeUsage_cache_hit 15%Q env st (Sample.snapshot Sample.t0 12))
    as (Hhit & Hone & _).
  - reflexivity.
  - vm_compute. reflexivity.
  - split; [exact Hhit|].
    apply (Hone env0 initialCache).
    + reflexivity.
    + vm_compute. discriminate.
Defined.

(** An interval of a tenth of a minute: the double nearest to 0.1 is above
    0.1, but its product with 60 is rounded to 6 and the interval is 6000
    milliseconds.  A snapshot aged 6000 milliseconds is not served. *)
Example getRealtimeUsage_tenth_of_a_minute :
  let p := Double.literal (1 # 10) in
  let st := cacheAfter (getRealtimeUsage (Some p) (Sample.online Sample.t0 12) initialCache) in
  let env := Sample.online (Sample.t0 + 6000) 40 in
  (inject_Z 6000 < p * 60 * 1000)%Q
  /\ (pollIntervalMs (Some p) == inject_Z 6000)%Q
  /\ cacheFresh (Some p) env st = false
  /\ work (getRealtimeUsage (Some p) env st) = [FetchUsage Sample.token].
Proof.
  cbv zeta. split; [|split; [|split]].
  - vm_compute. reflexivity.
  - apply Qeq_bool_iff. vm_compute. reflexivity.
  - vm_compute. reflexivity.
  - vm_compute. reflexivity.
Qed.

End OneCall.

(** ** Runs of the cache: the previous snapshot *)

Section CacheHistory.
Import JS OAuth.

(** What one operation does to the current snapshot, the previous snapshot
    and the timestamp. *)
Lemma step_cases (op : Op) (st : Cache) :
  (forall u, fetched op st = Some u ->
     exists p env,
       op = CallGetRealtimeUsage p env
       /\ previousUsage (step op st) = cachedUsage st
       /\ cachedUsage (step op st) = Some u
       /\ cacheTimestamp (step op st) = Date_now env)
  /\ (op = CallClearUsageCache -> step op st = initialCache)
  /\ (fetched op st = None -> op <> CallClearUsageCache ->
      previousUsage (step op st) = previousUsage st
      /\ cachedUsage (step op st) = cachedUsage st
      /\ cacheTimestamp (step op st) = cacheTimestamp st).
Proof.
  destruct op as [p env| |].
  - cbn [fetched step].
    destruct (cacheFresh p env st) eqn:Hf.
    + rewrite (getRealtimeUsage_fresh _ _ _ Hf). cbn [existsb cacheAfter fst snd].
      repeat split; discriminate.
    + destruct (getRealtimeUsage_not_fresh p env st Hf)
        as (resolved & Hres & [(tk & E) | [(token & Hfail & E) | (token & u & Hok & E)]]);
        rewrite E; cbn [cacheAfter fst snd].
      * repeat split; try discriminate.
        intros u Hu. destruct (existsb isFetch resolved); discriminate.
      * repeat split; try discriminate.
        intros u Hu.
        destruct (existsb isFetch (resolved ++ [FetchUsage token])); discriminate.
      * destruct (fetch_in_resolved resolved token Hres) as (_ & _ & Hex).
        rewrite Hex. repeat split; try discriminate.
        intros u' Hu'. injection Hu' as <-. exists p, env. repeat split.
  - cbn [fetched step]. repeat split; discriminate.
  - cbn [fetched step]. split; [discriminate|]. split; [reflexivity|].
    intros _ Hne. now elim Hne.
Qed.

Lemma previous_follows_history (ops : list Op) :
  forall (st : Cache) (sofar : option OAuthUsageResponse),
    previousUsage st = sofar ->
    previousUsage (exec ops st) = currentBeforeLatestFetch true ops st sofar.
Proof.
  induction ops as [|op ops IH]; intros st sofar Hinv.
  - exact Hinv.
  - cbn [exec fold_left currentBeforeLatestFetch]. apply IH.
    destruct (step_cases op st) as (Hfetch & Hclear & Hother).
    destruct (fetched op st) as [u|] eqn:Hf.
    + destruct (Hfetch u eq_refl) as (p & env & _ & Hprev & _). exact Hprev.
    + destruct op as [p env| |].
      * destruct Hother as (Hprev & _); [reflexivity | discriminate |].
        rewrite Hprev. exact Hinv.
      * exact Hinv.
      * reflexivity.
Qed.

(** C3, as amended.  In every cache state reached from the initial one,
    [previousUsage] is the snapshot that was current immediately before the
    latest successful fetch since the cache was last cleared (absent when
    there has been none).  A successful fetch moves the old current snapshot
    to [previousUsage], stores the new one and stamps the timestamp with the
    time of the call; [clearUsageCache] empties the whole cache; no other
    operation changes the current snapshot, the previous one or the
    timestamp. *)
Theorem previousUsage_history (ops : list Op) :
  previousUsage (exec ops initialCache)
  = currentBeforeLatestFetch true ops initialCache None
  /\ forall (op : Op) (st : Cache),
       (forall u, fetched op st = Some u ->
          exists p env,
            op = CallGetRealtimeUsage p env
            /\ previousUsage (step op st) = cachedUsage st
            /\ cachedUsage (step op st) = Some u
            /\ cacheTimestamp (step op st) = Date_now env)
       /\ (op = CallClearUsageCache -> step op st = initialCache)
       /\ (fetched op st = None -> op <> CallClearUsageCache ->
           previousUsage (step op st) = previousUsage st
           /\ cachedUsage (step op st) = cachedUsage st
           /\ cacheTimestamp (step op st) = cacheTimestamp st).
Proof.
  split.
  - apply previous_follows_history. reflexivity.
  - apply step_cases.
Qed.

Lemma previousUsage_history_witness :
  let st := exec [CallGetRealtimeUsage (Some 15%Q) (Sample.online Sample.t0 12)] initialCache in
  let op := CallGetRealtimeUsage (Some 15%Q)
              (Sample.online (Sample.t0 + 20 * Sample.minute) 40) in
  previousUsage (step op st) = Some (Sample.snapshot Sample.t0 12)
  /\ cachedUsage (step op st)
     = Some (Sample.snapshot (Sample.t0 + 20 * Sample.minute) 40)
  /\ step CallClearUsageCache st = initialCache.
Proof.
  intros st op.
  destruct (proj2 (previousUsage_history []) op st) as (Hfetch & _).
  destruct (proj2 (previousUsage_history []) CallClearUsageCache st) as (_ & Hclear & _).
  destruct (Hfetch (Sample.snapshot (Sample.t0 + 20 * Sample.minute) 40))
    as (p & env & _ & Hprev & Hcur & _).
  - reflexivity.
  - split; [exact Hprev|]. split; [exact Hcur|]. apply Hclear. reflexivity.
Defined.

(** Two successful fetches followed by [clearUsageCache]: the previous
    snapshot is empty although the current snapshot before the latest
    successful fetch was not, and it was an operation without any fetch that
    changed it. *)
Lemma clearUsageCache_resets_previousUsage :
  let fetches :=
    [CallGetRealtimeUsage (Some 15%Q) (Sample.online Sample.t0 12);
     CallGetRealtimeUsage (Some 15%Q) (Sample.online (Sample.t0 + 20 * Sample.minute) 40)] in
  let st := exec fetches initialCache in
  previousUsage (exec (fetches ++ [CallClearUsageCache]) initialCache)
  <> currentBeforeLatestFetch false (fetches ++ [CallClearUsageCache]) initialCache None
  /\ fetched CallClearUsageCache st = None
  /\ previousUsage (step CallClearUsageCache st) <> previousUsage st.
Proof.
  intros fetches st. repeat split; vm_compute; discriminate.
Qed.

End CacheHistory.

(** ** Runs of the cache: an expired snapshot *)

Section StaleSnapshot.
Import JS OAuth.





(** An interval of 8.67 minutes: the double nearest to 8.67 is below 8.67,
    but the two products are rounded up to 520200.00000000006 milliseconds,
    which a snapshot aged 520200 milliseconds has not reached: it is
    served. *)
Example getRealtimeUsage_interval_rounded_up :
  let p := Double.literal (867 # 100) in
  let st := cacheAfter (getRealtimeUsage (Some p) (Sample.online Sample.t0 12) initialCache) in
  let env := Sample.unauthorized (Sample.t0 + 520200) in
  (p * 60 * 1000 < inject_Z 520200)%Q
  /\ (inject_Z (cacheAgeMs env st) < pollIntervalMs (Some p))%Q
  /\ getRealtimeUsage (Some p) env st = (Some (Sample.snapshot Sample.t0 12), st, []).
Proof.
  cbv zeta. split; [|split].
  - vm_compute. reflexivity.
  - vm_compute. reflexivity.
  - vm_compute. reflexivity.
Qed.

(** The run of the example: absent while the endpoint refuses, then the new
    snapshot. *)
Example poll_expired_then_refreshed :
  let st := exec [CallGetRealtimeUsage (Some 15%Q) (Sample.online Sample.t0 12)] initialCache in
  fst (poll (Some 15%Q)
         [Sample.unauthorized (Sample.t0 + 20 * Sample.minute);
          Sample.online (Sample.t0 + 25 * Sample.minute) 40] st)
  = [None; Some (Sample.snapshot (Sample.t0 + 25 * Sample.minute) 40)].
Proof. reflexivity. Qed.

End StaleSnapshot.

(** ** Sparkline glyphs *)

Section SparklineShape.
Import JS History.

Lemma sparkIndex_mono (v w : Q) : (v <= w)%Q -> sparkIndex v <= sparkIndex w.
Proof.
  intros H. unfold sparkIndex, Math_floor, Math_max, Math_min.
  apply Qfloor_resp_le.
  apply mul_mono_l; [unfold Qle; cbn; lia|].
  apply div_mono_l; [reflexivity|].
  apply Q.max_le_compat_l. apply Q.min_le_compat_l. exact H.
Qed.

Lemma sparkIndex_top (v : Q) : (100 <= v)%Q -> sparkIndex v = 7.
Proof.
  intros H. unfold sparkIndex, Math_floor, Math_max, Math_min.
  assert (E : (Qmax 0 (Qmin 100 v) == 100)%Q).
  { rewrite (Q.min_l 100 v) by exact H. apply Q.max_r. unfold Qle; cbn; lia. }
  unfold Double.div.
  rewrite (round_comp (Qmax 0 (Qmin 100 v) / 100) (100 / 100)) by (rewrite E; reflexivity).
  vm_compute. reflexivity.
Qed.

Lemma sparkIndex_bottom (v : Q) : (v <= 0)%Q -> sparkIndex v = 0.
Proof.
  intros H. unfold sparkIndex, Math_floor, Math_max, Math_min.
  assert (E : (Qmax 0 (Qmin 100 v) == 0)%Q).
  { apply Q.max_l. apply Qle_trans with v; [apply Q.le_min_r | exact H]. }
  unfold Double.div.
  rewrite (round_comp (Qmax 0 (Qmin 100 v) / 100) (0 / 100)) by (rewrite E; reflexivity).
  vm_compute. reflexivity.
Qed.

(** Between two doubles that are next to each other there is no double. *)
Lemma double_below (M e : Z) (v : Q) :
  2 ^ 52 <= M -> M + 1 <= 2 ^ 53 -> -1074 <= e ->
  (Double.round v == v)%Q ->
  (v < inject_Z (M + 1) * Double.pow2 e)%Q ->
  (v <= inject_Z M * Double.pow2 e)%Q.
Proof.
  intros HM1 HM2 He Hv Hlt.
  apply Qnot_lt_le. intros Hgt.
  pose proof (pow2_pos e) as Pe.
  assert (Hlo : (Double.pow2 (52 + e) <= inject_Z M * Double.pow2 e)%Q).
  { rewrite pow2_plus. apply Qmult_le_compat_r; [|apply Qlt_le_weak; exact Pe].
    rewrite pow2_Z by lia. rewrite <- Zle_Qle. exact HM1. }
  assert (Hhi : (inject_Z (M + 1) * Double.pow2 e <= Double.pow2 (52 + e + 1))%Q).
  { replace (52 + e + 1) with (53 + e) by ring. rewrite pow2_plus.
    apply Qmult_le_compat_r; [|apply Qlt_le_weak; exact Pe].
    rewrite pow2_Z by lia. rewrite <- Zle_Qle. exact HM2. }
  pose proof (Qred_correct v) as Rv.
  assert (Hpos : (0 < v)%Q).
  { apply Qlt_trans with (inject_Z M * Double.pow2 e)%Q; [|exact Hgt].
    apply Qlt_le_trans with (Double.pow2 (52 + e)); [apply pow2_pos | exact Hlo]. }
  assert (Hk : Double.ilog2 (Qred v) = 52 + e).
  { apply ilog2_unique; rewrite Rv.
    - apply Qle_trans with (inject_Z M * Double.pow2 e)%Q;
        [exact Hlo | apply Qlt_le_weak; exact Hgt].
    - apply Qlt_le_trans with (inject_Z (M + 1) * Double.pow2 e)%Q; assumption. }
  rewrite (round_pos v Hpos) in Hv. unfold Double.roundPos, Double.exponent in Hv.
  cbv zeta in Hv. rewrite Hk in Hv.
  replace (Z.max (52 + e - 52) (-1074)) with e in Hv by lia.
  set (n := Double.rne (Qred v / Double.pow2 e)) in Hv.
  rewrite <- Hv in Hgt, Hlt.
  apply Qmult_lt_r in Hgt; [|exact Pe]. apply Qmult_lt_r in Hlt; [|exact Pe].
  rewrite <- Zlt_Qlt in Hgt, Hlt. lia.
Qed.

Lemma bucketStart_index (k : Z) : 1 <= k <= 7 -> sparkIndex (bucketStart k) = k.
Proof.
  intros Hk.
  assert (C : k = 1 \/ k = 2 \/ k = 3 \/ k = 4 \/ k = 5 \/ k = 6 \/ k = 7) by lia.
  destruct C as [->|[->|[->|[->|[->|[->| ->]]]]]]; vm_compute; reflexivity.
Qed.

(** The double just below the start of a bucket has the glyph before. *)
Lemma bucketStart_pred_index (k : Z) :
  1 <= k <= 7 ->
  sparkIndex (inject_Z (bucketSignificand k - 1) * Double.pow2 (bucketExponent k))%Q
  = k - 1.
Proof.
  intros Hk.
  assert (C : k = 1 \/ k = 2 \/ k = 3 \/ k = 4 \/ k = 5 \/ k = 6 \/ k = 7) by lia.
  destruct C as [->|[->|[->|[->|[->|[->| ->]]]]]]; vm_compute; reflexivity.
Qed.

Lemma bucketSignificand_range (k : Z) :
  1 <= k <= 7 ->
  2 ^ 52 <= bucketSignificand k - 1 /\ bucketSignificand k <= 2 ^ 53
  /\ -1074 <= bucketExponent k.
Proof.
  intros Hk.
  assert (C : k = 1 \/ k = 2 \/ k = 3 \/ k = 4 \/ k = 5 \/ k = 6 \/ k = 7) by lia.
  destruct C as [->|[->|[->|[->|[->|[->| ->]]]]]]; vm_compute; repeat split; discriminate.
Qed.

(** X1.  The glyph never goes down when the value goes up; values of 0 or
    less take the lowest glyph and values of 100 or more the highest.  For a
    value that is a double, the glyph has index [k] or more exactly from
    [bucketStart k] on: the buckets of the doubles start at 14.285714285714285,
    28.57142857142857, 42.857142857142854, 57.14285714285714,
    71.42857142857143, 85.71428571428571 and 100, so that 99.9 still takes
    the seventh glyph (index 6). *)
Theorem sparkIndex_buckets (v w : Q) :
  ((v <= w)%Q -> sparkIndex v <= sparkIndex w)
  /\ ((v <= 0)%Q -> sparkIndex v = 0)
  /\ ((100 <= v)%Q -> sparkIndex v = 7)
  /\ ((Double.round v == v)%Q ->
      forall k : Z, 1 <= k <= 7 -> (k <= sparkIndex v <-> (bucketStart k <= v)%Q)).
Proof.
  split; [apply sparkIndex_mono|]. split; [apply sparkIndex_bottom|].
  split; [apply sparkIndex_top|].
  intros Hv k Hk. split.
  - intros Hidx. apply Qnot_lt_le. intros Hlt.
    destruct (bucketSignificand_range k Hk) as (HM1 & HM2 & He).
    assert (Hbelow : (v <= inject_Z (bucketSignificand k - 1)
                            * Double.pow2 (bucketExponent k))%Q).
    { apply double_below; [exact HM1 | lia | exact He | exact Hv |].
      replace (bucketSignificand k - 1 + 1) with (bucketSignificand k) by ring.
      exact Hlt. }
    apply sparkIndex_mono in Hbelow.
    rewrite (bucketStart_pred_index k Hk) in Hbelow. lia.
  - intros Hge. apply sparkIndex_mono in Hge.
    rewrite (bucketStart_index k Hk) in Hge. exact Hge.
Qed.

(** The double nearest to 99.9 lies between the starts of the last two
    buckets. *)
Lemma sparkIndex_buckets_witness :
  let v := Double.literal (999 # 10) in
  sparkIndex (25 # 1) <= sparkIndex v
  /\ sparkIndex (-(10 # 1)) = 0
  /\ sparkIndex (1000 # 1) = 7
  /\ 6 <= sparkIndex v
  /\ ~ 7 <= sparkIndex v.
Proof.
  intros v.
  destruct (sparkIndex_buckets (25 # 1) v) as (Hmono & _ & _ & _).
  destruct (sparkIndex_buckets (-(10 # 1)) 0) as (_ & Hbot & _ & _).
  destruct (sparkIndex_buckets (1000 # 1) 0) as (_ & _ & Htop & _).
  destruct (sparkIndex_buckets v 0) as (_ & _ & _ & Hdouble).
  assert (Hv : (Double.round v == v)%Q) by (apply Qeq_bool_iff; vm_compute; reflexivity).
  split; [apply Hmono; vm_compute; discriminate|].
  split; [apply Hbot; vm_compute; discriminate|].
  split; [apply Htop; vm_compute; discriminate|].
  split.
  - apply (Hdouble Hv 6); [lia|]. vm_compute. discriminate.
  - intros H. apply (Hdouble Hv 7) in H; [|lia]. vm_compute in H. apply H. reflexivity.
Defined.

(** The values next to the boundary between the first two glyphs: one
    seventh of 100 lies between two doubles, and the lower of them already
    takes the second glyph. *)
Example sparkIndex_seventh :
  (bucketStart 1 < 100 # 7)%Q
  /\ sparkIndex (bucketStart 1) = 1
  /\ Math_floor (bucketStart 1 / 100 * 7)%Q = 0
  /\ glyph (Double.literal (999 # 10)) = 0x2587%N.
Proof. repeat split; vm_compute; reflexivity. Qed.

Lemma length_filterNonNull (samples : list (option Q)) :
  (List.length (filterNonNull samples) <= List.length samples)%nat.
Proof.
  induction samples as [|[v|] l IH]; cbn [filterNonNull List.length]; lia.
Qed.

(** X2.  For a width of at least 1 the sparkline has one code unit per kept
    value: as many as there are present values, but at most [width]; and each
    of them is one of the eight glyphs. *)
Theorem getSparkline_length (samples : list (option Q)) (width : Z) :
  1 <= width ->
  List.length (getSparkline samples width)
  = Nat.min (Z.to_nat width) (List.length (filterNonNull samples))
  /\ Forall (fun c => In c SPARKLINE_CHARS) (getSparkline samples width).
Proof.
  intros Hw. rewrite getSparkline_positive_width by lia. split.
  - rewrite length_map. unfold lastn. rewrite length_skipn. lia.
  - apply Forall_forall. intros c Hc. apply in_map_iff in Hc.
    destruct Hc as (v & <- & _). unfold glyph.
    pose proof (sparkIndex_range v) as Hr.
    apply nth_In. cbn [SPARKLINE_CHARS List.length]. lia.
Qed.

Lemma getSparkline_length_witness :
  List.length (getSparkline [Some 10; None; Some 20; Some 30]%Q 2) = 2%nat.
Proof.
  apply (getSparkline_length [Some 10; None; Some 20; Some 30]%Q 2). lia.
Defined.

End SparklineShape.

(** ** The history file *)

Section HistoryFileFacts.
Import JS History HistoryStore.

Lemma pruneOldSamples_app (now : Z) (l1 l2 : list UsageSample) :
  samples (pruneOldSamples now {| samples := l1 ++ l2 |})
  = samples (pruneOldSamples now {| samples := l1 |})
    ++ samples (pruneOldSamples now {| samples := l2 |}).
Proof. unfold pruneOldSamples. cbn [samples]. apply filter_app. Qed.

Lemma pruneOldSamples_recent (now : Z) (data : HistoryData) :
  Forall (fun s => now - MAX_HISTORY_AGE_MS < timestamp s)
    (samples (pruneOldSamples now data)).
Proof.
  apply Forall_forall. intros s Hs. unfold pruneOldSamples in Hs. cbn [samples] in Hs.
  apply filter_In in Hs. destruct Hs as [_ Hs]. lia.
Qed.

Lemma saveHistory_written (mkdirOk : bool) (data : HistoryData) (d : Disk) :
  dirExists d = true \/ mkdirOk = true ->
  saveHistory mkdirOk WriteSucceeds data d
  = {| dirExists := true; file := Stored data |}.
Proof.
  intros H. unfold saveHistory.
  destruct (dirExists d), mkdirOk, H; try discriminate; reflexivity.
Qed.

(** X3.  When the write goes through, [addSample] leaves on disk the earlier
    samples that are less than 24 hours old, in their order, followed by the
    new sample; nothing on disk is 24 hours old or older; and a missing or
    unreadable file counts as an empty history. *)
Theorem addSample_stores (now pruneNow : Z) (mkdirOk : bool) (b w : option Q)
    (d : Disk) (old : list UsageSample) :
  loadHistory d = WithSamples old ->
  dirExists d = true \/ mkdirOk = true ->
  pruneNow - MAX_HISTORY_AGE_MS < now ->
  let kept := samples (pruneOldSamples pruneNow {| samples := old |}) in
  addSample now pruneNow mkdirOk WriteSucceeds b w d
  = Returns {| dirExists := true;
               file := Stored {| samples := kept ++ [newSample now b w] |} |}
  /\ Forall (fun s => pruneNow - MAX_HISTORY_AGE_MS < timestamp s)
       (kept ++ [newSample now b w])
  /\ (forall s, In s kept <-> In s old /\ pruneNow - MAX_HISTORY_AGE_MS < timestamp s)
  /\ (file d = NoFile \/ file d = Unreadable -> kept = []).
Proof.
  intros Hload Hdir Hnew kept.
  assert (Hkeepnew : samples (pruneOldSamples pruneNow {| samples := [newSample now b w] |})
                     = [newSample now b w]).
  { unfold pruneOldSamples. cbn [samples filter newSample timestamp].
    destruct (Z.gtb_spec now (pruneNow - MAX_HISTORY_AGE_MS)); [reflexivity | lia]. }
  split; [|split; [|split]].
  - unfold addSample. rewrite Hload. fold (newSample now b w).
    rewrite saveHistory_written by exact Hdir.
    do 3 f_equal. unfold kept.
    pose proof (pruneOldSamples_app pruneNow old [newSample now b w]) as Happ.
    rewrite Hkeepnew in Happ. rewrite <- Happ.
    unfold pruneOldSamples. reflexivity.
  - apply Forall_app. split; [apply pruneOldSamples_recent|].
    constructor; [exact Hnew | constructor].
  - intros s. unfold kept, pruneOldSamples. cbn [samples]. rewrite filter_In.
    split; intros [Hin Hs]; (split; [exact Hin | lia]).
  - intros Hfile. unfold loadHistory in Hload.
    destruct Hfile as [Hf|Hf]; rewrite Hf in Hload; injection Hload as <-; reflexivity.
Qed.

Lemma addSample_stores_witness :
  let d := {| dirExists := false; file := NoFile |} in
  addSample Sample.t0 (Sample.t0 + 5) true WriteSucceeds (Some 12%Q) None d
  = Returns {| dirExists := true;
               file := Stored {| samples := [newSample Sample.t0 (Some 12%Q) None] |} |}.
Proof.
  intros d.
  refine (proj1 (addSample_stores Sample.t0 (Sample.t0 + 5) true (Some 12%Q) None d []
                   eq_refl _ _)).
  - right. reflexivity.
  - vm_compute. reflexivity.
Defined.

(** X4.  A failing write is swallowed: [addSample] returns.  If the
    directory is missing and cannot be made, the disk is left exactly as it
    was.  Otherwise, if the history file cannot be opened for writing, it
    holds what it held before; if the write fails after the file was opened,
    which truncates it, the earlier samples are lost: the file is left
    unreadable and the history reads as empty from then on. *)
Theorem addSample_write_failure (now pruneNow : Z) (mkdirOk : bool) (write : WriteOutcome)
    (b w : option Q) (d : Disk) :
  file d <> OtherJson ->
  write <> WriteSucceeds \/ (dirExists d = false /\ mkdirOk = false) ->
  exists d' : Disk,
    addSample now pruneNow mkdirOk write b w d = Returns d'
    /\ (dirExists d = false -> mkdirOk = false -> d' = d)
    /\ (dirExists d = true \/ mkdirOk = true ->
        (write = WriteFailsAtOpen -> d' = {| dirExists := true; file := file d |})
        /\ (write = WriteFailsAfterOpen ->
            d' = {| dirExists := true; file := Unreadable |}
            /\ loadHistory d' = WithSamples []))
    /\ (file d' = file d \/ file d' = Unreadable).
Proof.
  intros Hjson Hfail. unfold addSample.
  destruct (loadHistory d) as [old|] eqn:Hload.
  - eexists. split; [reflexivity|]. unfold saveHistory.
    destruct d as [dir f]. cbn [dirExists file] in *.
    destruct dir, mkdirOk, write; cbn [negb andb dirExists file];
      (split; [intros; try discriminate; reflexivity|]);
      (split;
       [ intros Hdir; split; intros Hw; try discriminate;
         try (destruct Hdir; discriminate); try (split; reflexivity); reflexivity
       | ]);
      try (left; reflexivity); try (right; reflexivity);
      destruct Hfail as [Hw | [Hd Hm]]; try discriminate; now elim Hw.
  - unfold loadHistory in Hload. destruct (file d); try discriminate. now elim Hjson.
Qed.

(** The disk is full: the file that held one sample is left unreadable. *)
Lemma addSample_write_failure_witness :
  let d := {| dirExists := true;
              file := Stored {| samples := [newSample Sample.t0 (Some 12%Q) None] |} |} in
  exists d' : Disk,
    addSample (Sample.t0 + 9) (Sample.t0 + 9) true WriteFailsAfterOpen None None d
    = Returns d'
    /\ d' = {| dirExists := true; file := Unreadable |}
    /\ loadHistory d' = WithSamples [].
Proof.
  intros d.
  destruct (addSample_write_failure (Sample.t0 + 9) (Sample.t0 + 9) true
              WriteFailsAfterOpen None None d)
    as (d' & Hret & _ & Hopen & _).
  - discriminate.
  - left. discriminate.
  - exists d'. split; [exact Hret|].
    apply (proj2 (Hopen (or_introl eq_refl))). reflexivity.
Defined.

(** The file cannot be opened for writing: it keeps its sample. *)
Example addSample_write_refused :
  let d := {| dirExists := true;
              file := Stored {| samples := [newSample Sample.t0 (Some 12%Q) None] |} |} in
  addSample (Sample.t0 + 9) (Sample.t0 + 9) true WriteFailsAtOpen None None d = Returns d.
Proof. reflexivity. Qed.

(** X5.  A history file that holds valid JSON without a [samples] array is
    not treated as empty: [addSample] and both sparkline readers throw. *)
Theorem foreign_history_throws (now pruneNow width : Z) (mkdirOk : bool)
    (write : WriteOutcome) (b w : option Q) (d : Disk) :
  file d = OtherJson ->
  addSample now pruneNow mkdirOk write b w d = ThrowsTypeError
  /\ getBlockSparkline width d = ThrowsTypeError
  /\ getWeeklySparkline width d = ThrowsTypeError.
Proof.
  intros H. unfold addSample, getBlockSparkline, getWeeklySparkline, loadHistory.
  rewrite H. repeat split.
Qed.

Lemma foreign_history_throws_witness :
  addSample Sample.t0 Sample.t0 true WriteSucceeds None None
    {| dirExists := true; file := OtherJson |} = ThrowsTypeError.
Proof.
  refine (proj1 (foreign_history_throws Sample.t0 Sample.t0 5 true WriteSucceeds None None
                   {| dirExists := true; file := OtherJson |} eq_refl)).
Defined.

(** X6.  Pruning at a later time absorbs an earlier pruning, and pruning twice
    at the same time changes nothing more. *)
Theorem pruneOldSamples_absorbs (t1 t2 : Z) (data : HistoryData) :
  t1 <= t2 ->
  pruneOldSamples t2 (pruneOldSamples t1 data) = pruneOldSamples t2 data
  /\ pruneOldSamples t2 (pruneOldSamples t2 data) = pruneOldSamples t2 data.
Proof.
  intros Hle.
  assert (H : forall a c l, a <= c ->
            filter (fun s => timestamp s >? c - MAX_HISTORY_AGE_MS)
              (filter (fun s => timestamp s >? a - MAX_HISTORY_AGE_MS) l)
            = filter (fun s => timestamp s >? c - MAX_HISTORY_AGE_MS) l).
  { intros a c l Hac. induction l as [|s l IH]; [reflexivity|].
    cbn [filter].
    destruct (Z.gtb_spec (timestamp s) (a - MAX_HISTORY_AGE_MS)) as [Ha|Ha];
      destruct (Z.gtb_spec (timestamp s) (c - MAX_HISTORY_AGE_MS)) as [Hc|Hc];
      cbn [filter]; try lia.
    - destruct (Z.gtb_spec (timestamp s) (c - MAX_HISTORY_AGE_MS)); [|lia].
      now rewrite IH.
    - destruct (Z.gtb_spec (timestamp s) (c - MAX_HISTORY_AGE_MS)); [lia|].
      exact IH.
    - exact IH. }
  unfold pruneOldSamples. cbn [samples]. split; f_equal; apply H; lia.
Qed.

Lemma pruneOldSamples_absorbs_witness :
  let data := {| samples := [newSample 0 None None; newSample Sample.t0 None None] |} in
  pruneOldSamples (Sample.t0 + 9) (pruneOldSamples Sample.t0 data)
  = pruneOldSamples (Sample.t0 + 9) data.
Proof.
  intros data.
  refine (proj1 (pruneOldSamples_absorbs Sample.t0 (Sample.t0 + 9) data _)).
  vm_compute. discriminate.
Defined.

Lemma StronglySorted_filter {A : Type} (R : A -> A -> Prop) (f : A -> bool) (l : list A) :
  StronglySorted R l -> StronglySorted R (filter f l).
Proof.
  induction 1 as [|a l Hs IH Ha]; cbn [filter]; [constructor|].
  destruct (f a); [|exact IH].
  constructor; [exact IH|].
  apply Forall_forall. intros x Hx. apply filter_In in Hx.
  rewrite Forall_forall in Ha. now apply Ha.
Qed.

Lemma StronglySorted_snoc {A : Type} (R : A -> A -> Prop) (l : list A) (x : A) :
  StronglySorted R l -> Forall (fun a => R a x) l -> StronglySorted R (l ++ [x]).
Proof.
  induction 1 as [|a l Hs IH Ha]; intros Hx; cbn [app].
  - constructor; constructor.
  - inversion Hx as [|? ? Hax Hlx]; subst.
    constructor; [now apply IH|].
    apply Forall_app. split; [exact Ha | now constructor].
Qed.

(** X7.  The history stays in time order: if the stored samples are in
    non-decreasing order of timestamp and none is later than the clock
    reading of the new sample, the samples [addSample] stores are again in
    non-decreasing order and none is later than that reading. *)
Theorem addSample_keeps_order (now pruneNow : Z) (mkdirOk : bool) (b w : option Q)
    (d : Disk) (old : list UsageSample) :
  loadHistory d = WithSamples old ->
  dirExists d = true \/ mkdirOk = true ->
  StronglySorted (fun s s' => timestamp s <= timestamp s') old ->
  Forall (fun s => timestamp s <= now) old ->
  exists stored : list UsageSample,
    addSample now pruneNow mkdirOk WriteSucceeds b w d
    = Returns {| dirExists := true; file := Stored {| samples := stored |} |}
    /\ StronglySorted (fun s s' => timestamp s <= timestamp s') stored
    /\ Forall (fun s => timestamp s <= now) stored.
Proof.
  intros Hload Hdir Hsorted Hpast.
  unfold addSample. rewrite Hload. rewrite saveHistory_written by exact Hdir.
  unfold pruneOldSamples. cbn [samples]. eexists. split; [reflexivity|]. split.
  - apply StronglySorted_filter. apply StronglySorted_snoc; [exact Hsorted|].
    exact Hpast.
  - apply Forall_forall. intros s Hs. apply filter_In in Hs. destruct Hs as [Hs _].
    apply in_app_or in Hs. destruct Hs as [Hs|[<-|[]]].
    + rewrite Forall_forall in Hpast. now apply Hpast.
    + cbn [timestamp]. lia.
Qed.

Lemma addSample_keeps_order_witness :
  let d := {| dirExists := true;
              file := Stored {| samples := [newSample Sample.t0 (Some 12%Q) None] |} |} in
  exists stored : list UsageSample,
    addSample (Sample.t0 + 9) (Sample.t0 + 9) true WriteSucceeds None None d
    = Returns {| dirExists := true; file := Stored {| samples := stored |} |}
    /\ StronglySorted (fun s s' => timestamp s <= timestamp s') stored
    /\ Forall (fun s => timestamp s <= Sample.t0 + 9) stored.
Proof.
  intros d.
  apply (addSample_keeps_order (Sample.t0 + 9) (Sample.t0 + 9) true None None d
           [newSample Sample.t0 (Some 12%Q) None]).
  - reflexivity.
  - left. reflexivity.
  - repeat constructor.
  - repeat constructor; vm_compute; discriminate.
Defined.

End HistoryFileFacts.

(** ** More on the usage cache *)

Section CacheFacts.
Import JS OAuth CacheSpec.

Lemma getRealtimeUsage_events (p : option Q) (env : Env) (st : Cache) :
  let events := work (getRealtimeUsage p env st) in
  (events = [] \/ events = [ResolveToken]
   \/ exists token, events = [FetchUsage token] \/ events = [ResolveToken; FetchUsage token])
  /\ forall token, In (FetchUsage token) events ->
       token <> EmptyString
       /\ (cachedToken st = Some token
           \/ (truthy_token (cachedToken st) = false /\ getOAuthToken env = Some token)).
Proof.
  cbn zeta. unfold getRealtimeUsage.
  destruct (cacheFresh p env st).
  { cbn [work snd]. split; [now left | intros token []]. }
  destruct (truthy_token (cachedToken st)) eqn:Htruthy.
  - destruct (cachedToken st) as [tk|] eqn:Hc; [|discriminate].
    cbn [truthy_token] in Htruthy. apply negb_true_iff in Htruthy. rewrite Htruthy.
    assert (Hne : tk <> EmptyString) by (now apply String.eqb_neq).
    destruct (fetchUsageFromAPI env tk); cbn [work snd app];
      (split; [right; right; exists tk; now left|]);
      intros token [H|[]]; injection H as <-; (split; [exact Hne | now left]).
  - cbn [cachedToken setCachedToken].
    destruct (getOAuthToken env) as [tk|] eqn:Hr.
    + destruct (String.eqb tk EmptyString) eqn:He.
      * cbn [work snd]. split; [right; now left|].
        intros token [H|[]]; discriminate.
      * assert (Hne : tk <> EmptyString) by (now apply String.eqb_neq).
        destruct (fetchUsageFromAPI env tk); cbn [work snd app];
          (split; [right; right; exists tk; now right|]);
          intros token [H|[H|[]]]; try discriminate; injection H as <-;
          (split; [exact Hne | right; now split]).
    + cbn [work snd]. split; [right; now left|].
      intros token [H|[]]; discriminate.
Qed.

(** X8.  A call does at most one credential resolution and at most one fetch,
    the resolution first.  The token a fetch is made with is not empty: it is
    the cached token when there is one, and the token just resolved
    otherwise. *)
Theorem getRealtimeUsage_work (p : option Q) (env : Env) (st : Cache) :
  let events := work (getRealtimeUsage p env st) in
  (events = [] \/ events = [ResolveToken]
   \/ exists token, events = [FetchUsage token] \/ events = [ResolveToken; FetchUsage token])
  /\ forall token, In (FetchUsage token) events ->
       token <> EmptyString
       /\ (cachedToken st = Some token
           \/ (truthy_token (cachedToken st) = false /\ getOAuthToken env = Some token)).
Proof. exact (getRealtimeUsage_events p env st). Qed.

Lemma getRealtimeUsage_work_witness :
  let st := exec [CallGetRealtimeUsage (Some 15%Q) (Sample.online Sample.t0 12)] initialCache in
  let env := Sample.online (Sample.t0 + 20 * Sample.minute) 40 in
  Sample.token <> EmptyString /\ cachedToken st = Some Sample.token.
Proof.
  intros st env.
  destruct (proj2 (getRealtimeUsage_work (Some 15%Q) env st) Sample.token)
    as [Hne [Hc|[Hf _]]].
  - vm_compute. left. reflexivity.
  - split; assumption.
  - discriminate.
Defined.

Lemma cachedToken_after (p : option Q) (env : Env) (st : Cache) :
  let token' := cachedToken (cacheAfter (getRealtimeUsage p env st)) in
  token' = cachedToken st \/ token' = getOAuthToken env \/ token' = None.
Proof.
  cbn zeta. unfold getRealtimeUsage.
  destruct (cacheFresh p env st); [now left|].
  destruct (truthy_token (cachedToken st)).
  - destruct (cachedToken st) as [tk|] eqn:Hc;
      [|left; cbn [cacheAfter fst snd]; exact Hc].
    destruct (String.eqb tk EmptyString);
      [left; cbn [cacheAfter fst snd]; exact Hc|].
    destruct (fetchUsageFromAPI env tk); cbn [cacheAfter fst snd cachedToken setCachedToken];
      [left; rewrite ?Hc; reflexivity | right; now right].
  - cbn [cachedToken setCachedToken].
    destruct (getOAuthToken env) as [tk|]; [|right; now left].
    destruct (String.eqb tk EmptyString); [right; now left|].
    destruct (fetchUsageFromAPI env tk); cbn [cacheAfter fst snd cachedToken setCachedToken];
      [right; now left | right; now right].
Qed.

(** X9.  Without a cached token and with a resolution that finds none, a call
    that cannot be served from the cache returns absent after the resolution
    alone: no fetch is made and the cache is left exactly as it was. *)
Theorem getRealtimeUsage_no_token (p : option Q) (env : Env) (st : Cache) :
  cacheFresh p env st = false ->
  cachedToken st = None ->
  getOAuthToken env = None ->
  getRealtimeUsage p env st = (None, st, [ResolveToken]).
Proof.
  intros Hmiss Hc Hr. unfold getRealtimeUsage. rewrite Hmiss, Hc.
  cbn [truthy_token cachedToken setCachedToken]. rewrite Hr.
  destruct st; cbn in *; subst; reflexivity.
Qed.

Lemma getRealtimeUsage_no_token_witness :
  let env := {| Date_now := Sample.t0; Date_parse := Sample.parse;
                clock := fun _ => Sample.t0; getOAuthToken := None;
                http := fun _ => Threw |} in
  getRealtimeUsage None env initialCache = (None, initialCache, [ResolveToken]).
Proof.
  intros env.
  apply (getRealtimeUsage_no_token None env initialCache); reflexivity.
Defined.

Lemma fetchUsageFromAPI_derivedOverLimit (env : Env) (token : string)
    (u : OAuthUsageResponse) :
  fetchUsageFromAPI env token = Some u -> derivedOverLimit u.
Proof.
  unfold fetchUsageFromAPI. intros H.
  destruct (http env token) as [|ok json]; [discriminate|].
  destruct ok; [|discriminate]. destruct json as [data|]; [|discriminate].
  cbn [negb] in H. injection H as <-.
  assert (Hblock : forall w block d,
            parseUsageBlock env w block = Some d ->
            (isOverLimit d = true <-> (100 <= percentUsed d)%Q)).
  { intros w block d Hd. destruct block as [| |b]; try discriminate.
    cbn [parseUsageBlock] in Hd. injection Hd as <-.
    cbn [isOverLimit percentUsed]. apply geb_le. }
  intros w d Hd.
  destruct w; cbn [usageWindow fiveHour sevenDay sevenDayOpus sevenDaySonnet] in Hd;
    eapply Hblock; exact Hd.
Qed.

Lemma cacheInvariant_setCachedToken (tk : option string) (st : Cache) :
  cacheInvariant st -> cacheInvariant (setCachedToken tk st).
Proof. intros H. exact H. Qed.

Lemma cacheInvariant_step (op : Op) (st : Cache) :
  cacheInvariant st -> cacheInvariant (step op st).
Proof.
  intros Hst.
  destruct op as [p env| |]; cbn [step].
  - destruct (cacheFresh p env st) eqn:Hf.
    + rewrite (getRealtimeUsage_fresh _ _ _ Hf). exact Hst.
    + destruct (getRealtimeUsage_not_fresh p env st Hf)
        as (resolved & Hres & [(tk & E) | [(token & Hfail & E) | (token & u & Hok & E)]]);
        rewrite E; cbn [cacheAfter fst snd].
      * now apply cacheInvariant_setCachedToken.
      * now apply cacheInvariant_setCachedToken.
      * destruct Hst as (Hnone & Hcur & Hprev).
        split; [|split]; cbn [cachedUsage previousUsage cacheTimestamp].
        -- discriminate.
        -- intros u' Hu'. injection Hu' as <-.
           exact (fetchUsageFromAPI_derivedOverLimit env token u Hok).
        -- exact Hcur.
  - exact Hst.
  - split; [|split]; cbn [clearUsageCache cachedUsage previousUsage cacheTimestamp].
    + intros _. split; reflexivity.
    + discriminate.
    + discriminate.
Qed.

(** X10.  In every cache state reached from the initial one: while there is no
    current snapshot there is no previous one either and the timestamp is 0;
    and in both snapshots every window's [isOverLimit] says whether its
    [percentUsed] is at least 100. *)
Theorem reachable_cache_invariant (ops : list Op) :
  let st := exec ops initialCache in
  (cachedUsage st = None -> previousUsage st = None /\ cacheTimestamp st = 0)
  /\ (forall u w d,
        cachedUsage st = Some u \/ previousUsage st = Some u ->
        usageWindow w u = Some d ->
        (isOverLimit d = true <-> (100 <= percentUsed d)%Q)).
Proof.
  cbn zeta.
  assert (H : forall st, cacheInvariant st -> cacheInvariant (exec ops st)).
  { induction ops as [|op ops IH]; intros st Hst; [exact Hst|].
    cbn [exec fold_left]. apply IH. now apply cacheInvariant_step. }
  destruct (H initialCache) as (Hnone & Hcur & Hprev).
  { split; [|split]; cbn [initialCache cachedUsage previousUsage cacheTimestamp].
    - intros _. split; reflexivity.
    - discriminate.
    - discriminate. }
  split; [exact Hnone|].
  intros u w d [Hu|Hu] Hd; [apply (Hcur u Hu w d Hd) | apply (Hprev u Hu w d Hd)].
Qed.

Lemma reachable_cache_invariant_witness :
  let st := exec [CallGetRealtimeUsage (Some 15%Q) (Sample.online Sample.t0 100)]
              initialCache in
  let d := {| resetAt := ValidDate Sample.t0; percentUsed := 100; isOverLimit := true |} in
  cachedUsage st = Some (Sample.snapshot Sample.t0 100)
  /\ (isOverLimit d = true <-> (100 <= percentUsed d)%Q).
Proof.
  intros st d. split; [reflexivity|].
  apply (proj2 (reachable_cache_invariant
                  [CallGetRealtimeUsage (Some 15%Q) (Sample.online Sample.t0 100)])
           (Sample.snapshot Sample.t0 100) FiveHour d).
  - left. reflexivity.
  - reflexivity.
Defined.

(** X11.  At the start and after [clearUsageCache], one call is never enough
    for a trend: after it every dimension's trend is still absent. *)
Theorem trend_needs_two_fetches (st : Cache) (p : option Q) (env : Env) (w : Window) :
  trendOf w (getUsageTrend (clearUsageCache st)) = None
  /\ trendOf w (getUsageTrend (cacheAfter (getRealtimeUsage p env (clearUsageCache st))))
     = None.
Proof.
  split; [destruct w; reflexivity|].
  apply trendOf_getUsageTrend_no_snapshot. right.
  change (clearUsageCache st) with initialCache.
  destruct (step_cases (CallGetRealtimeUsage p env) initialCache) as (Hfetch & _ & Hother).
  cbn [step] in *.
  destruct (fetched (CallGetRealtimeUsage p env) initialCache) as [u|] eqn:Hf.
  - destruct (Hfetch u eq_refl) as (_ & _ & _ & Hprev & _). exact Hprev.
  - destruct Hother as (Hprev & _); [reflexivity | discriminate | exact Hprev].
Qed.

Lemma compareTrend_up_iff (c p : UsageData) :
  compareTrend (Some c) (Some p) = Some up
  <-> ((1 # 2) < Double.sub (percentUsed c) (percentUsed p))%Q.
Proof.
  unfold compareTrend.
  destruct (ltb (1 # 2) (Double.sub (percentUsed c) (percentUsed p))) eqn:Hup.
  - apply ltb_lt in Hup. split; [intros _; exact Hup | reflexivity].
  - apply ltb_ge in Hup. split.
    + destruct (ltb (Double.sub (percentUsed c) (percentUsed p)) (- (1 # 2))); discriminate.
    + intros H. lra.
Qed.

Lemma compareTrend_down_iff (c p : UsageData) :
  compareTrend (Some c) (Some p) = Some down
  <-> (Double.sub (percentUsed c) (percentUsed p) < - (1 # 2))%Q.
Proof.
  unfold compareTrend.
  destruct (ltb (1 # 2) (Double.sub (percentUsed c) (percentUsed p))) eqn:Hup.
  - apply ltb_lt in Hup. split; [discriminate | intros H; lra].
  - destruct (ltb (Double.sub (percentUsed c) (percentUsed p)) (- (1 # 2))) eqn:Hdown.
    + apply ltb_lt in Hdown. split; [intros _; exact Hdown | reflexivity].
    + apply ltb_ge in Hdown. split; [discriminate | intros H; lra].
Qed.

(** X12.  The trend is antisymmetric: with the two snapshots' windows
    exchanged, [up] becomes [down], [down] becomes [up], and [same] stays
    [same]. *)
Theorem compareTrend_exchange (c p : UsageData) :
  (compareTrend (Some c) (Some p) = Some up <-> compareTrend (Some p) (Some c) = Some down)
  /\ (compareTrend (Some c) (Some p) = Some down <-> compareTrend (Some p) (Some c) = Some up)
  /\ (compareTrend (Some c) (Some p) = Some same <-> compareTrend (Some p) (Some c) = Some same).
Proof.
  assert (Hud : forall a b,
            compareTrend (Some a) (Some b) = Some up
            <-> compareTrend (Some b) (Some a) = Some down).
  { intros a b. rewrite compareTrend_up_iff, compareTrend_down_iff.
    rewrite (sub_exchange (percentUsed a) (percentUsed b)).
    split; intros H; lra. }
  assert (Hsame : forall a b,
            compareTrend (Some a) (Some b) = Some same ->
            compareTrend (Some b) (Some a) = Some same).
  { intros a b H.
    destruct (compareTrend (Some b) (Some a)) as [[| |]|] eqn:E.
    - apply Hud in E. congruence.
    - apply Hud in E. congruence.
    - reflexivity.
    - unfold compareTrend in E.
      destruct (ltb _ _); [discriminate|]. destruct (ltb _ _); discriminate. }
  split; [apply Hud|]. split; [symmetry; apply Hud|].
  split; apply Hsame.
Qed.

Lemma compareTrend_exchange_witness :
  let c := {| resetAt := ValidDate Sample.t0; percentUsed := 40; isOverLimit := false |} in
  let p := {| resetAt := ValidDate Sample.t0; percentUsed := 12; isOverLimit := false |} in
  compareTrend (Some p) (Some c) = Some down.
Proof.
  intros c p.
  apply (proj1 (proj1 (compareTrend_exchange c p))). vm_compute. reflexivity.
Defined.

End CacheFacts.

(** ** Credential resolution *)

Section ResolverFacts.
Import JS Resolver.

Lemma acceptToken_prefix (a : Access) (token : string) :
  acceptToken a = Some token -> hasTokenPrefix token.
Proof.
  unfold acceptToken, hasTokenPrefix. destruct a as [| |[]]; try discriminate.
  destruct (startsWith s TOKEN_PREFIX) eqn:E; [|discriminate].
  intros H. injection H as <-. exact E.
Qed.

Lemma nestedAccessToken_prefix (config : Json) (token : string) :
  nestedAccessToken config = Some (Some token) -> hasTokenPrefix token.
Proof.
  unfold nestedAccessToken.
  destruct (getProperty config "claudeAiOauth") as [| |[]]; try discriminate;
    intros H; injection H as H; exact (acceptToken_prefix _ _ H).
Qed.

Lemma directToken_prefix (keys : list string) (config : Json) (token : string) :
  directToken keys config = Some (Some token) -> hasTokenPrefix token.
Proof.
  induction keys as [|key keys IH]; cbn [directToken]; [discriminate|].
  destruct (getProperty config key) as [| |v] eqn:Hp; [discriminate| |].
  - cbn [acceptToken]. exact IH.
  - destruct (acceptToken (AccessValue v)) as [t|] eqn:Ha; [|exact IH].
    intros H. injection H as <-. exact (acceptToken_prefix _ _ Ha).
Qed.

Lemma tokenFromStdout_prefix (h : Host) (stdout token : string) :
  tokenFromStdout h stdout = Some token -> hasTokenPrefix token.
Proof.
  unfold tokenFromStdout, hasTokenPrefix.
  destruct (negb (String.eqb (trim h stdout) EmptyString)); cbn [andb]; [|discriminate].
  destruct (startsWith (trim h stdout) TOKEN_PREFIX) eqn:E; [|discriminate].
  intros H. injection H as <-. exact E.
Qed.

Lemma nestedInFile_prefix (h : Host) (path : ConfigPath) (token : string) :
  nestedInFile h path = Some token -> hasTokenPrefix token.
Proof.
  unfold nestedInFile. destruct (existsSync h path); [|discriminate].
  destruct (readFileSync h path) as [content|]; [|discriminate].
  destruct (JSON_parse h content) as [config|]; [|discriminate].
  destruct (nestedAccessToken config) as [[t|]|] eqn:E; try discriminate.
  intros H. injection H as <-. exact (nestedAccessToken_prefix _ _ E).
Qed.

Lemma directInFile_prefix (h : Host) (path : ConfigPath) (token : string) :
  directInFile h path = Some token -> hasTokenPrefix token.
Proof.
  unfold directInFile. destruct (existsSync h path); [|discriminate].
  destruct (readFileSync h path) as [content|]; [|discriminate].
  destruct (JSON_parse h content) as [config|]; [|discriminate].
  destruct (directToken DIRECT_KEYS config) as [[t|]|] eqn:E; try discriminate.
  intros H. injection H as <-. exact (directToken_prefix _ _ _ E).
Qed.

Lemma nestedOrDirectInFile_prefix (h : Host) (path : ConfigPath) (token : string) :
  nestedOrDirectInFile h path = Some token -> hasTokenPrefix token.
Proof.
  unfold nestedOrDirectInFile. destruct (existsSync h path); [|discriminate].
  destruct (readFileSync h path) as [content|]; [|discriminate].
  destruct (JSON_parse h content) as [config|]; [|discriminate].
  destruct (nestedAccessToken config) as [[t|]|] eqn:E; try discriminate.
  - intros H. injection H as <-. exact (nestedAccessToken_prefix _ _ E).
  - destruct (directToken DIRECT_KEYS config) as [[t|]|] eqn:E'; try discriminate.
    intros H. injection H as <-. exact (directToken_prefix _ _ _ E').
Qed.

Lemma firstInFiles_prefix (look : ConfigPath -> option string) (paths : list ConfigPath)
    (token : string) :
  (forall path t, look path = Some t -> hasTokenPrefix t) ->
  firstInFiles look paths = Some token -> hasTokenPrefix token.
Proof.
  intros Hlook. induction paths as [|path paths IH]; cbn [firstInFiles]; [discriminate|].
  destruct (look path) as [t|] eqn:E; [|exact IH].
  intros H. injection H as <-. exact (Hlook _ _ E).
Qed.

Lemma extractTokenFromKeychainContent_prefix (h : Host) (content token : string) :
  extractTokenFromKeychainContent h content = Some token -> hasTokenPrefix token.
Proof.
  unfold extractTokenFromKeychainContent.
  destruct (startsWith content "{").
  - destruct (JSON_parse h content) as [parsed|].
    + destruct (nestedAccessToken parsed) as [[t|]|] eqn:E.
      * intros H. injection H as <-. exact (nestedAccessToken_prefix _ _ E).
      * destruct (startsWith content TOKEN_PREFIX) eqn:Hp; [|discriminate].
        intros H. injection H as <-. exact Hp.
      * destruct (startsWith content TOKEN_PREFIX) eqn:Hp; [|discriminate].
        intros H. injection H as <-. exact Hp.
    + destruct (startsWith content TOKEN_PREFIX) eqn:Hp; [|discriminate].
      intros H. injection H as <-. exact Hp.
  - destruct (startsWith content TOKEN_PREFIX) eqn:Hp; [|discriminate].
    intros H. injection H as <-. exact Hp.
Qed.

Lemma getOAuthToken_prefix (h : Host) (token : string) :
  getOAuthToken h = Some token -> hasTokenPrefix token.
Proof.
  unfold getOAuthToken.
  destruct (String.eqb (platform h) "win32"); [|
  destruct (String.eqb (platform h) "darwin"); [|
  destruct (String.eqb (platform h) "linux"); [|discriminate]]].
  - unfold getOAuthTokenWindows.
    destruct (match execAsync h GetStoredCredential with
              | Some stdout => tokenFromStdout h stdout
              | None => None
              end) as [t|] eqn:E.
    + intros H. injection H as <-.
      destruct (execAsync h GetStoredCredential); [|discriminate].
      exact (tokenFromStdout_prefix _ _ _ E).
    + destruct (nestedInFile h HomeClaudeDotCredentials) as [t|] eqn:E'.
      * intros H. injection H as <-. exact (nestedInFile_prefix _ _ _ E').
      * apply firstInFiles_prefix. apply directInFile_prefix.
  - unfold getOAuthTokenMacOS.
    destruct (match readKeychainContent h (findKeychainServiceName h) with
              | Some content => extractTokenFromKeychainContent h content
              | None => None
              end) as [t|] eqn:E.
    + intros H. injection H as <-.
      destruct (readKeychainContent h (findKeychainServiceName h)); [|discriminate].
      exact (extractTokenFromKeychainContent_prefix _ _ _ E).
    + destruct (negb (String.eqb (findKeychainServiceName h) LEGACY_SERVICE)).
      * destruct (readKeychainContent h LEGACY_SERVICE) as [legacy|].
        -- apply extractTokenFromKeychainContent_prefix.
        -- apply firstInFiles_prefix. apply nestedOrDirectInFile_prefix.
      * apply firstInFiles_prefix. apply nestedOrDirectInFile_prefix.
  - unfold getOAuthTokenLinux.
    destruct (match execAsync h SecretToolLookup with
              | Some stdout => tokenFromStdout h stdout
              | None => None
              end) as [t|] eqn:E.
    + intros H. injection H as <-.
      destruct (execAsync h SecretToolLookup); [|discriminate].
      exact (tokenFromStdout_prefix _ _ _ E).
    + apply firstInFiles_prefix. apply nestedOrDirectInFile_prefix.
Qed.

End ResolverFacts.

(** ** What the resolver returns *)

Section ResolverResults.
Import JS Resolver.

Lemma hasTokenPrefix_nonempty (token : string) : hasTokenPrefix token -> token <> EmptyString.
Proof. intros H ->. discriminate H. Qed.

(** X13.  Whatever the host holds, a token that [getOAuthToken] returns starts
    with [sk-ant-oat] (so it is not empty); and on a platform other than
    win32, darwin and linux the result is absent. *)
Theorem getOAuthToken_accepts_only_tokens (h : Host) :
  (forall token, getOAuthToken h = Some token ->
     startsWith token TOKEN_PREFIX = true /\ token <> EmptyString)
  /\ (platform h <> "win32"%string -> platform h <> "darwin"%string ->
      platform h <> "linux"%string -> getOAuthToken h = None).
Proof.
  split.
  - intros token H. pose proof (getOAuthToken_prefix h token H) as Hp.
    split; [exact Hp | exact (hasTokenPrefix_nonempty token Hp)].
  - intros Hw Hd Hl. unfold getOAuthToken.
    apply String.eqb_neq in Hw, Hd, Hl. now rewrite Hw, Hd, Hl.
Qed.

Lemma getOAuthToken_accepts_only_tokens_witness :
  startsWith Sample.token TOKEN_PREFIX = true
  /\ getOAuthToken (SampleHost.fileOnly "freebsd") = None.
Proof.
  destruct (getOAuthToken_accepts_only_tokens (SampleHost.fileOnly "linux")) as [Hacc _].
  destruct (getOAuthToken_accepts_only_tokens (SampleHost.fileOnly "freebsd")) as [_ Hnone].
  split.
  - apply (Hacc Sample.token). reflexivity.
  - apply Hnone; discriminate.
Defined.

(** X14.  A token under a direct key of ~/.claude/.credentials.json is found on
    Linux but not on Windows: when the secret store gives nothing and that
    file is the only credential file, the Linux resolver returns the token
    and the Windows resolver, which reads only [claudeAiOauth.accessToken]
    from that file, returns absent. *)
Theorem direct_key_in_primary_file (h : Host) (content : string) (config : Json)
    (token : string) :
  execAsync h SecretToolLookup = None ->
  execAsync h GetStoredCredential = None ->
  (forall path, existsSync h path = true <-> path = HomeClaudeDotCredentials) ->
  readFileSync h HomeClaudeDotCredentials = Some content ->
  JSON_parse h content = Some config ->
  nestedAccessToken config = Some None ->
  directToken DIRECT_KEYS config = Some (Some token) ->
  getOAuthTokenLinux h = Some token /\ getOAuthTokenWindows h = None.
Proof.
  intros Hsecret Hstored Hexists Hread Hparse Hnested Hdirect.
  assert (Hprimary : existsSync h HomeClaudeDotCredentials = true) by now apply Hexists.
  assert (Hother : forall path, path <> HomeClaudeDotCredentials -> existsSync h path = false).
  { intros path Hne. destruct (existsSync h path) eqn:E; [|reflexivity].
    apply Hexists in E. contradiction. }
  split.
  - unfold getOAuthTokenLinux. rewrite Hsecret. cbn [firstInFiles].
    unfold nestedOrDirectInFile at 1.
    now rewrite Hprimary, Hread, Hparse, Hnested, Hdirect.
  - unfold getOAuthTokenWindows. rewrite Hstored.
    unfold nestedInFile. rewrite Hprimary, Hread, Hparse, Hnested.
    cbn [firstInFiles]. unfold directInFile.
    now rewrite !Hother by discriminate.
Qed.

Lemma direct_key_in_primary_file_witness :
  getOAuthTokenLinux (SampleHost.fileOnly "linux") = Some Sample.token
  /\ getOAuthTokenWindows (SampleHost.fileOnly "win32") = None.
Proof.
  split.
  - refine (proj1 (direct_key_in_primary_file (SampleHost.fileOnly "linux") "direct"
                     SampleHost.directConfig Sample.token
                     eq_refl eq_refl _ eq_refl eq_refl eq_refl eq_refl)).
    intros path. split; [destruct path; cbn; intros H; congruence | intros ->; reflexivity].
  - refine (proj2 (direct_key_in_primary_file (SampleHost.fileOnly "win32") "direct"
                     SampleHost.directConfig Sample.token
                     eq_refl eq_refl _ eq_refl eq_refl eq_refl eq_refl)).
    intros path. split; [destruct path; cbn; intros H; congruence | intros ->; reflexivity].
Defined.

(** X15.  On macOS, when the keychain lists a service other than the legacy one
    whose entry gives no token, and the legacy entry is not empty but holds
    no token either, the resolver returns absent without looking at the
    credential files. *)
Theorem getOAuthTokenMacOS_legacy_entry_ends_search (h : Host) (legacyContent : string) :
  findKeychainServiceName h <> LEGACY_SERVICE ->
  (forall content, readKeychainContent h (findKeychainServiceName h) = Some content ->
     extractTokenFromKeychainContent h content = None) ->
  readKeychainContent h LEGACY_SERVICE = Some legacyContent ->
  extractTokenFromKeychainContent h legacyContent = None ->
  getOAuthTokenMacOS h = None.
Proof.
  intros Hsvc Hfirst Hlegacy Hnone. unfold getOAuthTokenMacOS.
  destruct (readKeychainContent h (findKeychainServiceName h)) as [content|] eqn:E.
  - rewrite (Hfirst content eq_refl).
    apply String.eqb_neq in Hsvc. rewrite Hsvc. cbn [negb]. now rewrite Hlegacy.
  - apply String.eqb_neq in Hsvc. rewrite Hsvc. cbn [negb]. now rewrite Hlegacy.
Qed.

Lemma getOAuthTokenMacOS_legacy_entry_ends_search_witness :
  getOAuthTokenMacOS SampleHost.staleKeychain = None
  /\ nestedOrDirectInFile SampleHost.staleKeychain HomeClaudeDotCredentials
     = Some Sample.token.
Proof.
  split; [|reflexivity].
  apply (getOAuthTokenMacOS_legacy_entry_ends_search SampleHost.staleKeychain "expired").
  - vm_compute. discriminate.
  - vm_compute. discriminate.
  - reflexivity.
  - reflexivity.
Defined.

Lemma dropLastQuote_app (s : string) : dropLastQuote (s ++ doubleQuote) = s.
Proof.
  induction s as [|c s IH]; [reflexivity|].
  cbn [append dropLastQuote].
  destruct (String.eqb (String c (s ++ doubleQuote)) doubleQuote) eqn:E.
  - apply String.eqb_eq in E. unfold doubleQuote in E. injection E as _ E.
    destruct s; discriminate.
  - now rewrite IH.
Qed.

(** X16.  The keychain service name is never empty.  When the listing prints a
    quoted, non-empty name, the name is returned without its quotes; when
    the listing fails, the legacy name is returned. *)
Theorem findKeychainServiceName_unquotes (h : Host) :
  findKeychainServiceName h <> EmptyString
  /\ (forall stdout name,
        execAsync h DumpKeychainLongestService = Some stdout ->
        trim h stdout = (doubleQuote ++ name ++ doubleQuote)%string ->
        name <> EmptyString ->
        findKeychainServiceName h = name)
  /\ (execAsync h DumpKeychainLongestService = None ->
      findKeychainServiceName h = LEGACY_SERVICE).
Proof.
  unfold findKeychainServiceName. split; [|split].
  - destruct (execAsync h DumpKeychainLongestService) as [stdout|]; [|discriminate].
    destruct (String.eqb (stripQuotes (trim h stdout)) EmptyString) eqn:E;
      cbn [negb]; [discriminate|]. now apply String.eqb_neq.
  - intros stdout name -> Htrim Hname. rewrite Htrim.
    assert (Hstrip : stripQuotes (doubleQuote ++ name ++ doubleQuote) = name).
    { unfold doubleQuote at 1. cbn [append stripQuotes].
      rewrite Ascii.eqb_refl. apply dropLastQuote_app. }
    rewrite Hstrip. apply String.eqb_neq in Hname. now rewrite Hname.
  - intros ->. reflexivity.
Qed.

Lemma findKeychainServiceName_unquotes_witness :
  findKeychainServiceName SampleHost.staleKeychain = SampleHost.suffixedService.
Proof.
  refine (proj1 (proj2 (findKeychainServiceName_unquotes SampleHost.staleKeychain))
            _ SampleHost.suffixedService eq_refl eq_refl _).
  discriminate.
Defined.

(** X17.  A keychain entry that is itself a token is returned as it is, and an
    entry that is neither JSON with a token under
    [claudeAiOauth.accessToken] nor a token gives absent. *)
Theorem extractTokenFromKeychainContent_raw (h : Host) (content : string) :
  (startsWith content TOKEN_PREFIX = true ->
   extractTokenFromKeychainContent h content = Some content)
  /\ (startsWith content TOKEN_PREFIX = false ->
      (forall parsed token, JSON_parse h content = Some parsed ->
         nestedAccessToken parsed <> Some (Some token)) ->
      extractTokenFromKeychainContent h content = None).
Proof.
  unfold extractTokenFromKeychainContent. split.
  - intros Hp.
    assert (Hbrace : startsWith content "{" = false).
    { destruct content as [|c rest]; [reflexivity|].
      unfold startsWith, TOKEN_PREFIX in *. cbn [String.prefix] in *.
      destruct (Ascii.ascii_dec (Ascii.Ascii true true false false true true true false) c)
        as [E|E]; [subst c; reflexivity | discriminate]. }
    now rewrite Hbrace, Hp.
  - intros Hp Hjson. rewrite Hp.
    destruct (startsWith content "{"); [|reflexivity].
    destruct (JSON_parse h content) as [parsed|]; [|reflexivity].
    destruct (nestedAccessToken parsed) as [[t|]|] eqn:E; try reflexivity.
    now elim (Hjson parsed t eq_refl).
Qed.

Lemma extractTokenFromKeychainContent_raw_witness :
  extractTokenFromKeychainContent SampleHost.staleKeychain Sample.token
  = Some Sample.token.
Proof.
  apply (proj1 (extractTokenFromKeychainContent_raw SampleHost.staleKeychain Sample.token)).
  reflexivity.
Defined.

End ResolverResults.

(** ** The resolver and the cache together *)

Section BearerTokens.
Import JS OAuth CacheSpec.

Lemma tokenAccepted_step (op : Op) (st : Cache) :
  resolvedBy op -> tokenAccepted st -> tokenAccepted (step op st).
Proof.
  intros Hres Hst. destruct op as [p env| |]; cbn [step].
  - destruct Hres as [h Hh]. intros token Htoken.
    destruct (cachedToken_after p env st) as [E|[E|E]]; rewrite E in Htoken.
    + now apply Hst.
    + rewrite Hh in Htoken. exact (getOAuthToken_prefix h token Htoken).
    + discriminate.
  - exact Hst.
  - intros token H. discriminate.
Qed.

(** X18.  In a run that starts from the empty cache and resolves credentials
    with [getOAuthToken], every fetch is made with a token that starts with
    [sk-ant-oat]. *)
Theorem fetches_carry_accepted_tokens (ops : list Op) (token : string) :
  Forall resolvedBy ops ->
  In (FetchUsage token) (trace ops initialCache) ->
  Resolver.startsWith token Resolver.TOKEN_PREFIX = true.
Proof.
  assert (H : forall st, tokenAccepted st -> Forall resolvedBy ops ->
            In (FetchUsage token) (trace ops st) -> Resolver.hasTokenPrefix token).
  { induction ops as [|op ops IH]; intros st Hst Hall Hin; [destruct Hin|].
    inversion Hall as [|? ? Hop Hrest]; subst.
    cbn [trace] in Hin. apply in_app_or in Hin. destruct Hin as [Hin|Hin].
    - destruct op as [p env| |]; try (destruct Hin).
      destruct (proj2 (getRealtimeUsage_events p env st) token Hin) as [_ [Hc|[_ Hr]]].
      + now apply Hst.
      + destruct Hop as [h Hh]. rewrite Hh in Hr.
        exact (getOAuthToken_prefix h token Hr).
    - apply (IH (step op st)); [now apply tokenAccepted_step | exact Hrest | exact Hin]. }
  intros Hall Hin. apply (H initialCache); [|exact Hall | exact Hin].
  intros t Ht. discriminate.
Qed.

Lemma fetches_carry_accepted_tokens_witness :
  Resolver.startsWith Sample.token Resolver.TOKEN_PREFIX = true.
Proof.
  apply (fetches_carry_accepted_tokens
           [CallGetRealtimeUsage (Some 15%Q) (Sample.online Sample.t0 12)] Sample.token).
  - constructor; [|constructor].
    exists (SampleHost.fileOnly "linux"). reflexivity.
  - vm_compute. right. left. reflexivity.
Defined.

(** X19.  However many calls are made while the cached snapshot is fresh,
    that is, at an age below the poll interval in milliseconds as
    [pollIntervalMs] computes it (the minutes times 60 times 1000, each
    product rounded to the nearest double), each returns that snapshot, none
    does any external work, and the cache is left as it was. *)
Theorem fresh_calls_do_nothing (p : option Q) (envs : list Env) (st : Cache)
    (u : OAuthUsageResponse) :
  cachedUsage st = Some u ->
  Forall (fun env => (inject_Z (Date_now env - cacheTimestamp st) < pollIntervalMs p)%Q)
    envs ->
  fst (poll p envs st) = List.repeat (Some u) (List.length envs)
  /\ snd (poll p envs st) = st
  /\ trace (map (CallGetRealtimeUsage p) envs) st = [].
Proof.
  intros Hu. induction 1 as [|env envs Hage _ IH]; [repeat split|].
  destruct IH as (Hres & Hst & Htrace).
  assert (Hfresh : cacheFresh p env st = true).
  { apply cacheFresh_spec. split; [now exists u | exact Hage]. }
  cbn [poll map trace step List.length List.repeat].
  rewrite (getRealtimeUsage_fresh p env st Hfresh). cbn [cacheAfter work fst snd app].
  destruct (poll p envs st) as [usages st'] eqn:E. cbn [fst snd] in *.
  subst. rewrite Hu. repeat split. exact Htrace.
Qed.

Lemma fresh_calls_do_nothing_witness :
  let st := exec [CallGetRealtimeUsage (Some 15%Q) (Sample.online Sample.t0 12)] initialCache in
  let envs := [Sample.unauthorized (Sample.t0 + 5 * Sample.minute);
               Sample.unauthorized (Sample.t0 + 10 * Sample.minute)] in
  fst (poll (Some 15%Q) envs st)
  = [Some (Sample.snapshot Sample.t0 12); Some (Sample.snapshot Sample.t0 12)]
  /\ snd (poll (Some 15%Q) envs st) = st.
Proof.
  intros st envs.
  destruct (fresh_calls_do_nothing (Some 15%Q) envs st (Sample.snapshot Sample.t0 12))
    as (Hres & Hst & _).
  - reflexivity.
  - repeat constructor; vm_compute; reflexivity.
  - split; [exact Hres | exact Hst].
Defined.

End BearerTokens.

(** ** The weekly segment *)

Section WeeklySegmentFacts.
Import JS Weekly WeeklySegment.



Lemma getWeeklyInfo_unfold (clk : Clock) (rd rh rm : option Z) (pollInterval : option Q)
    (env : OAuth.Env) (st : OAuth.Cache) :
  let call :=
    OAuth.getRealtimeUsage
      (Some (match pollInterval with Some p => p | None => 15%Q end)) env st in
  let info := fst (fst (getWeeklyInfo clk rd rh rm pollInterval env st)) in
  let fallback :=
    {| percentUsed := None; resetAt := None; isRealtime := false;
       weekProgressPercent := calculateWeekProgress (wallClock clk) rd rh rm;
       opusPercentUsed := None; sonnetPercentUsed := None;
       opusResetAt := None; sonnetResetAt := None |} in
  snd (fst (getWeeklyInfo clk rd rh rm pollInterval env st)) = OAuth.cacheAfter call
  /\ snd (getWeeklyInfo clk rd rh rm pollInterval env st) = OAuth.work call
  /\ match OAuth.returned call with
     | Some usage =>
         match OAuth.sevenDay usage with
         | Some sevenDay =>
             match OAuth.resetAt sevenDay with
             | ValidDate resetTime =>
                 isRealtime info = true
                 /\ percentUsed info = Some (OAuth.percentUsed sevenDay)
                 /\ resetAt info = Some (ValidDate resetTime)
                 /\ opusPercentUsed info
                    = option_map OAuth.percentUsed (OAuth.sevenDayOpus usage)
                 /\ sonnetPercentUsed info
                    = option_map OAuth.percentUsed (OAuth.sevenDaySonnet usage)
                 /\ opusResetAt info = option_map OAuth.resetAt (OAuth.sevenDayOpus usage)
                 /\ sonnetResetAt info
                    = option_map OAuth.resetAt (OAuth.sevenDaySonnet usage)
                 /\ weekProgressPercent info
                    = calculateWeekProgressFromResetTime (setDate clk) (timeValue clk)
                        resetTime
             | InvalidDate => info = fallback
             end
         | None => info = fallback
         end
     | None => info = fallback
     end.
Proof.
  cbn zeta. unfold getWeeklyInfo, getRealtimeWeeklyInfo.
  destruct (OAuth.getRealtimeUsage _ env st) as [[usage st'] events].
  cbn [OAuth.returned OAuth.cacheAfter OAuth.work fst snd].
  destruct usage as [usage|]; [|repeat split].
  destruct (OAuth.sevenDay usage) as [sevenDay|]; [|repeat split].
  destruct (OAuth.resetAt sevenDay) as [resetTime|] eqn:Hreset; [|repeat split].
  cbn [fst snd isRealtime percentUsed resetAt opusPercentUsed sonnetPercentUsed
       opusResetAt sonnetResetAt weekProgressPercent].
  repeat split.
Qed.

(** X21.  [getWeeklyInfo] reports usage exactly in realtime mode: [isRealtime]
    holds if and only if [percentUsed] is present, and if and only if the
    usage call returned a snapshot with a weekly window whose reset date is
    a valid date; the week progress is then anchored at that date.
    Otherwise, also for a weekly window whose reset date is Invalid Date,
    every usage and reset field is absent and the week progress is the
    fallback one, taken from the configured schedule, between 0 and 100.  The
    cache and the external work are those of the one [getRealtimeUsage]
    call, whose poll interval defaults to 15 minutes. *)
Theorem getWeeklyInfo_modes (clk : Clock) (rd rh rm : option Z) (pollInterval : option Q)
    (env : OAuth.Env) (st : OAuth.Cache) :
  let call :=
    OAuth.getRealtimeUsage
      (Some (match pollInterval with Some p => p | None => 15%Q end)) env st in
  let out := getWeeklyInfo clk rd rh rm pollInterval env st in
  let info := fst (fst out) in
  (snd (fst out) = OAuth.cacheAfter call /\ snd out = OAuth.work call)
  /\ (isRealtime info = true <-> percentUsed info <> None)
  /\ (isRealtime info = true
      <-> exists usage sevenDay resetTime,
            OAuth.returned call = Some usage /\ OAuth.sevenDay usage = Some sevenDay
            /\ OAuth.resetAt sevenDay = ValidDate resetTime)
  /\ (forall usage sevenDay resetTime,
        OAuth.returned call = Some usage -> OAuth.sevenDay usage = Some sevenDay ->
        OAuth.resetAt sevenDay = ValidDate resetTime ->
        percentUsed info = Some (OAuth.percentUsed sevenDay)
        /\ resetAt info = Some (ValidDate resetTime)
        /\ weekProgressPercent info
           = calculateWeekProgressFromResetTime (setDate clk) (timeValue clk) resetTime)
  /\ (isRealtime info = false ->
      percentUsed info = None /\ resetAt info = None
      /\ opusPercentUsed info = None /\ sonnetPercentUsed info = None
      /\ opusResetAt info = None /\ sonnetResetAt info = None
      /\ weekProgressPercent info = calculateWeekProgress (wallClock clk) rd rh rm
      /\ 0 <= weekProgressPercent info <= 100).
Proof.
  cbn zeta.
  destruct (getWeeklyInfo_unfold clk rd rh rm pollInterval env st) as (Hst & Hev & Hinfo).
  cbn zeta in Hinfo. split; [split; assumption|].
  assert (Hrange : 0 <= calculateWeekProgress (wallClock clk) rd rh rm <= 100)
    by (unfold calculateWeekProgress; apply rounded_percentage_range).
  assert (Hfallback :
    forall info : WeeklyInfo,
      info = {| percentUsed := None; resetAt := None; isRealtime := false;
                weekProgressPercent := calculateWeekProgress (wallClock clk) rd rh rm;
                opusPercentUsed := None; sonnetPercentUsed := None;
                opusResetAt := None; sonnetResetAt := None |} ->
      (isRealtime info = true <-> percentUsed info <> None)
      /\ isRealtime info = false
      /\ (isRealtime info = false ->
          percentUsed info = None /\ resetAt info = None
          /\ opusPercentUsed info = None /\ sonnetPercentUsed info = None
          /\ opusResetAt info = None /\ sonnetResetAt info = None
          /\ weekProgressPercent info = calculateWeekProgress (wallClock clk) rd rh rm
          /\ 0 <= weekProgressPercent info <= 100)).
  { intros info ->. cbn [isRealtime percentUsed resetAt opusPercentUsed sonnetPercentUsed
                           opusResetAt sonnetResetAt weekProgressPercent].
    split; [split; [discriminate | intros H; now elim H]|].
    split; [reflexivity|]. intros _. repeat split; apply Hrange. }
  destruct (OAuth.returned _) as [usage|].
  - destruct (OAuth.sevenDay usage) as [sevenDay|] eqn:Hseven.
    + destruct (OAuth.resetAt sevenDay) as [resetTime|] eqn:Hreset.
      * destruct Hinfo as (Hreal & Hpct & Hat & _ & _ & _ & _ & Hprog).
        rewrite Hreal, Hpct.
        split; [split; [discriminate | reflexivity]|].
        split; [split; [intros _; now exists usage, sevenDay, resetTime | reflexivity]|].
        split; [|discriminate].
        intros usage' sevenDay' resetTime' Hu Hs Hr.
        injection Hu as <-. rewrite Hseven in Hs. injection Hs as <-.
        rewrite Hreset in Hr. injection Hr as <-.
        split; [reflexivity|]. split; [exact Hat | exact Hprog].
      * destruct (Hfallback _ Hinfo) as (Hiff & Hfalse & Hrest).
        split; [exact Hiff|].
        split; [split; [intros H; congruence|]|].
        { intros (u & sd & t & Hu & Hs & Hr). injection Hu as <-.
          rewrite Hseven in Hs. injection Hs as <-. congruence. }
        split; [|exact Hrest].
        intros usage' sevenDay' resetTime' Hu Hs Hr.
        injection Hu as <-. rewrite Hseven in Hs. injection Hs as <-. congruence.
    + destruct (Hfallback _ Hinfo) as (Hiff & Hfalse & Hrest).
      split; [exact Hiff|].
      split; [split; [intros H; congruence|]|].
      { intros (u & sd & t & Hu & Hs & Hr). injection Hu as <-. congruence. }
      split; [|exact Hrest].
      intros usage' sevenDay' resetTime' Hu Hs Hr. injection Hu as <-. congruence.
  - destruct (Hfallback _ Hinfo) as (Hiff & Hfalse & Hrest).
    split; [exact Hiff|].
    split; [split; [intros H; congruence|]|].
    { intros (u & sd & t & Hu & Hs & Hr). discriminate. }
    split; [|exact Hrest].
    intros usage' sevenDay' resetTime' Hu Hs Hr. discriminate.
Qed.

Lemma getWeeklyInfo_modes_witness :
  let clk := {| timeValue := Sample.t0;
                wallClock := {| getDay := 3; getHours := 0; getMinutes := 0 |};
                setDate := fixedOffsetCalendar |} in
  let info :=
    fst (fst (getWeeklyInfo clk None None None None
                (Sample.unauthorized Sample.t0) OAuth.initialCache)) in
  percentUsed info = None /\ 0 <= weekProgressPercent info <= 100.
Proof.
  intros clk info.
  destruct (getWeeklyInfo_modes clk None None None None
              (Sample.unauthorized Sample.t0) OAuth.initialCache)
    as (_ & _ & _ & _ & Hfallback).
  destruct (Hfallback eq_refl) as (Hpct & _ & _ & _ & _ & _ & _ & Hrange).
  split; [exact Hpct | exact Hrange].
Defined.

(** The endpoint reports a weekly window whose [resets_at] is not a date:
    the segment falls back to the configured schedule, although the usage
    call returned a snapshot with a weekly window. *)
Example getWeeklyInfo_invalid_reset_date :
  let clk := {| timeValue := Sample.t0;
                wallClock := {| getDay := 3; getHours := 0; getMinutes := 0 |};
                setDate := fixedOffsetCalendar |} in
  let body :=
    {| OAuth.five_hour := undefined;
       OAuth.seven_day :=
         value {| OAuth.resets_at := value "soon"%string;
                  OAuth.utilization := value (151 # 5) |};
       OAuth.seven_day_opus := undefined;
       OAuth.seven_day_sonnet := undefined |} in
  let env :=
    {| OAuth.Date_now := Sample.t0;
       OAuth.Date_parse := Sample.parse;
       OAuth.clock := fun _ => Sample.t0;
       OAuth.getOAuthToken := Some Sample.token;
       OAuth.http := fun _ => OAuth.Response true (Some body) |} in
  let out := getWeeklyInfo clk None None None None env OAuth.initialCache in
  option_map OAuth.resetAt
    (match OAuth.cachedUsage (snd (fst out)) with
     | Some usage => OAuth.sevenDay usage
     | None => None
     end) = Some InvalidDate
  /\ isRealtime (fst (fst out)) = false
  /\ percentUsed (fst (fst out)) = None
  /\ weekProgressPercent (fst (fst out)) = 29.
Proof. cbv zeta. repeat split; vm_compute; reflexivity. Qed.

End WeeklySegmentFacts.

(** ** Rendering *)

Section RendererFacts.
Import JS History Renderer.

Lemma length_repeatString (s : jsstring) (count : Z) :
  List.length (repeatString s count) = (Z.to_nat count * List.length s)%nat.
Proof.
  unfold repeatString. induction (Z.to_nat count) as [|n IH]; [reflexivity|].
  cbn [List.repeat List.concat]. rewrite length_app, IH. lia.
Qed.

Lemma filled_range (percent : Q) (width : Z) :
  0 <= width < 2 ^ 53 -> (0 <= percent)%Q -> (percent <= 100)%Q ->
  0 <= Math_round (Double.mul (Double.div percent 100) (inject_Z width)) <= width.
Proof.
  intros Hw H0 H100.
  assert (Hwq : (0 <= inject_Z width)%Q)
    by (destruct Hw as [Hw _]; rewrite (Zle_Qle 0 width) in Hw; exact Hw).
  assert (Hp0 : (0 <= Double.div percent 100)%Q).
  { apply Qle_trans with (Double.div 0 100); [apply Qle_refl|].
    apply div_mono_l; [reflexivity | exact H0]. }
  assert (Hp1 : (Double.div percent 100 <= 1)%Q).
  { apply Qle_trans with (Double.div 100 100).
    - apply div_mono_l; [reflexivity | exact H100].
    - apply Qle_by_computation. vm_compute. reflexivity. }
  apply Math_round_range; unfold Double.mul.
  - apply Qle_trans with (Double.round 0); [apply Qle_refl|].
    apply round_mono. apply Qmult_le_0_compat; assumption.
  - rewrite <- (round_Z width) at 2 by lia.
    apply round_mono.
    apply Qle_trans with (1 * inject_Z width)%Q.
    + apply Qmult_le_compat_r; assumption.
    + rewrite Qmult_1_l. apply Qle_refl.
Qed.

(** X22.  The filled part of the progress bar is [percent / 100 * width],
    in the arithmetic of doubles, rounded to an integer.  For a percentage
    between 0 and 100 and a width from 0 up to 2^53, the bar is made of
    [filled] full symbols followed by [width - filled] empty ones, with
    [filled] between 0 and [width]; with symbols of one code unit each it is
    exactly [width] long.  For a percentage so far above 100 that the filled
    part rounds to more than [width], or so far below 0 that it rounds to
    less than 0, the call throws. *)
Theorem formatProgressBar_cells (progressFull progressEmpty : jsstring)
    (percent : Q) (width : Z) :
  let filled := Math_round (Double.mul (Double.div percent 100) (inject_Z width)) in
  (0 <= width < 2 ^ 53 -> (0 <= percent)%Q -> (percent <= 100)%Q ->
   0 <= filled <= width
   /\ formatProgressBar progressFull progressEmpty percent width
      = Text (repeatString progressFull filled
              ++ repeatString progressEmpty (width - filled))
   /\ (List.length progressFull = 1%nat -> List.length progressEmpty = 1%nat ->
       forall bar,
         formatProgressBar progressFull progressEmpty percent width = Text bar ->
         Z.of_nat (List.length bar) = width))
  /\ (width < filled \/ filled < 0 ->
      formatProgressBar progressFull progressEmpty percent width = ThrowsRangeError).
Proof.
  intros filled. split.
  - intros Hw H0 H100.
    pose proof (filled_range percent width Hw H0 H100) as Hf. fold filled in Hf.
    assert (Hbar : formatProgressBar progressFull progressEmpty percent width
                   = Text (repeatString progressFull filled
                           ++ repeatString progressEmpty (width - filled))).
    { unfold formatProgressBar. fold filled.
      destruct (Z.ltb_spec filled 0); [lia|].
      destruct (Z.ltb_spec (width - filled) 0); [lia | reflexivity]. }
    split; [exact Hf|]. split; [exact Hbar|].
    intros Hfull Hempty bar Hb. rewrite Hbar in Hb. injection Hb as <-.
    rewrite length_app, !length_repeatString, Hfull, Hempty. lia.
  - intros Hout. unfold formatProgressBar. fold filled.
    destruct (Z.ltb_spec filled 0); [reflexivity|].
    destruct (Z.ltb_spec (width - filled) 0); [reflexivity | lia].
Qed.

Lemma formatProgressBar_cells_witness :
  formatProgressBar [0x2588%N] [0x2591%N] 45 10
  = Text (repeatString [0x2588%N]
            (Math_round (Double.mul (Double.div 45 100) (inject_Z 10)))
          ++ repeatString [0x2591%N]
               (10 - Math_round (Double.mul (Double.div 45 100) (inject_Z 10))))
  /\ formatProgressBar [0x2588%N] [0x2591%N] 105 10 = ThrowsRangeError.
Proof.
  destruct (formatProgressBar_cells [0x2588%N] [0x2591%N] 45 10) as [Hin _].
  destruct (formatProgressBar_cells [0x2588%N] [0x2591%N] 105 10) as [_ Hout].
  split.
  - refine (proj1 (proj2 (Hin _ _ _))); [lia | |]; vm_compute; discriminate.
  - apply Hout. left. vm_compute. reflexivity.
Defined.

(** 45 per cent of 10 cells are 4.5, rounded to 5 full cells.  29 per cent
    of 50 cells are 14.5, but the quotient 0.29 and its product with 50 are
    rounded to 14.499999999999998: the bar has 14 full cells. *)
Example formatProgressBar_full_cells :
  formatProgressBar [0x2588%N] [0x2591%N] 45 10
  = Text (repeatString [0x2588%N] 5 ++ repeatString [0x2591%N] 5)
  /\ formatProgressBar [0x2588%N] [0x2591%N] 29 50
     = Text (repeatString [0x2588%N] 14 ++ repeatString [0x2591%N] 36)
  /\ Math_round (29 / 100 * inject_Z 50)%Q = 15.
Proof. repeat split; vm_compute; reflexivity. Qed.

Section Bottleneck.
Context {Icon Colors : Type}.

Lemma bottleneck_cons (rest : list (LimitInfo Icon Colors)) :
  forall first : LimitInfo Icon Colors,
    exists r,
      bottleneck (first :: rest) = Some r
      /\ ((r = first /\ Forall (fun l => (percent l <= percent first)%Q) rest)
          \/ exists before after,
               rest = before ++ r :: after
               /\ (percent first < percent r)%Q
               /\ Forall (fun l => (percent l < percent r)%Q) before
               /\ Forall (fun l => (percent l <= percent r)%Q) after).
Proof.
  induction rest as [|b rest IH]; intros first.
  - exists first. split; [reflexivity|]. left. split; [reflexivity | constructor].
  - assert (Hstep : bottleneck (first :: b :: rest)
                    = bottleneck ((if geb (percent first) (percent b) then first else b)
                                  :: rest)) by reflexivity.
    rewrite Hstep. destruct (geb (percent first) (percent b)) eqn:E.
    + apply geb_le in E.
      destruct (IH first) as (r & Hr & [[-> Hall] | (before & after & -> & Hlt & Hb & Ha)]).
      * exists first. split; [exact Hr|]. left. split; [reflexivity|].
        constructor; assumption.
      * exists r. split; [exact Hr|]. right. exists (b :: before), after.
        split; [reflexivity|]. split; [exact Hlt|]. split; [|exact Ha].
        constructor; [|exact Hb]. apply Qle_lt_trans with (percent first); assumption.
    + assert (Hlt : (percent first < percent b)%Q).
      { apply Qnot_le_lt. intros Hle. apply geb_le in Hle. congruence. }
      destruct (IH b) as (r & Hr & [[-> Hall] | (before & after & -> & Hlt' & Hb & Ha)]).
      * exists b. split; [exact Hr|]. right. exists [], rest.
        split; [reflexivity|]. split; [exact Hlt|]. split; [constructor | exact Hall].
      * exists r. split; [exact Hr|]. right. exists (b :: before), after.
        split; [reflexivity|].
        split; [apply Qlt_trans with (percent b); assumption|].
        split; [|exact Ha]. constructor; assumption.
Qed.

(** X23.  The bottleneck of a non-empty list of limits is one of its entries,
    no entry has a higher percentage, and among the entries with the highest
    percentage it is the earliest: every entry before it is strictly
    lower. *)
Theorem bottleneck_is_first_maximum (limits : list (LimitInfo Icon Colors)) :
  limits <> [] ->
  exists r before after,
    bottleneck limits = Some r
    /\ limits = before ++ r :: after
    /\ Forall (fun l => (percent l < percent r)%Q) before
    /\ Forall (fun l => (percent l <= percent r)%Q) after.
Proof.
  destruct limits as [|first rest]; [intros H; now elim H | intros _].
  destruct (bottleneck_cons rest first)
    as (r & Hr & [[-> Hall] | (before & after & -> & Hlt & Hb & Ha)]).
  - exists first, [], rest. repeat split; [exact Hr | constructor | exact Hall].
  - exists r, (first :: before), after.
    repeat split; [exact Hr | now constructor | exact Ha].
Qed.

Lemma bottleneck_upper_bound (limits : list (LimitInfo Icon Colors))
    (r l : LimitInfo Icon Colors) :
  bottleneck limits = Some r -> In l limits -> (percent l <= percent r)%Q.
Proof.
  intros Hr Hl. destruct limits as [|first rest]; [destruct Hl|].
  destruct (bottleneck_cons rest first)
    as (r' & Hr' & [[-> Hall] | (before & after & -> & Hlt & Hb & Ha)]);
    rewrite Hr' in Hr; injection Hr as <-.
  - destruct Hl as [<-|Hl]; [apply Qle_refl|].
    rewrite Forall_forall in Hall. now apply Hall.
  - destruct Hl as [<-|Hl]; [now apply Qlt_le_weak|].
    apply in_app_or in Hl. destruct Hl as [Hl|[<-|Hl]].
    + rewrite Forall_forall in Hb. apply Qlt_le_weak. now apply Hb.
    + apply Qle_refl.
    + rewrite Forall_forall in Ha. now apply Ha.
Qed.

Lemma bottleneck_percent_bound (limits : list (LimitInfo Icon Colors))
    (r : LimitInfo Icon Colors) (p : Q) :
  bottleneck limits = Some r -> In p (map percent limits) -> (p <= percent r)%Q.
Proof.
  intros Hr Hp. apply in_map_iff in Hp. destruct Hp as (l & <- & Hl).
  exact (bottleneck_upper_bound limits r l Hr Hl).
Qed.

(** X24.  In the smart weekly view the limit shown is absent exactly when no
    weekly percentage is reported; otherwise its percentage is at least every
    reported percentage, overall, Opus and Sonnet alike; and when the overall
    percentage is reported and no per-model percentage exceeds it, the limit
    shown is the overall one. *)
Theorem smartLimits_bottleneck
    (overallIcon opusIcon sonnetIcon : Icon) (weekly opus sonnet : Colors)
    (info : WeeklySegment.WeeklyInfo) (trendInfo : option OAuth.TrendInfo) :
  let limits :=
    smartLimits overallIcon opusIcon sonnetIcon weekly opus sonnet info trendInfo in
  (bottleneck limits = None
   <-> WeeklySegment.percentUsed info = None
       /\ WeeklySegment.opusPercentUsed info = None
       /\ WeeklySegment.sonnetPercentUsed info = None)
  /\ (forall r p,
        bottleneck limits = Some r ->
        WeeklySegment.percentUsed info = Some p
        \/ WeeklySegment.opusPercentUsed info = Some p
        \/ WeeklySegment.sonnetPercentUsed info = Some p ->
        (p <= percent r)%Q)
  /\ (forall p,
        WeeklySegment.percentUsed info = Some p ->
        (forall q, WeeklySegment.opusPercentUsed info = Some q -> (q <= p)%Q) ->
        (forall q, WeeklySegment.sonnetPercentUsed info = Some q -> (q <= p)%Q) ->
        exists r, bottleneck limits = Some r /\ name r = "all"%string /\ percent r = p).
Proof.
  cbn zeta. unfold smartLimits.
  destruct (WeeklySegment.percentUsed info) as [pa|];
    destruct (WeeklySegment.opusPercentUsed info) as [po|];
    destruct (WeeklySegment.sonnetPercentUsed info) as [ps|];
    cbn [app].
  all: split; [split; [try discriminate; intros _; repeat split
                      | intros (H1 & H2 & H3); try discriminate; reflexivity]|].
  all: split.
  all: try (intros r p Hr Hp; apply (bottleneck_percent_bound _ r p Hr);
            destruct Hp as [Hp|[Hp|Hp]]; try discriminate; injection Hp as <-;
            cbn [map percent In]; auto).
  all: intros p Hp Ho Hs; try discriminate; injection Hp as <-;
       cbn [bottleneck fold_left percent].
  - assert (E1 : geb pa po = true) by (apply geb_le; now apply Ho).
    rewrite E1. cbn [percent].
    assert (E2 : geb pa ps = true) by (apply geb_le; now apply Hs).
    rewrite E2. eexists. repeat split.
  - assert (E1 : geb pa po = true) by (apply geb_le; now apply Ho).
    rewrite E1. eexists. repeat split.
  - assert (E2 : geb pa ps = true) by (apply geb_le; now apply Hs).
    rewrite E2. eexists. repeat split.
  - eexists. repeat split.
Qed.

End Bottleneck.

Lemma smartLimits_bottleneck_witness :
  let info :=
    {| WeeklySegment.percentUsed := Some 47%Q;
       WeeklySegment.resetAt := Some (JS.ValidDate Sample.t0);
       WeeklySegment.isRealtime := true;
       WeeklySegment.weekProgressPercent := 71;
       WeeklySegment.opusPercentUsed := Some 47%Q;
       WeeklySegment.sonnetPercentUsed := Some 7%Q;
       WeeklySegment.opusResetAt := None;
       WeeklySegment.sonnetResetAt := None |} in
  exists r,
    bottleneck (smartLimits tt tt tt tt tt tt info None) = Some r
    /\ name r = "all"%string /\ percent r = 47%Q.
Proof.
  intros info.
  refine (proj2 (proj2 (smartLimits_bottleneck tt tt tt tt tt tt info None))
            47%Q eq_refl _ _).
  - intros q Hq. injection Hq as <-. vm_compute. discriminate.
  - intros q Hq. injection Hq as <-. vm_compute. discriminate.
Defined.

Lemma bottleneck_is_first_maximum_witness :
  exists r before after,
    bottleneck
      [{| name := "all"; icon := tt; percent := 47; trend := None; colors := tt |};
       {| name := "opus"; icon := tt; percent := 47; trend := None; colors := tt |}]
    = Some r
    /\ [{| name := "all"; icon := tt; percent := 47; trend := None; colors := tt |};
        {| name := "opus"; icon := tt; percent := 47; trend := None; colors := tt |}]
       = before ++ r :: after
    /\ Forall (fun l => (percent l < percent r)%Q) before
    /\ Forall (fun l => (percent l <= percent r)%Q) after.
Proof.
  apply bottleneck_is_first_maximum. discriminate.
Defined.

Example bottleneck_tie_goes_to_overall :
  option_map name
    (bottleneck
       [{| name := "all"; icon := tt; percent := 47; trend := None; colors := tt |};
        {| name := "opus"; icon := tt; percent := 47; trend := None; colors := tt |};
        {| name := "sonnet"; icon := tt; percent := 7; trend := None; colors := tt |}])
  = Some "all"%string.
Proof. reflexivity. Qed.

End RendererFacts.

(** ** Colour codes *)

Section ThemeFacts.
Import JS Themes.

Lemma scaled_mono (a b : Z) (c k : Q) :
  (0 < c)%Q -> (0 <= k)%Q -> a <= b ->
  (Double.mul (Double.div (inject_Z a) c) k <= Double.mul (Double.div (inject_Z b) c) k)%Q.
Proof.
  intros Hc Hk Hab. apply mul_mono_l; [exact Hk|].
  apply div_mono_l; [exact Hc|]. rewrite <- Zle_Qle. exact Hab.
Qed.

Lemma cube_index_range (c : Z) :
  0 <= c <= 255 -> 0 <= Math_round (Double.mul (Double.div (inject_Z c) 255) 5) <= 5.
Proof.
  intros Hc. split.
  - apply Z.le_trans with (Math_round (Double.mul (Double.div (inject_Z 0) 255) 5)).
    + vm_compute. discriminate.
    + apply Math_round_mono. apply scaled_mono; [reflexivity | unfold Qle; cbn; lia | lia].
  - apply Z.le_trans with (Math_round (Double.mul (Double.div (inject_Z 255) 255) 5)).
    + apply Math_round_mono. apply scaled_mono; [reflexivity | unfold Qle; cbn; lia | lia].
    + vm_compute. discriminate.
Qed.

Lemma gray_index_range (r : Z) :
  8 <= r <= 248 ->
  0 <= Math_round (Double.mul (Double.div (inject_Z (r - 8)) 247) 24) <= 23.
Proof.
  intros Hr. split.
  - apply Z.le_trans with (Math_round (Double.mul (Double.div (inject_Z 0) 247) 24)).
    + vm_compute. discriminate.
    + apply Math_round_mono. apply scaled_mono; [reflexivity | unfold Qle; cbn; lia | lia].
  - apply Z.le_trans with (Math_round (Double.mul (Double.div (inject_Z 240) 247) 24)).
    + apply Math_round_mono. apply scaled_mono; [reflexivity | unfold Qle; cbn; lia | lia].
    + vm_compute. discriminate.
Qed.

(** X25.  For channels between 0 and 255 the colour code is a code of the
    256-colour palette outside the 16 system colours: a grey (three equal
    channels) gives 16, 231 or a code of the grey ramp 232..255, any other
    colour a code of the colour cube 16..231. *)
Theorem hexToAnsi256_palette (hex : Channels) :
  0 <= red hex <= 255 -> 0 <= green hex <= 255 -> 0 <= blue hex <= 255 ->
  16 <= hexToAnsi256 hex <= 255
  /\ (red hex = green hex /\ green hex = blue hex ->
      hexToAnsi256 hex = 16 \/ hexToAnsi256 hex = 231 \/ 232 <= hexToAnsi256 hex <= 255)
  /\ (~ (red hex = green hex /\ green hex = blue hex) -> 16 <= hexToAnsi256 hex <= 231).
Proof.
  intros Hr Hg Hb.
  pose proof (cube_index_range (red hex) Hr) as Hri.
  pose proof (cube_index_range (green hex) Hg) as Hgi.
  pose proof (cube_index_range (blue hex) Hb) as Hbi.
  unfold hexToAnsi256.
  destruct (Z.eqb_spec (red hex) (green hex)) as [Erg|Erg];
    destruct (Z.eqb_spec (green hex) (blue hex)) as [Egb|Egb]; cbn [andb].
  - destruct (Z.ltb_spec (red hex) 8) as [Hlow|Hlow].
    { split; [lia|]. split; [intros _; now left | intros H; now elim H]. }
    destruct (Z.gtb_spec (red hex) 248) as [Hhigh|Hhigh].
    { split; [lia|]. split; [intros _; right; now left | intros H; now elim H]. }
    pose proof (gray_index_range (red hex)) as Hgray.
    split; [lia|]. split; [intros _; right; right; lia | intros H; now elim H].
  - split; [lia|]. split; [intros [_ H]; contradiction | intros _; lia].
  - split; [lia|]. split; [intros [H _]; contradiction | intros _; lia].
  - split; [lia|]. split; [intros [H _]; contradiction | intros _; lia].
Qed.

Lemma hexToAnsi256_palette_witness :
  16 <= hexToAnsi256 {| red := 0x8b; green := 0x45; blue := 0x13 |} <= 255.
Proof.
  apply (hexToAnsi256_palette {| red := 0x8b; green := 0x45; blue := 0x13 |}); cbn; lia.
Defined.

Example hexToAnsi256_white : hexToAnsi256 {| red := 255; green := 255; blue := 255 |} = 231.
Proof. vm_compute. reflexivity. Qed.

Example hexToAnsi256_dark_grey :
  hexToAnsi256 {| red := 0x2d; green := 0x2d; blue := 0x2d |} = 236.
Proof. vm_compute. reflexivity. Qed.

End ThemeFacts.

(** ** The week progress around the reset time *)

Section ProgressAtReset.
Import JS Weekly.

Variable setDate : Calendar.

Lemma Math_round_below_half (x : Q) : (0 <= x)%Q -> (x < 1 # 2)%Q -> Math_round x = 0.
Proof.
  intros H0 Hhalf. unfold Math_round.
  assert (Hlo : 0 <= Qfloor (x + (1 # 2))).
  { change 0 with (Qfloor 0). apply Qfloor_resp_le. lra. }
  assert (Hhi : Qfloor (x + (1 # 2)) < 1).
  { rewrite Zlt_Qlt. apply Qle_lt_trans with (x + (1 # 2))%Q; [apply Qfloor_le|].
    change (inject_Z 1) with 1%Q. lra. }
  lia.
Qed.

(** X26.  With periods of positive length, the remote-anchored week progress is
    100 at the reset time itself, and falls back to 0 right after it: it is 0
    as long as less than half a percent of the next period has elapsed, the
    period being one of at most 2^52 milliseconds, so that the rounding of
    the quotient cannot reach half a percent. *)
Theorem calculateWeekProgressFromResetTime_wraps (now resetAt : Z) :
  setDate (-7) resetAt < resetAt ->
  resetAt < setDate 7 resetAt ->
  calculateWeekProgressFromResetTime setDate resetAt resetAt = 100
  /\ (resetAt < now -> 200 * (now - resetAt) < setDate 7 resetAt - resetAt ->
      setDate 7 resetAt - resetAt <= 2 ^ 52 ->
      calculateWeekProgressFromResetTime setDate now resetAt = 0).
Proof.
  intros Hbefore Hafter. split.
  - rewrite calculateWeekProgressFromResetTime_current by lia.
    set (t := resetAt - setDate (-7) resetAt).
    assert (Ht : 0 < t) by (unfold t; lia).
    assert (Htq : (0 < inject_Z t)%Q) by (rewrite (Zlt_Qlt 0 t) in Ht; exact Ht).
    assert (E : (inject_Z t / inject_Z t == 1)%Q).
    { field. intros H. rewrite H in Htq. exact (Qlt_irrefl 0 Htq). }
    unfold Double.div. rewrite (round_comp _ _ E).
    vm_compute. reflexivity.
  - intros Hpast Hsmall Hbound.
    rewrite calculateWeekProgressFromResetTime_stale by exact Hpast.
    set (e := now - resetAt) in *. set (t := setDate 7 resetAt - resetAt) in *.
    assert (Ht : 0 < t) by (unfold t; lia).
    assert (Htq : (0 < inject_Z t)%Q) by (rewrite (Zlt_Qlt 0 t) in Ht; exact Ht).
    destruct (percentage_of_part e t) as [H0 _]; [unfold e; lia | exact Ht |].
    apply Math_round_below_half; [exact H0|].
    set (c := (4503599627370495 # 900719925474099200)%Q).
    assert (Hq : (inject_Z e / inject_Z t <= c)%Q).
    { apply Qle_shift_div_r; [exact Htq|].
      unfold c, Qle, Qmult, inject_Z. cbn [Qnum Qden].
      change (2 ^ 52) with 4503599627370496 in Hbound.
      change (Z.pos (900719925474099200 * 1)) with 900719925474099200. lia. }
    apply Qle_lt_trans with (Double.mul (Double.round c) 100).
    + apply mul_mono_l; [unfold Qle; cbn; lia|].
      unfold Double.div. apply round_mono. exact Hq.
    + vm_compute. reflexivity.
Qed.

End ProgressAtReset.

Lemma calculateWeekProgressFromResetTime_wraps_witness :
  Weekly.calculateWeekProgressFromResetTime Weekly.fixedOffsetCalendar Sample.t0 Sample.t0
  = 100
  /\ Weekly.calculateWeekProgressFromResetTime Weekly.fixedOffsetCalendar
       (Sample.t0 + Sample.minute) Sample.t0 = 0.
Proof.
  destruct (calculateWeekProgressFromResetTime_wraps Weekly.fixedOffsetCalendar
              (Sample.t0 + Sample.minute) Sample.t0) as [Hat Hafter].
  - vm_compute. reflexivity.
  - vm_compute. reflexivity.
  - split; [exact Hat|].
    apply Hafter; vm_compute; first [reflexivity | discriminate].
Defined.
